(** * dht.js: the routing table, transaction registry and request handlers
      of [lib/dht/node.js], embedded in Rocq.

    The JavaScript of [node.js] is translated function by function.  Numbers
    are [Z]; a [Buffer] is the list of its bytes; a JavaScript object used as
    a dictionary is an association list when the order of its keys is
    observed ([Bucket.nodes]) and a [gmap] otherwise ([Node.queries],
    [Node.peers]).  A call that throws is a [Throw] outcome; mutation that
    happened before the throw stays in the state, as it does in JavaScript. *)

From Stdlib Require Import ZArith List String Ascii Bool Lia.
From stdpp Require Import gmap strings list.
Import ListNotations.

#[local] Set Warnings "-register-all".

Open Scope string_scope.
Open Scope Z_scope.

(** ** Outcomes of JavaScript calls *)

Inductive exn : Type :=
| TypeError       (* calling or reading through [undefined] *)
| ReferenceError  (* reading an identifier no scope binds *)
| RangeError      (* a Buffer access beyond its length *)
| Thrown (what : string).   (* what code outside the file throws *)

Inductive result (A : Type) : Type :=
| Ok (a : A)
| Throw (e : exn).
Arguments Ok {A} a.
Arguments Throw {A} e.

#[global] Instance result_ret : MRet result := fun A a => Ok a.
#[global] Instance result_bind : MBind result := fun A B f m =>
  match m with
  | Ok a => f a
  | Throw e => Throw e
  end.

(** ** Buffers and the values [contains] is called with *)

Module Buf.

Definition Buffer := list Z.

(** [new Buffer(n)].  Node leaves the contents unspecified; they are taken
    zero here.  [split] overwrites every 16-bit word of the buffers it
    allocates, and no statement below depends on the bytes of a token. *)
Definition alloc (n : nat) : Buffer := repeat 0 n.

Definition len (b : Buffer) : Z := Z.of_nat (length b).

Definition byte_at (b : Buffer) (i : Z) : Z := nth (Z.to_nat i) b 0.

(** [buf.readUInt16BE(i)]: the two bytes at [i] and [i+1], big-endian; an
    offset outside the buffer throws. *)
Definition readUInt16BE (b : Buffer) (i : Z) : result Z :=
  if (0 <=? i) && (i + 1 <? len b)
  then Ok (byte_at b i * 256 + byte_at b (i + 1))
  else Throw RangeError.

Definition set_byte (b : Buffer) (i : Z) (v : Z) : Buffer :=
  <[Z.to_nat i := v]> b.

(** [buf.writeUInt16BE(v, i)] for [0 <= v <= 0xffff]; on buffers of bytes
    the words that [split] writes are in that range. *)
Definition writeUInt16BE (b : Buffer) (v : Z) (i : Z) : Buffer :=
  set_byte (set_byte b i (Z.shiftr v 8)) (i + 1) (Z.land v 255).

(** The number a buffer denotes, most significant byte first. *)
Definition toZ (b : Buffer) : Z := fold_left (fun acc x => acc * 256 + x) b 0.

(** [buf.toString('hex')] *)
Definition hex_digit (d : Z) : ascii :=
  ascii_of_nat (Z.to_nat (if d <? 10 then 48 + d else 87 + d)).

Fixpoint hex (b : Buffer) : string :=
  match b with
  | [] => EmptyString
  | x :: rest => String (hex_digit (x / 16)) (String (hex_digit (x mod 16)) (hex rest))
  end.

(** The loop indices of [for (i = 0; i < n; i += 2)]. *)
Definition offsets_up (n : nat) : list Z :=
  map (fun k => 2 * Z.of_nat k) (seq 0 (Nat.div2 (S n))).

(** The loop indices of [for (i = n - 2; i >= 0; i -= 2)]. *)
Definition offsets_down (n : nat) : list Z :=
  map (fun k => Z.of_nat n - 2 - 2 * Z.of_nat k) (seq 0 (Nat.div2 n)).

End Buf.
Export Buf.

(** What reaches [Bucket.contains] and [Bucket.compare]: a Buffer from a
    decoded message, or a property name from [Object.keys], which is a
    string. *)
Inductive jsval : Type :=
| VBuffer (b : Buffer)
| VString (s : string).

Definition js_length (v : jsval) : nat :=
  match v with
  | VBuffer b => length b
  | VString s => String.length s
  end.

(** [v.readUInt16BE(i)]: a string has no such method. *)
Definition js_readUInt16BE (v : jsval) (i : Z) : result Z :=
  match v with
  | VBuffer b => readUInt16BE b i
  | VString _ => Throw TypeError
  end.

(** ** [Bucket.compare] and the arithmetic of [Bucket.prototype.split] *)

Module Range.

Fixpoint compare_at (offs : list Z) (a b : jsval) : result Z :=
  match offs with
  | [] => Ok 0
  | i :: rest =>
      aword ← js_readUInt16BE a i;
      bword ← js_readUInt16BE b i;
      if aword =? bword then compare_at rest a b
      else Ok (if aword >? bword then 1 else -1)
  end.

(** [Bucket.compare(a, b)] *)
Definition compare (a b : jsval) : result Z :=
  compare_at (offsets_up (js_length a)) a b.

(** The loop variables of [split]: the two buffers being filled and the two
    carries. *)
Record acc : Type := {
  rpos : Buffer;
  lpos : Buffer;
  overR : Z;
  overL : Z
}.

(** One round of the loop of [split], at word offset [i]. *)
Definition split_word (start end_ : Buffer) (i : Z) (s : acc) : result acc :=
  e ← readUInt16BE end_ i;
  let word := e + overR s in
  let overR1 := Z.land word 65536 in
  let word := if negb (i =? 0) then Z.lxor word overR1 else word in
  let overR2 := if negb (i =? 0) then Z.shiftr overR1 16 else 0 in
  st ← readUInt16BE start i;
  let word := Z.shiftr (word + st) 1 in
  let rpos' := writeUInt16BE (rpos s) word i in
  let '(word, overL') :=
    if negb (overL s =? 0) then
      if word - overL s >=? 0 then (word - overL s, 0) else (65535, 1)
    else (word, overL s) in
  Ok {| rpos := rpos'; lpos := writeUInt16BE (lpos s) word i;
        overR := overR2; overL := overL' |}.

Fixpoint split_words (start end_ : Buffer) (offs : list Z) (s : acc) : result acc :=
  match offs with
  | [] => Ok s
  | i :: rest => s' ← split_word start end_ i s; split_words start end_ rest s'
  end.

(** The first half of [split]: the bounds [(lpos, rpos)] of the two new
    buckets, [head = [start, lpos]] and [tail = [rpos, end]]. *)
Definition split_bounds (start end_ : Buffer) : result (Buffer * Buffer) :=
  s ← split_words start end_ (offsets_down (length end_))
       {| rpos := alloc (length end_); lpos := alloc (length end_);
          overR := 1; overL := 1 |};
  Ok (lpos s, rpos s).

End Range.
Export Range.

(** ** Property keys

    [this.nodes[remote.id] = remote] uses a Buffer as a property name, and
    [msg.q.toString()] turns the method name into a string; both go through
    [Buffer.prototype.toString], the UTF-8 decoding of Node.  The decoder is
    not part of this repository: it is an interface here, and every general
    statement holds for each implementation of it. *)

Class BufferToString : Type := toString : Buffer -> string.

(** On buffers of 7-bit bytes the decoding is the bytes themselves, read as
    characters.  This instance is used only to run the code on identifiers
    and method names written in ASCII. *)
Definition ascii_toString : BufferToString :=
  fun b => string_of_list_ascii (map (fun x => ascii_of_nat (Z.to_nat x)) b).

(** ** JavaScript objects whose key order is observed *)

Module Obj.
Section Obj.
Context {V : Type}.

(** [Object.keys(o)]: the keys in insertion order.  (JavaScript lists keys
    that are array indices first; the string of a 20-byte Buffer is never
    one, a canonical number below 2^32 having at most ten characters.) *)
Definition keys (o : list (string * V)) : list string := map fst o.

(** [o[k]] *)
Fixpoint get (k : string) (o : list (string * V)) : option V :=
  match o with
  | [] => None
  | (k', v) :: rest => if String.eqb k k' then Some v else get k rest
  end.

(** [o.hasOwnProperty(k)] *)
Definition has (k : string) (o : list (string * V)) : bool :=
  match get k o with Some _ => true | None => false end.

(** [o[k] = v]: an existing key keeps its place, a new key goes last. *)
Fixpoint set (k : string) (v : V) (o : list (string * V)) : list (string * V) :=
  match o with
  | [] => [(k, v)]
  | (k', v') :: rest =>
      if String.eqb k k' then (k, v) :: rest else (k', v') :: set k v rest
  end.

(** [delete o[k]] *)
Fixpoint delete (k : string) (o : list (string * V)) : list (string * V) :=
  match o with
  | [] => []
  | (k', v') :: rest =>
      if String.eqb k k' then rest else (k', v') :: delete k rest
  end.

(** [Object.keys(o).map(function (k) { return o[k] })] *)
Definition values (o : list (string * V)) : list V :=
  omap (fun k => get k o) (keys o).
End Obj.
End Obj.

(** [array.sort(cmp)] on the short arrays a bucket holds: an insertion sort,
    which keeps the order of elements that compare equal. *)
Section Sort.
Context {A : Type} (cmp : A -> A -> Z).

Fixpoint sort_insert (x : A) (l : list A) : list A :=
  match l with
  | [] => [x]
  | y :: rest => if cmp x y <=? 0 then x :: l else y :: sort_insert x rest
  end.

Definition sort (l : list A) : list A := foldr sort_insert [] l.
End Sort.

(** The sender of a datagram, [rinfo]. *)
Module Rinfo.
Record t : Type := { address : string; port : Z }.
End Rinfo.
Abbreviation rinfo := Rinfo.t.

(** [this.K = 8] in the constructor of [Node]. *)
Definition K : Z := 8.

(** ** [RemoteNode]: a contact stored in a bucket *)

Module RemoteNode.

Record t : Type := {
  id : Buffer;
  address : string;
  port : Z;
  firstSeen : Z;
  lastSeen : Z;
  timeout : option Z;   (* deadline of the pending ping timer, or null *)
  good : bool;
  bads : Z
}.

Definition ping_timeout : Z := 15 * 60 * 1000.

(** [new RemoteNode(node, id, target)] at time [now]; the constructor ends
    with [schedulePing]. *)
Definition new (id : Buffer) (target : rinfo) (now : Z) : t :=
  {| id := id;
     address := Rinfo.address target;
     port := Rinfo.port target;
     firstSeen := now;
     lastSeen := now;
     timeout := Some (now + ping_timeout);
     good := true;
     bads := 0 |}.

Definition close (r : t) : t :=
  {| id := id r; address := address r; port := port r;
     firstSeen := firstSeen r; lastSeen := lastSeen r;
     timeout := None; good := good r; bads := bads r |}.

Definition thank (now : Z) (r : t) : t :=
  {| id := id r; address := address r; port := port r;
     firstSeen := firstSeen r; lastSeen := now;
     timeout := timeout r; good := true; bads := 0 |}.

Definition curse (r : t) : t :=
  {| id := id r; address := address r; port := port r;
     firstSeen := firstSeen r; lastSeen := lastSeen r;
     timeout := timeout r;
     good := if bads r + 1 >? 2 then false else good r;
     bads := bads r + 1 |}.

(** [schedulePing()] at time [now]: [this.timeout] is the new timer. *)
Definition schedulePing (now : Z) (r : t) : t :=
  {| id := id r; address := address r; port := port r;
     firstSeen := firstSeen r; lastSeen := lastSeen r;
     timeout := Some (now + ping_timeout); good := good r; bads := bads r |}.

End RemoteNode.

(** ** [Bucket] *)

Module Bucket.
Section Bucket.
Context `{BufferToString}.

Record t : Type := {
  start : Buffer;
  end_ : Buffer;
  first : bool;
  closed : bool;   (* [this.timeout === false], set by [close] *)
  nodes : list (string * RemoteNode.t);
  slots : Z
}.

(** [new Bucket(node)]: the whole identifier space.  The constructor ends
    with [renew], which draws a random identifier and hands it to
    [node.findNodes]; that function has an empty body, so [renew] changes
    nothing and its callback, which would arm the refresh timer, never
    runs. *)
Definition new : t :=
  {| start := repeat 0 20; end_ := repeat 255 20; first := true;
     closed := false; nodes := []; slots := K |}.

(** [new Bucket(node, start, end)] with both bounds given. *)
Definition new_range (s e : Buffer) : t :=
  {| start := s; end_ := e; first := false;
     closed := false; nodes := []; slots := K |}.

Definition close (b : t) : t :=
  {| start := start b; end_ := end_ b; first := first b;
     closed := true; nodes := nodes b; slots := slots b |}.

Definition getNodes (b : t) : list RemoteNode.t := Obj.values (nodes b).

(** [compare(this.start, id) <= 0 && compare(id, this.end) <= 0] *)
Definition contains (b : t) (id : jsval) : result bool :=
  lo ← compare (VBuffer (start b)) id;
  if lo <=? 0 then
    hi ← compare id (VBuffer (end_ b));
    Ok (hi <=? 0)
  else Ok false.

Definition get (key : string) (b : t) : option RemoteNode.t :=
  Obj.get key (nodes b).

Definition remove (key : string) (b : t) : t :=
  if Obj.has key (nodes b) then
    (* [this.nodes[id].close()] stops the ping timer of the contact that
       is dropped *)
    {| start := start b; end_ := end_ b; first := first b;
       closed := closed b;
       nodes := Obj.delete key (nodes b);
       slots := slots b + 1 |}
  else b.

(** The two ways [add(id, target)] is called: from [processRequest] with
    the Buffer of the sender and its [rinfo], and from [split] with a
    property name and the [RemoteNode] stored under it. *)
Inductive add_args : Type :=
| Observed (id : Buffer) (target : rinfo)
| Stored (key : string) (target : RemoteNode.t).

Definition is_bad (b : t) (key : string) : bool :=
  match Obj.get key (nodes b) with
  | Some r => negb (RemoteNode.good r)
  | None => true
  end.

Definition lastSeen_of (b : t) (key : string) : Z :=
  match Obj.get key (nodes b) with
  | Some r => RemoteNode.lastSeen r
  | None => 0
  end.

(** The keys of the bad contacts, oldest [lastSeen] first. *)
Definition bad_keys (b : t) : list string :=
  sort (fun x y => lastSeen_of b x - lastSeen_of b y)
       (List.filter (is_bad b) (Obj.keys (nodes b))).

Definition add (arg : add_args) (now : Z) (b : t) : bool * t :=
  let vacated : option t :=
    if slots b =? 0 then
      match bad_keys b with
      | [] => None
      | oldest :: _ => Some (remove oldest b)
      end
    else Some b in
  match vacated with
  | None => (false, b)
  | Some b1 =>
      let remote :=
        match arg with
        | Stored _ r => r
        | Observed id target => RemoteNode.new id target now
        end in
      (true,
       {| start := start b1; end_ := end_ b1; first := first b1;
          closed := closed b1;
          nodes := Obj.set (toString (RemoteNode.id remote)) remote (nodes b1);
          slots := slots b1 - 1 |})
  end.

(** The [forEach] of [split]: each key of the old bucket goes to [head]
    when [head.contains(key)], else to [tail]. *)
Fixpoint relocate (old : list (string * RemoteNode.t)) (ks : list string)
    (now : Z) (head tail : t) : result (t * t) :=
  match ks with
  | [] => Ok (head, tail)
  | key :: rest =>
      c ← contains head (VString key);
      match Obj.get key old with
      | None => Throw TypeError
      | Some r =>
          if c : bool
          then relocate old rest now (snd (add (Stored key r) now head)) tail
          else relocate old rest now head (snd (add (Stored key r) now tail))
      end
  end.

(** [split()]: the pair [[head, tail]] it returns.  The old bucket is
    closed last; the caller drops it from the table. *)
Definition split (now : Z) (b : t) : result (t * t) :=
  '(lpos, rpos) ← split_bounds (start b) (end_ b);
  relocate (nodes b) (Obj.keys (nodes b)) now
           (new_range (start b) lpos) (new_range rpos (end_ b)).

End Bucket.
End Bucket.

(** ** Messages

    [bencode.decode] belongs to another module of the package.  A decoded
    message is taken as it arrives from it: a dictionary whose [t], [y] and
    [q], when present, are byte strings, and whose [a] and [r] are any
    decoded value. *)

Module Wire.

Inductive bval : Type :=
| BBuf (b : Buffer)
| BInt (n : Z)
| BList (l : list bval)
| BDict (d : list (string * bval)).

Record msg : Type := {
  t : option Buffer;
  y : option Buffer;
  q : option Buffer;
  a : option bval;
  r : option bval
}.

(** [!v] is false: every object is truthy, a number unless it is zero. *)
Definition truthy (v : option bval) : bool :=
  match v with
  | None => false
  | Some (BInt n) => negb (n =? 0)
  | Some _ => true
  end.

(** [v.k] for the keys the handlers read ([id], [token], [info_hash],
    [port]): present only on a dictionary that has them. *)
Definition field (v : option bval) (k : string) : option bval :=
  match v with
  | Some (BDict d) => Obj.get k d
  | _ => None
  end.

(** A record of [this.peers[infohash]]; [timeout] is the deadline of its
    expiry timer. *)
Record peer : Type := {
  address : string;
  port : Z;
  timeout : option Z
}.

(** A value of the [r] dictionary of a response, before [encodeNodes],
    [encodePeers] and [bencode.encode] turn it into bytes. *)
Inductive rval : Type :=
| RBuf (b : Buffer)
| RNodes (l : list RemoteNode.t)
| RPeers (l : list peer).

(** What a variable can hold when an outbound query is built: decoded
    data, or an object or function, which stays opaque here. *)
Inductive jsref : Type :=
| Data (v : bval)
| Ref (name : string).

Inductive packet : Type :=
| Query (t : Buffer) (q : string) (a : list (string * jsref))
| Response (t : option Buffer) (r : list (string * rval)).

Inductive event : Type :=
| Listening
| Error (e : exn)
| PeerNew (infohash : string) (p : peer)
| PeerDelete (infohash : string) (p : peer).

(** What a handler does to the outside: a datagram handed to the socket,
    or an event emitted to the application. *)
Inductive output : Type :=
| Sent (target : rinfo) (p : packet)
| Emitted (e : event).

End Wire.
Export Wire.

(** ** The routing table and the peer store of [Node] *)

Module Table.
Section Table.
Context `{BufferToString}.

(** An element of [this.buckets].  [splice(i, 1, bucket.split())] stores
    the array that [split] returns as a single element. *)
Inductive slot : Type :=
| SBucket (b : Bucket.t)
| SArray (l : list Bucket.t).

(** [this.buckets.filter(function (bucket) { return bucket.contains(id) })],
    each match with its index.  An element that is an array has no
    [contains]. *)
Fixpoint filter_contains (bs : list slot) (id : Buffer) (i : nat)
    : result (list (nat * Bucket.t)) :=
  match bs with
  | [] => Ok []
  | SArray _ :: _ => Throw TypeError
  | SBucket b :: rest =>
      c ← Bucket.contains b (VBuffer id);
      found ← filter_contains rest id (S i);
      Ok (if c : bool then (i, b) :: found else found)
  end.

Inductive step : Type := Break | Continue.

(** One round of the [while (true)] loop of [processRequest]. *)
Definition observe_once (self : Buffer) (now : Z) (id : Buffer) (from : rinfo)
    (bs : list slot) : list slot * result step :=
  match filter_contains bs id 0 with
  | Throw e => (bs, Throw e)
  | Ok [] => (bs, Throw TypeError)
  | Ok ((i, b) :: _) =>
      let '(added, b') := Bucket.add (Bucket.Observed id from) now b in
      let bs' := <[i := SBucket b']> bs in
      if added then (bs', Ok Break)
      else
        match Bucket.contains b' (VBuffer self) with
        | Throw e => (bs', Throw e)
        | Ok false => (bs', Ok Break)
        | Ok true =>
            match Bucket.split now b' with
            | Throw e => (bs', Throw e)
            | Ok (head, tail) => (<[i := SArray [head; tail]]> bs', Ok Continue)
            end
        end
  end.

(** The loop, run for at most [fuel] rounds; [None] when the rounds do
    not suffice. *)
Fixpoint observe_loop (fuel : nat) (self : Buffer) (now : Z) (id : Buffer)
    (from : rinfo) (bs : list slot) : list slot * option (result unit) :=
  match fuel with
  | O => (bs, None)
  | S fuel' =>
      match observe_once self now id from bs with
      | (bs', Throw e) => (bs', Some (Throw e))
      | (bs', Ok Break) => (bs', Some (Ok tt))
      | (bs', Ok Continue) => observe_loop fuel' self now id from bs'
      end
  end.

(** Two rounds always suffice ([observe_loop_total] below): a round that
    goes on has stored an array in the table, and the next [filter]
    throws on it. *)
Definition observe (self : Buffer) (now : Z) (id : Buffer) (from : rinfo)
    (bs : list slot) : list slot * result unit :=
  match observe_loop 2 self now id from bs with
  | (bs', Some r) => (bs', r)
  | (bs', None) => (bs', Ok tt)
  end.

(** [this.buckets[i].getNodes()] *)
Definition slot_getNodes (bs : list slot) (i : nat) : result (list RemoteNode.t) :=
  match bs !! i with
  | Some (SBucket b) => Ok (Bucket.getNodes b)
  | _ => Throw TypeError
  end.

Definition findKClosest (id : Buffer) (bs : list slot) : result (list RemoteNode.t) :=
  found ← filter_contains bs id 0;
  match found with
  | [] => Throw TypeError
  | (index, bucket) :: _ =>
      let nodes := Bucket.getNodes bucket in
      nodes ←
        (if Z.of_nat (length nodes) <? K then
           nodes1 ←
             (if Z.of_nat index - 1 >=? 0
              then prev ← slot_getNodes bs (index - 1); Ok (nodes ++ prev)%list
              else Ok nodes);
           (if Z.of_nat index + 1 <? Z.of_nat (length bs)
            then next ← slot_getNodes bs (index + 1); Ok (nodes1 ++ next)%list
            else Ok nodes1)
         else Ok nodes);
      Ok (take (Z.to_nat K) nodes)
  end.

End Table.
End Table.

(** ** [Node]: the request handlers *)

Module Handlers.
Section Handlers.
Context `{BufferToString}.

Import Table.

(** The part of a node the handlers of inbound queries read and write. *)
Record store : Type := {
  buckets : list slot;
  peers : gmap string (list peer)
}.

(** A handler: it changes the store, hands datagrams and events to the
    outside, and returns or throws.  What it did before throwing stays. *)
Definition Js (A : Type) : Type := store -> store * list output * result A.

#[global] Instance Js_ret : MRet Js := fun A a st => (st, [], Ok a).
#[global] Instance Js_bind : MBind Js := fun A B f m st =>
  match m st with
  | (st1, out1, Ok a) =>
      let '(st2, out2, r) := f a st1 in (st2, (out1 ++ out2)%list, r)
  | (st1, out1, Throw e) => (st1, out1, Throw e)
  end.

Definition throw {A} (e : exn) : Js A := fun st => (st, [], Throw e).
Definition tell (o : output) : Js unit := fun st => (st, [o], Ok tt).
Definition lift {A} (r : result A) : Js A := fun st => (st, [], r).
Definition get_store : Js store := fun st => (st, [], Ok st).
Definition set_buckets (bs : list slot) : Js unit :=
  fun st => ({| buckets := bs; peers := peers st |}, [], Ok tt).
Definition set_peers (ps : gmap string (list peer)) : Js unit :=
  fun st => ({| buckets := buckets st; peers := ps |}, [], Ok tt).

Definition peer_timeout : Z := 60 * 60 * 1000.

(** [issueToken()]: [new Buffer(4)]. *)
Definition issueToken : Buffer := alloc 4.

(** [verifyToken(token)] *)
Definition verifyToken (token : Buffer) : bool := true.

(** [respond(target, msg, args)]: [args.id = this.id], then the reply
    [{t: msg.t, y: 'r', r: args}] goes to the socket. *)
Definition respond (self : Buffer) (target : rinfo) (m : msg)
    (args : list (string * rval)) : Js unit :=
  tell (Sent target (Response (Wire.t m) (Obj.set "id" (RBuf self) args))).

Definition processPing (self : Buffer) (m : msg) (from : rinfo) : Js unit :=
  respond self from m [].

(** [processFindNode] looks up [msg.a.id], the identifier of the sender. *)
Definition processFindNode (self : Buffer) (id : Buffer) (m : msg) (from : rinfo)
    : Js unit :=
  st ← get_store;
  nodes ← lift (findKClosest id (buckets st));
  respond self from m [("nodes", RNodes nodes)].

Definition processGetPeers (self : Buffer) (m : msg) (from : rinfo) : Js unit :=
  match field (Wire.a m) "info_hash" with
  | Some (BBuf info_hash) =>
      if negb (length info_hash =? 20)%nat then mret tt
      else
        let infohash := hex info_hash in
        let token := issueToken in
        st ← get_store;
        match peers st !! infohash with
        | None =>
            nodes ← lift (findKClosest info_hash (buckets st));
            respond self from m [("token", RBuf token); ("nodes", RNodes nodes)]
        | Some ps =>
            respond self from m [("token", RBuf token); ("values", RPeers ps)]
        end
  | _ => mret tt
  end.

(** The callback of [peers.some]: the index of the first record it
    accepts.  The second test compares [peer.port] with itself. *)
Definition same_peer (address : string) (p : peer) : bool :=
  negb (negb (String.eqb (Wire.address p) address)
        || negb (Wire.port p =? Wire.port p)).

Fixpoint find_existing (address : string) (ps : list peer) (i : nat) : option nat :=
  match ps with
  | [] => None
  | p :: rest =>
      if same_peer address p then Some i else find_existing address rest (S i)
  end.

(** [peer.renew()] at time [now]: the pending timer is cleared and a new
    one armed. *)
Definition renew (now : Z) (p : peer) : peer :=
  {| Wire.address := Wire.address p; Wire.port := Wire.port p;
     Wire.timeout := Some (now + peer_timeout) |}.

Definition processAnnouncePeer (self : Buffer) (now : Z) (m : msg) (from : rinfo)
    : Js unit :=
  match field (Wire.a m) "token", field (Wire.a m) "info_hash" with
  | Some (BBuf token), Some (BBuf info_hash) =>
      if negb (verifyToken token) || negb (length info_hash =? 20)%nat
      then mret tt
      else
        let infohash := hex info_hash in
        st ← get_store;
        let address := Rinfo.address from in
        let port :=
          match field (Wire.a m) "port" with
          | Some (BInt n) => n
          | _ => Rinfo.port from
          end in
        match peers st !! infohash with
        | None => throw TypeError   (* [peers.some] on [undefined] *)
        | Some ps =>
            match find_existing address ps 0 with
            | Some i =>
                set_peers (<[infohash := alter (renew now) i ps]> (peers st))
            | None =>
                let p := renew now {| Wire.address := address; Wire.port := port;
                                      Wire.timeout := None |} in
                set_peers (<[infohash := (ps ++ [p])%list]> (peers st));;
                tell (Emitted (PeerNew infohash p))
            end;;
            respond self from m []
        end
  | _, _ => mret tt
  end.

(** [processRequest(type, msg, rinfo)] *)
Definition processRequest (self : Buffer) (now : Z) (type : string) (m : msg)
    (from : rinfo) : Js unit :=
  if negb (truthy (Wire.a m)) then mret tt
  else
    match field (Wire.a m) "id" with
    | Some (BBuf id) =>
        if negb (length id =? 20)%nat then mret tt
        else
          st ← get_store;
          let '(bs, r) := observe self now id from (buckets st) in
          set_buckets bs;;
          lift r;;
          if String.eqb type "ping" then processPing self m from
          else if String.eqb type "find_node" then processFindNode self id m from
          else if String.eqb type "get_peers" then processGetPeers self m from
          else if String.eqb type "announce_peer" then
            processAnnouncePeer self now m from
          else mret tt   (* Ignore *)
    | _ => mret tt
    end.

End Handlers.
End Handlers.

(** ** [Node]: transactions, inbound datagrams, outbound queries *)

Module Node.
Section Node.
Context `{BufferToString}.

Import Table Handlers.

(** What a continuation is called with. *)
Inductive answer : Type :=
| TimedOut                                   (* [callback(new Error('Timed out'))] *)
| Reply (r : option bval) (from : rinfo).    (* [callback(null, msg.r, rinfo)] *)

(** The observable history of a node: outputs of the handlers, the calls
    of continuations, and the exceptions that leave the node through a
    timer.  A transaction is named by the number of the [request] call
    that registered it. *)
Inductive effect : Type :=
| Out (o : output)
| Called (txn : nat) (a : answer)
| Uncaught (e : exn).

(** The arguments of one call of [request], with the two random bytes it
    draws for the transaction id. *)
Record call : Type := {
  rnd1 : Z;
  rnd2 : Z;
  target : rinfo;
  type : string;
  args : list (string * jsref)
}.

(** The arguments of a [sendAnnouncePeer] waiting for the socket. *)
Record announce : Type := {
  an_target : rinfo;
  an_token : bval;
  an_peer : bval;
  an_rnd1 : Z;   (* the random bytes its [request] would draw *)
  an_rnd2 : Z
}.

Record t : Type := {
  id : Buffer;
  port : Z;
  tables : store;
  queries : gmap string nat;   (* [this.queries]: key to transaction *)
  timers : gmap nat string;    (* armed response timers, with the key each captured *)
  next_txn : nat;
  once_listening : list announce;
  trace : list effect
}.

(** [this.timeouts.response] *)
Definition response_timeout : Z := 5000.

Definition log (es : list effect) (n : t) : t :=
  {| id := id n; port := port n; tables := tables n; queries := queries n;
     timers := timers n; next_txn := next_txn n;
     once_listening := once_listening n;
     trace := (trace n ++ es)%list |}.

Definition with_tables (st : store) (n : t) : t :=
  {| id := id n; port := port n; tables := st; queries := queries n;
     timers := timers n; next_txn := next_txn n;
     once_listening := once_listening n; trace := trace n |}.

Definition with_queries (qs : gmap string nat) (ts : gmap nat string) (n : t) : t :=
  {| id := id n; port := port n; tables := tables n; queries := qs;
     timers := ts; next_txn := next_txn n;
     once_listening := once_listening n; trace := trace n |}.

(** [new Node(port)] with the identifier it drew. *)
Definition create (self : Buffer) (p : Z) : t :=
  {| id := self; port := p;
     tables := {| buckets := [SBucket Bucket.new]; peers := ∅ |};
     queries := ∅; timers := ∅; next_txn := O;
     once_listening := []; trace := [] |}.

(** [request(target, type, args, callback)]: the datagram is sent, the
    timer armed, and the query stored under the hex of its id, over
    whatever was stored there. *)
Definition request (c : call) (n : t) : t :=
  let tid := [rnd1 c; rnd2 c] in
  let key := hex tid in
  let txn := next_txn n in
  {| id := id n; port := port n; tables := tables n;
     queries := <[key := txn]> (queries n);
     timers := <[txn := key]> (timers n);
     next_txn := S txn;
     once_listening := once_listening n;
     trace := (trace n ++ [Out (Sent (target c) (Query tid (type c) (args c)))])%list |}.

(** The scopes around the body of [send], the inner function of
    [sendAnnouncePeer], innermost first: [send] itself, then
    [sendAnnouncePeer] with its parameters, its [var self] and its inner
    function, then the module with its [var]s, its functions and the
    names Node gives every module. *)
Definition send_scopes (an : announce) : list (list (string * jsref)) :=
  [ [("arguments", Ref "arguments")];
    [("target", Ref "target"); ("token", Data (an_token an));
     ("peer", Data (an_peer an)); ("callback", Ref "callback");
     ("self", Ref "self"); ("send", Ref "send"); ("arguments", Ref "arguments");
     ("sendAnnouncePeer", Ref "sendAnnouncePeer")];
    [("dgram", Ref "dgram"); ("crypto", Ref "crypto"); ("util", Ref "util");
     ("Buffer", Ref "Buffer"); ("EventEmitter", Ref "EventEmitter");
     ("dht", Ref "dht"); ("bencode", Ref "bencode"); ("utils", Ref "utils");
     ("Node", Ref "Node"); ("Bucket", Ref "Bucket"); ("RemoteNode", Ref "RemoteNode");
     ("exports", Ref "exports"); ("require", Ref "require"); ("module", Ref "module");
     ("__filename", Ref "__filename"); ("__dirname", Ref "__dirname")] ].

(** Reading the identifier [x]: the innermost scope that binds it gives
    its value; a name no scope binds is a property of the global object,
    and reading it throws when the global object does not have it. *)
Fixpoint resolve (scopes : list (list (string * jsref))) (globals : gmap string bval)
    (x : string) : result jsref :=
  match scopes with
  | [] =>
      match globals !! x with
      | Some v => Ok (Data v)
      | None => Throw ReferenceError
      end
  | scope :: outer =>
      match Obj.get x scope with
      | Some v => Ok v
      | None => resolve outer globals x
      end
  end.

(** [send()]: the argument object of [self.request] is built first, and it
    reads the identifier [id]. *)
Definition send (globals : gmap string bval) (an : announce) (n : t)
    : t * result unit :=
  match resolve (send_scopes an) globals "id" with
  | Throw e => (n, Throw e)
  | Ok info_hash =>
      (request {| rnd1 := an_rnd1 an; rnd2 := an_rnd2 an; target := an_target an;
                  type := "announce_peer";
                  args := [("id", Data (BBuf (id n))); ("info_hash", info_hash);
                           ("token", Data (an_token an));
                           ("port", Data (BInt (port n)))] |} n,
       Ok tt)
  end.

Definition with_listeners (ls : list announce) (n : t) : t :=
  {| id := id n; port := port n; tables := tables n; queries := queries n;
     timers := timers n; next_txn := next_txn n;
     once_listening := ls; trace := trace n |}.

(** [sendAnnouncePeer(target, token, peer, callback)]: with no port yet,
    [send] waits for ['listening']. *)
Definition sendAnnouncePeer (globals : gmap string bval) (an : announce) (n : t)
    : t * result unit :=
  if port n =? 0 then (with_listeners (once_listening n ++ [an])%list n, Ok tt)
  else send globals an n.

(** [emit('listening')] calls the listeners in the order they were added;
    a [once] listener is removed as it is called, and one that throws
    ends the [emit]. *)
Fixpoint run_listeners (globals : gmap string bval) (ls : list announce) (n : t)
    : t * result unit :=
  match ls with
  | [] => (n, Ok tt)
  | an :: rest =>
      match send globals an (with_listeners rest n) with
      | (n', Ok _) => run_listeners globals rest n'
      | (n', Throw e) => (n', Throw e)
      end
  end.

(** The socket is bound to [p]: [self.port] is set and ['listening'] is
    emitted. *)
Definition listening (globals : gmap string bval) (p : Z) (n : t) : t * result unit :=
  let n1 := {| id := id n; port := p; tables := tables n; queries := queries n;
               timers := timers n; next_txn := next_txn n;
               once_listening := once_listening n; trace := trace n |} in
  run_listeners globals (once_listening n) (log [Out (Emitted Listening)] n1).

(** [RemoteNode._wrapCallback] puts a wrapper around the continuation of
    every query sent through a stored contact: on an error the contact is
    cursed, otherwise thanked. *)
Inductive verdict : Type := Thank (now : Z) | Curse.

Definition judge (v : verdict) (r : RemoteNode.t) : RemoteNode.t :=
  match v with
  | Thank now => RemoteNode.thank now r
  | Curse => RemoteNode.curse r
  end.

Definition judge_bucket (key : string) (v : verdict) (b : Bucket.t) : Bucket.t :=
  match Obj.get key (Bucket.nodes b) with
  | None => b
  | Some r =>
      {| Bucket.start := Bucket.start b; Bucket.end_ := Bucket.end_ b;
         Bucket.first := Bucket.first b; Bucket.closed := Bucket.closed b;
         Bucket.nodes := Obj.set key (judge v r) (Bucket.nodes b);
         Bucket.slots := Bucket.slots b |}
  end.

Definition judge_contact (i : nat) (key : string) (v : verdict) (n : t) : t :=
  match buckets (tables n) !! i with
  | Some (SBucket b) =>
      with_tables
        {| buckets := <[i := SBucket (judge_bucket key v b)]> (buckets (tables n));
           peers := peers (tables n) |} n
  | _ => n
  end.

(** What the continuations of the library itself do to the contact they
    belong to: the wrapper of [_wrapCallback] thanks or curses it, and
    the continuation that [schedulePing] gives to [ping] arms its next
    ping timer. *)
Inductive touch : Type :=
| Judged (v : verdict)
| Rescheduled (now : Z).

Definition touched (u : touch) (r : RemoteNode.t) : RemoteNode.t :=
  match u with
  | Judged v => judge v r
  | Rescheduled now => RemoteNode.schedulePing now r
  end.

Definition touch_bucket (key : string) (u : touch) (b : Bucket.t) : Bucket.t :=
  match Obj.get key (Bucket.nodes b) with
  | None => b
  | Some r =>
      {| Bucket.start := Bucket.start b; Bucket.end_ := Bucket.end_ b;
         Bucket.first := Bucket.first b; Bucket.closed := Bucket.closed b;
         Bucket.nodes := Obj.set key (touched u r) (Bucket.nodes b);
         Bucket.slots := Bucket.slots b |}
  end.

Definition touch_contact (i : nat) (key : string) (u : touch) (n : t) : t :=
  match buckets (tables n) !! i with
  | Some (SBucket b) =>
      with_tables
        {| buckets := <[i := SBucket (touch_bucket key u b)]> (buckets (tables n));
           peers := peers (tables n) |} n
  | _ => n
  end.

(** A continuation is code of the caller of [request].  What it does to
    the node is a sequence of calls on it: [request] (through [sendPing],
    [sendFindNode], [sendGetPeers] or a stored contact),
    [sendAnnouncePeer], and what the library's own continuations do to a
    stored contact.  It returns or it throws; when it throws, [does] is
    what it did before.  A call of [sendAnnouncePeer] that throws ends
    the continuation or is caught by it, as [ends] says. *)
Inductive action : Type :=
| Asks (c : call)
| Announces (globals : gmap string bval) (an : announce)
| Touches (i : nat) (key : string) (u : touch).

Inductive outcome : Type := Returns | Throws (e : exn).

Record behaviour : Type := {
  does : list action;
  ends : outcome
}.

(** The continuation that does nothing and returns. *)
Definition idle : behaviour := {| does := []; ends := Returns |}.

Definition act (n : t) (a : action) : t :=
  match a with
  | Asks c => request c n
  | Announces globals an => fst (sendAnnouncePeer globals an n)
  | Touches i key u => touch_contact i key u n
  end.

(** A continuation runs: the call is recorded, then the continuation
    does what it does, and returns or throws. *)
Definition invoke (txn : nat) (a : answer) (k : behaviour) (n : t) : t * result unit :=
  (foldl act (log [Called txn a] n) (does k),
   match ends k with
   | Returns => Ok tt
   | Throws e => Throw e
   end).

(** The function given to [setTimeout] in [request], for transaction
    [txn].  A timer that was cleared or has fired does not fire.  When
    the continuation throws, the rest of the function does not run: the
    entry stays in [queries], and the exception leaves the node through
    the timer.  Nothing in the file catches it; the node is followed
    further for the processes that survive it (those that handle
    ['uncaughtException']). *)
Definition timeout_fires (txn : nat) (k : behaviour) (n : t) : t :=
  match timers n !! txn with
  | None => n
  | Some key =>
      let n1 := with_queries (queries n) (delete txn (timers n)) n in
      match invoke txn TimedOut k n1 with
      | (n2, Ok _) =>
          if decide (queries n2 !! key = Some txn)
          then with_queries (delete key (queries n2)) (timers n2) n2
          else n2
      | (n2, Throw e) => log [Uncaught e] n2
      end
  end.

(** [msg.y && msg.y.length === 1 && msg.y[0] === 0x72] *)
Definition is_response (m : msg) : bool :=
  match Wire.y m with
  | Some [c] => c =? 114
  | _ => false
  end.

(** The body of the [try] of [onmessage]; [k] is what the continuation
    does when the message is a response that has one.  The entry is
    deleted after the continuation has returned, so not when it
    throws. *)
Definition dispatch (now : Z) (m : msg) (from : rinfo) (k : behaviour)
    (n : t) : t * result unit :=
  if is_response m then
    match Wire.t m with
    | None => (n, Throw TypeError)
    | Some tid =>
        let key := hex tid in
        match queries n !! key with
        | Some txn =>
            let n1 := with_queries (queries n) (delete txn (timers n)) n in
            match invoke txn (Reply (Wire.r m) from) k n1 with
            | (n2, Ok _) =>
                (with_queries (delete key (queries n2)) (timers n2) n2, Ok tt)
            | (n2, Throw e) => (n2, Throw e)
            end
        | None => (n, Ok tt)
        end
    end
  else
    match Wire.q m with
    | None => (n, Throw TypeError)
    | Some q =>
        let '(st, out, r) :=
          processRequest (id n) now (toString q) m from (tables n) in
        (log (map Out out) (with_tables st n), r)
    end.

(** [onmessage(packet, rinfo)], given what [bencode.decode(packet)]
    returned or threw. *)
Definition onmessage (now : Z) (decoded : result msg) (from : rinfo)
    (k : behaviour) (n : t) : t :=
  match decoded with
  | Throw e => log [Out (Emitted (Error e))] n
  | Ok m =>
      match dispatch now m from k n with
      | (n', Ok _) => n'
      | (n', Throw e) => log [Out (Emitted (Error e))] n'
      end
  end.

(** The function given to [setTimeout] in [renew], for the record at
    index [i] of the list of [infohash]: the record leaves the list and
    ['peer:delete'] is emitted. *)
Definition peer_expires (infohash : string) (i : nat) (n : t) : t :=
  match peers (tables n) !! infohash with
  | None => n
  | Some ps =>
      match ps !! i with
      | None => n
      | Some p =>
          match Wire.timeout p with
          | None => n
          | Some _ =>
              let gone := {| Wire.address := Wire.address p; Wire.port := Wire.port p;
                             Wire.timeout := None |} in
              log [Out (Emitted (PeerDelete infohash gone))]
                  (with_tables {| buckets := buckets (tables n);
                                  peers := <[infohash := delete i ps]> (peers (tables n)) |}
                               n)
          end
      end
  end.

(** What can happen to a node, one event at a time: a call of [request];
    a datagram, with what the continuation does if the datagram is a
    response that finds one; the response timer of a transaction, with
    what its continuation does; the expiry timer of a peer record;
    [thank] or [curse] called on a stored contact from outside a
    continuation; [sendAnnouncePeer]; the socket being bound. *)
Inductive input : Type :=
| DoRequest (c : call)
| Datagram (now : Z) (decoded : result msg) (from : rinfo) (k : behaviour)
| TimerFires (txn : nat) (k : behaviour)
| PeerExpires (infohash : string) (i : nat)
| Liveness (i : nat) (key : string) (v : verdict)
| DoAnnounce (globals : gmap string bval) (an : announce)
| Bound (globals : gmap string bval) (p : Z).

Definition step (n : t) (i : input) : t :=
  match i with
  | DoRequest c => request c n
  | Datagram now decoded from k => onmessage now decoded from k n
  | TimerFires txn k => timeout_fires txn k n
  | PeerExpires infohash i => peer_expires infohash i n
  | Liveness i key v => judge_contact i key v n
  | DoAnnounce globals an => fst (sendAnnouncePeer globals an n)
  | Bound globals p => fst (listening globals p n)
  end.

Definition run (n : t) (inputs : list input) : t := foldl step n inputs.

End Node.
End Node.

(** * Properties *)

(** ** The bounds computed by [split] *)

Section RangeFacts.

(** The first split of a node, of the whole space, is exact. *)
Lemma split_bounds_whole_space :
  split_bounds (repeat 0 20) (repeat 255 20)
  = Ok ((127 :: repeat 255 19)%list, (128 :: repeat 0 19)%list).
Proof. reflexivity. Qed.

(** A buffer of bytes names a number below [256 ^ length]. *)
Definition is_bytes (b : Buffer) : Prop := Forall (fun x => 0 <= x < 256) b.

Definition is_id (b : Buffer) : Prop := length b = 20%nat /\ is_bytes b.

Lemma compare_at_le (offs : list Z) (a b : Buffer) :
  Forall (fun i => exists x y,
            readUInt16BE a i = Ok x /\ readUInt16BE b i = Ok y /\ x <= y) offs ->
  exists c, compare_at offs (VBuffer a) (VBuffer b) = Ok c /\ c <= 0.
Proof.
  induction 1 as [|i offs (x & y & Ha & Hb & Hxy) _ IH]; simpl.
  - exists 0. split; [reflexivity | lia].
  - rewrite Ha, Hb. simpl.
    destruct (x =? y) eqn:E; [exact IH|].
    exists (-1). apply Z.eqb_neq in E.
    replace (x >? y) with false by (symmetry; rewrite Z.gtb_ltb; apply Z.ltb_ge; lia).
    split; [reflexivity | lia].
Qed.

Lemma byte_at_range (b : Buffer) (i : Z) :
  is_bytes b -> 0 <= byte_at b i < 256.
Proof.
  intros Hb. unfold byte_at.
  destruct (nth_in_or_default (Z.to_nat i) b 0) as [Hin | ->]; [|lia].
  unfold is_bytes in Hb. rewrite List.Forall_forall in Hb. exact (Hb _ Hin).
Qed.

Lemma read_id (b : Buffer) (i : Z) :
  is_id b -> In i (offsets_up 20) ->
  exists x, readUInt16BE b i = Ok x /\ 0 <= x <= 65535.
Proof.
  intros [Hlen Hb] Hi.
  assert (Hr : 0 <= i /\ i + 1 < 20).
  { change (offsets_up 20) with [0; 2; 4; 6; 8; 10; 12; 14; 16; 18] in Hi.
    simpl in Hi. lia. }
  unfold readUInt16BE, len. rewrite Hlen.
  replace (0 <=? i) with true by (symmetry; apply Z.leb_le; lia).
  replace (i + 1 <? Z.of_nat 20) with true by (symmetry; apply Z.ltb_lt; lia).
  simpl. eexists. split; [reflexivity|].
  pose proof (byte_at_range b i Hb). pose proof (byte_at_range b (i + 1) Hb).
  lia.
Qed.

End RangeFacts.

(** ** Objects keyed by strings *)

Section ObjFacts.
Context {V : Type}.
Implicit Types (o : list (string * V)) (k : string) (v : V).

Lemma get_In o k v : Obj.get k o = Some v -> In (k, v) o.
Proof.
  induction o as [|[k' v'] o IH]; simpl; [discriminate|].
  destruct (String.eqb k k') eqn:E.
  - apply String.eqb_eq in E. intros [= <-]. subst. now left.
  - intros Hg. right. auto.
Qed.

Lemma get_None_keys o k : Obj.get k o = None -> ~ In k (Obj.keys o).
Proof.
  induction o as [|[k' v'] o IH]; simpl; [tauto|].
  destruct (String.eqb k k') eqn:E; [discriminate|].
  apply String.eqb_neq in E. intros Hg [Heq | Hin]; [congruence | tauto].
Qed.

Lemma keys_set o k v :
  Obj.keys (Obj.set k v o)
  = if Obj.has k o then Obj.keys o else (Obj.keys o ++ [k])%list.
Proof.
  unfold Obj.has.
  induction o as [|[k' v'] o IH]; simpl; [reflexivity|].
  destruct (String.eqb k k') eqn:E; simpl.
  - apply String.eqb_eq in E. now subst.
  - unfold Obj.keys in *. rewrite IH. now destruct (Obj.get k o).
Qed.

Lemma In_set o k v x : In x (Obj.set k v o) -> x = (k, v) \/ In x o.
Proof.
  induction o as [|[k' v'] o IH]; simpl.
  - intros [<- | []]. now left.
  - destruct (String.eqb k k'); simpl; intros [<- | Hin]; auto.
    destruct (IH Hin); auto.
Qed.

Lemma set_not_nil o k v : Obj.set k v o <> [].
Proof. destruct o as [|[k' v'] o]; simpl; [|destruct (String.eqb k k')]; discriminate. Qed.

Lemma In_delete o k x : In x (Obj.delete k o) -> In x o.
Proof.
  induction o as [|[k' v'] o IH]; simpl; [tauto|].
  destruct (String.eqb k k'); simpl; [tauto|]. intros [<- | Hin]; auto.
Qed.

Lemma NoDup_keys_delete o k :
  List.NoDup (Obj.keys o) -> List.NoDup (Obj.keys (Obj.delete k o)).
Proof.
  induction o as [|[k' v'] o IH]; simpl; [auto|].
  intros Hnd. apply List.NoDup_cons_iff in Hnd as [Hni Hnd].
  destruct (String.eqb k k'); simpl; [exact Hnd|].
  apply List.NoDup_cons; [|auto].
  intros Hin. apply Hni. unfold Obj.keys in *.
  apply List.in_map_iff in Hin as (x & <- & Hx).
  apply List.in_map, (In_delete _ _ _ Hx).
Qed.

Lemma NoDup_keys_set o k v :
  List.NoDup (Obj.keys o) -> List.NoDup (Obj.keys (Obj.set k v o)).
Proof.
  induction o as [|[k' v'] o IH]; simpl.
  - intros _. apply List.NoDup_cons; [simpl; tauto | constructor].
  - intros Hnd. apply List.NoDup_cons_iff in Hnd as [Hni Hnd].
    destruct (String.eqb k k') eqn:E; simpl.
    + apply String.eqb_eq in E. subst. now apply List.NoDup_cons.
    + apply String.eqb_neq in E. apply List.NoDup_cons; [|auto].
      intros Hin. unfold Obj.keys in *.
      apply List.in_map_iff in Hin as (x & Hx & Hin).
      apply In_set in Hin as [-> | Hin]; [simpl in Hx; congruence|].
      apply Hni. rewrite <- Hx. now apply List.in_map.
Qed.

Lemma In_get o k v : List.NoDup (Obj.keys o) -> In (k, v) o -> Obj.get k o = Some v.
Proof.
  induction o as [|[k' v'] o IH]; simpl; [tauto|].
  intros Hnd. apply List.NoDup_cons_iff in Hnd as [Hni Hnd].
  intros [[= -> ->] | Hin].
  - now rewrite String.eqb_refl.
  - destruct (String.eqb k k') eqn:E; [|auto].
    apply String.eqb_eq in E. subst. exfalso. apply Hni.
    exact (List.in_map fst _ _ Hin).
Qed.

(** With distinct keys, [values] lists the stored values in key order. *)
Lemma values_NoDup o : List.NoDup (Obj.keys o) -> Obj.values o = map snd o.
Proof.
  intros Hnd. unfold Obj.values.
  assert (G : forall l, (forall x, In x l -> In x o) ->
              omap (fun k => Obj.get k o) (Obj.keys l) = map snd l).
  { induction l as [|[k v] l IH]; simpl; [reflexivity|].
    intros Hsub. rewrite (In_get o k v Hnd) by (apply Hsub; now left).
    simpl. f_equal. apply IH. intros x Hx. apply Hsub. now right. }
  apply G. auto.
Qed.

Lemma get_set_eq o k v : Obj.get k (Obj.set k v o) = Some v.
Proof.
  induction o as [|[k' v'] o IH]; simpl.
  - now rewrite String.eqb_refl.
  - destruct (String.eqb k k') eqn:E; simpl.
    + now rewrite String.eqb_refl.
    + now rewrite E.
Qed.

End ObjFacts.

(** ** Buckets *)

Section BucketFacts.
Context `{BufferToString}.
Import Bucket.

(** The bucket that covers the whole identifier space. *)
Definition whole (b : t) : Prop :=
  start b = repeat 0 20 /\ end_ b = repeat 255 20.

(** Every contact is stored under the string of its own identifier. *)
Definition keyed (o : list (string * RemoteNode.t)) : Prop :=
  List.NoDup (Obj.keys o)
  /\ Forall (fun x => fst x = toString (RemoteNode.id (snd x))) o.

Definition bucket_ok (b : t) : Prop :=
  whole b /\ keyed (nodes b) /\ (nodes b = [] -> slots b = K).

Lemma read_zero (i : Z) : In i (offsets_up 20) -> readUInt16BE (repeat 0 20) i = Ok 0.
Proof.
  change (offsets_up 20) with [0; 2; 4; 6; 8; 10; 12; 14; 16; 18]. simpl.
  intros Hi. repeat (destruct Hi as [<- | Hi]; [reflexivity|]). destruct Hi.
Qed.

Lemma read_ones (i : Z) :
  In i (offsets_up 20) -> readUInt16BE (repeat 255 20) i = Ok 65535.
Proof.
  change (offsets_up 20) with [0; 2; 4; 6; 8; 10; 12; 14; 16; 18]. simpl.
  intros Hi. repeat (destruct Hi as [<- | Hi]; [reflexivity|]). destruct Hi.
Qed.

Lemma contains_whole (b : t) (id : Buffer) :
  whole b -> is_id id -> contains b (VBuffer id) = Ok true.
Proof.
  intros [Hs He] Hid. unfold contains, compare. rewrite Hs, He.
  destruct (compare_at_le (offsets_up 20) (repeat 0 20) id) as (c & Hc & Hle).
  { apply List.Forall_forall. intros i Hi.
    destruct (read_id id i Hid Hi) as (y & Hy & Hr).
    exists 0, y. rewrite read_zero by exact Hi. repeat split; [exact Hy | lia]. }
  change (js_length (VBuffer (repeat 0 20))) with 20%nat.
  rewrite Hc. cbn [mbind result_bind].
  replace (c <=? 0) with true by (symmetry; apply Z.leb_le; lia).
  destruct Hid as [Hlen Hb]. cbn [js_length]. rewrite Hlen.
  destruct (compare_at_le (offsets_up 20) id (repeat 255 20)) as (d & Hd & Hle').
  { apply List.Forall_forall. intros i Hi.
    destruct (read_id id i (conj Hlen Hb) Hi) as (y & Hy & Hr).
    exists y, 65535. rewrite read_ones by exact Hi. repeat split; [exact Hy | lia]. }
  rewrite Hd. cbn [mbind result_bind]. f_equal. apply Z.leb_le. lia.
Qed.

(** A property name is a string: [Bucket.compare] throws on it. *)
Lemma contains_key_throws (b : t) (key : string) :
  whole b -> contains b (VString key) = Throw TypeError.
Proof. intros [Hs _]. unfold contains. rewrite Hs. reflexivity. Qed.

(** [split] of the whole-space bucket throws as soon as the bucket holds
    a contact: the first key is handed to [head.contains]. *)
Lemma split_nonempty_throws (now : Z) (b : t) :
  whole b -> nodes b <> [] -> split now b = Throw TypeError.
Proof.
  intros [Hs He] Hne. unfold split. rewrite Hs, He.
  rewrite split_bounds_whole_space. simpl.
  destruct (nodes b) as [|[k r] rest]; [contradiction|]. reflexivity.
Qed.

Lemma keyed_set (o : list (string * RemoteNode.t)) (r : RemoteNode.t) :
  keyed o -> keyed (Obj.set (toString (RemoteNode.id r)) r o).
Proof.
  intros [Hnd Hk]. split; [now apply NoDup_keys_set|].
  apply List.Forall_forall. intros x Hx.
  apply In_set in Hx as [-> | Hx]; [reflexivity|].
  rewrite List.Forall_forall in Hk. auto.
Qed.

Lemma keyed_delete (o : list (string * RemoteNode.t)) (key : string) :
  keyed o -> keyed (Obj.delete key o).
Proof.
  intros [Hnd Hk]. split; [now apply NoDup_keys_delete|].
  apply List.Forall_forall. intros x Hx. apply In_delete in Hx.
  rewrite List.Forall_forall in Hk. auto.
Qed.

Lemma remove_keeps (key : string) (b : t) :
  whole b -> keyed (nodes b) ->
  whole (remove key b) /\ keyed (nodes (remove key b)).
Proof.
  intros Hw Hk. unfold remove.
  destruct (Obj.has key (nodes b)); [|auto].
  split; [exact Hw | now apply keyed_delete].
Qed.

(** [add] keeps a bucket well formed. *)
Lemma add_ok (arg : add_args) (now : Z) (b : t) :
  bucket_ok b -> bucket_ok (snd (add arg now b)).
Proof.
  intros (Hw & Hk & Hs). unfold add.
  destruct (slots b =? 0).
  - destruct (bad_keys b) as [|oldest rest]; [exact (conj Hw (conj Hk Hs))|].
    destruct (remove_keeps oldest b Hw Hk) as [Hw' Hk'].
    simpl. repeat split; try apply Hw'.
    + apply keyed_set, Hk'.
    + apply keyed_set, Hk'.
    + intros E. now apply set_not_nil in E.
  - simpl. repeat split; try apply Hw.
    + apply keyed_set, Hk.
    + apply keyed_set, Hk.
    + intros E. now apply set_not_nil in E.
Qed.

(** A rejected [add] changes nothing, and happens only with no slot left. *)
Lemma add_rejected (arg : add_args) (now : Z) (b : t) :
  fst (add arg now b) = false ->
  snd (add arg now b) = b /\ slots b = 0 /\ bad_keys b = [].
Proof.
  unfold add. destruct (slots b =? 0) eqn:E; [|discriminate].
  destruct (bad_keys b); [|discriminate].
  intros _. apply Z.eqb_eq in E. auto.
Qed.

(** With a slot free, [add] of an observed contact sets its key and
    uses one slot. *)
Lemma add_with_room (id : Buffer) (target : rinfo) (now : Z) (b : t) :
  slots b <> 0 ->
  add (Observed id target) now b
  = (true,
     {| start := start b; end_ := end_ b; first := first b; closed := closed b;
        nodes := Obj.set (toString id) (RemoteNode.new id target now) (nodes b);
        slots := slots b - 1 |}).
Proof.
  intros Hs. unfold add.
  now replace (slots b =? 0) with false by (symmetry; now apply Z.eqb_neq).
Qed.

End BucketFacts.

(** ** The routing table *)

Section TableFacts.
Context `{BufferToString}.
Import Table.

(** The table a node starts with and, as shown below, never leaves: one
    bucket for the whole space. *)
Definition single (bs : list slot) : Prop :=
  exists b, bs = [SBucket b] /\ bucket_ok b.

Lemma single_new : single [SBucket Bucket.new].
Proof.
  exists Bucket.new. split; [reflexivity|].
  repeat split; simpl; auto; constructor.
Qed.

Lemma filter_contains_array (bs : list slot) (id : Buffer) (i : nat) :
  (exists l, In (SArray l) bs) -> exists e, filter_contains bs id i = Throw e.
Proof.
  revert i. induction bs as [|s bs IH]; intros i [l Hin]; [destruct Hin|].
  destruct s as [b | l']; simpl; [|eauto].
  destruct Hin as [Hin | Hin]; [discriminate|].
  destruct (Bucket.contains b (VBuffer id)); simpl; [|eauto].
  destruct (IH (S i) (ex_intro _ l Hin)) as [e ->]. simpl. eauto.
Qed.

Lemma filter_contains_index (bs : list slot) (id : Buffer) (i0 : nat)
    (found : list (nat * Bucket.t)) :
  filter_contains bs id i0 = Ok found ->
  Forall (fun x => (i0 <= fst x < i0 + length bs)%nat) found.
Proof.
  revert i0 found. induction bs as [|s bs IH]; intros i0 found; simpl.
  - intros [= <-]. constructor.
  - destruct s as [b | l]; [|discriminate].
    destruct (Bucket.contains b (VBuffer id)) as [c|]; simpl; [|discriminate].
    destruct (filter_contains bs id (S i0)) as [rest|] eqn:E; simpl; [|discriminate].
    intros [= <-]. specialize (IH _ _ E).
    assert (IH' : Forall (fun x => (i0 <= fst x < i0 + S (length bs))%nat) rest).
    { eapply List.Forall_impl; [|exact IH]. simpl. intros; lia. }
    destruct c; [constructor; [simpl; lia | exact IH'] | exact IH'].
Qed.

(** A round that asks for another one has put an array into the table. *)
Lemma observe_once_continue self now id from bs bs' :
  observe_once self now id from bs = (bs', Ok Continue) ->
  exists l, In (SArray l) bs'.
Proof.
  unfold observe_once.
  destruct (filter_contains bs id 0) as [[|[i b] found]|] eqn:E;
    try (intros [= ]; fail).
  apply filter_contains_index in E. apply List.Forall_cons_iff in E as [Hi _].
  simpl in Hi.
  destruct (Bucket.add _ now b) as [added b1].
  destruct added; [intros [= ]|].
  destruct (Bucket.contains b1 (VBuffer self)) as [[|]|]; try (intros [= ]; fail).
  destruct (Bucket.split now b1) as [[head tail]|]; intros [= <-].
  exists [head; tail]. apply list_elem_of_In, list_elem_of_lookup. exists i.
  apply list_lookup_insert_eq. rewrite length_insert. lia.
Qed.

(** The loop of [processRequest] ends within two rounds, whatever the
    table. *)
Lemma observe_loop_total (fuel : nat) self now id from bs :
  (2 <= fuel)%nat ->
  observe_loop fuel self now id from bs = observe_loop 2 self now id from bs
  /\ snd (observe_loop 2 self now id from bs) <> None.
Proof.
  intros Hf. destruct fuel as [|[|fuel]]; try lia.
  simpl. destruct (observe_once self now id from bs) as [bs1 [[|]|e]] eqn:E1;
    simpl; try (split; [reflexivity | discriminate]).
  apply observe_once_continue in E1.
  destruct (filter_contains_array bs1 id 0 E1) as [e He].
  unfold observe_once. rewrite He.
  destruct fuel; simpl; split; try reflexivity; discriminate.
Qed.

(** On the single bucket every round ends the loop and leaves a single
    bucket: when [add] is refused the bucket holds a contact, so [split]
    throws before [splice] is reached. *)
Lemma observe_once_single self now id from bs :
  single bs ->
  exists bs' r, observe_once self now id from bs = (bs', r)
                /\ single bs' /\ r <> Ok Continue.
Proof.
  intros (b & -> & Hb). unfold observe_once. simpl.
  destruct (Bucket.contains b (VBuffer id)) as [[|]|e]; simpl.
  - pose proof (add_ok (Bucket.Observed id from) now b Hb) as Hb'.
    pose proof (add_rejected (Bucket.Observed id from) now b) as Hrej.
    destruct (Bucket.add (Bucket.Observed id from) now b) as [added b1].
    simpl in Hb', Hrej. destruct added.
    + eexists _, _. split; [reflexivity|]. split; [|discriminate].
      exists b1. auto.
    + destruct (Hrej eq_refl) as (-> & Hslots & _).
      assert (Hne : Bucket.nodes b <> []).
      { destruct Hb as (_ & _ & Hs). intros E. apply Hs in E.
        unfold K in E. lia. }
      destruct (Bucket.contains b (VBuffer self)) as [[|]|e].
      * rewrite (split_nonempty_throws now b) by (try apply Hb; exact Hne).
        eexists _, _. split; [reflexivity|]. split; [|discriminate].
        exists b. auto.
      * eexists _, _. split; [reflexivity|]. split; [|discriminate].
        exists b. auto.
      * eexists _, _. split; [reflexivity|]. split; [|discriminate].
        exists b. auto.
  - eexists _, _. split; [reflexivity|]. split; [|discriminate]. exists b. auto.
  - eexists _, _. split; [reflexivity|]. split; [|discriminate]. exists b. auto.
Qed.

Lemma observe_single self now id from bs :
  single bs -> single (fst (observe self now id from bs)).
Proof.
  intros Hs. unfold observe. simpl.
  destruct (observe_once_single self now id from bs Hs) as (bs' & r & -> & Hs' & Hr).
  destruct r as [[|]|e]; simpl; try exact Hs'. congruence.
Qed.

Lemma observe_stores self now id from b :
  whole b -> is_id id ->
  fst (Bucket.add (Bucket.Observed id from) now b) = true ->
  observe self now id from [SBucket b]
  = ([SBucket (snd (Bucket.add (Bucket.Observed id from) now b))], Ok tt).
Proof.
  intros Hw Hid Hadd. unfold observe, observe_loop, observe_once. simpl.
  rewrite (contains_whole b id Hw Hid). simpl.
  destruct (Bucket.add (Bucket.Observed id from) now b) as [added b1].
  simpl in Hadd. subst added. reflexivity.
Qed.

End TableFacts.

(** ** The handlers and the store *)

Section HandlerFacts.
Context `{BufferToString}.
Import Table Handlers.

Ltac js :=
  unfold processPing, processFindNode, processGetPeers, respond;
  unfold mbind, mret, Js_bind, Js_ret, throw, tell, lift, get_store,
    set_buckets, set_peers;
  cbn beta iota.

(** With no list in the peer store, [processAnnouncePeer] returns at its
    guard or throws at [peers.some]; either way it changes nothing and
    says nothing. *)
Lemma processAnnouncePeer_absent self now m from st :
  peers st = ∅ ->
  exists r, processAnnouncePeer self now m from st = (st, [], r).
Proof.
  intros Hp. unfold processAnnouncePeer.
  destruct (field (Wire.a m) "token") as [[tok| | |]|];
    try (eexists; reflexivity).
  destruct (field (Wire.a m) "info_hash") as [[ih| | |]|];
    try (eexists; reflexivity).
  destruct (negb (verifyToken tok) || negb (length ih =? 20)%nat);
    [eexists; reflexivity|].
  js. rewrite Hp, lookup_empty. eexists; reflexivity.
Qed.

Lemma processPing_store self m from st :
  fst (fst (processPing self m from st)) = st.
Proof. reflexivity. Qed.

Lemma processFindNode_store self id m from st :
  fst (fst (processFindNode self id m from st)) = st.
Proof. js. destruct (findKClosest id (buckets st)); reflexivity. Qed.

Lemma processGetPeers_store self m from st :
  fst (fst (processGetPeers self m from st)) = st.
Proof.
  unfold processGetPeers.
  destruct (field (Wire.a m) "info_hash") as [[ih| | |]|]; try reflexivity.
  destruct (negb (length ih =? 20)%nat); [reflexivity|].
  js. destruct (peers st !! hex ih); [reflexivity|].
  destruct (findKClosest ih (buckets st)); reflexivity.
Qed.

(** [processRequest] keeps the table a single bucket and the peer store
    empty. *)
Lemma processRequest_store self now type m from st :
  single (buckets st) -> peers st = ∅ ->
  let st' := fst (fst (processRequest self now type m from st)) in
  single (buckets st') /\ peers st' = ∅.
Proof.
  intros Hs Hp. unfold processRequest.
  destruct (negb (truthy (Wire.a m))); [simpl; auto|].
  destruct (field (Wire.a m) "id") as [[id| | |]|]; try (simpl; auto; fail).
  destruct (negb (length id =? 20)%nat); [simpl; auto|].
  unfold mbind, mret, Js_bind, Js_ret, get_store, set_buckets, lift.
  cbn beta iota.
  pose proof (observe_single self now id from (buckets st) Hs) as Hs'.
  destruct (observe self now id from (buckets st)) as [bs r]. simpl in Hs'.
  cbn beta iota.
  destruct r as [[]|e]; [|simpl; auto].
  set (st1 := {| buckets := bs; peers := peers st |}).
  assert (Hst1 : single (buckets st1) /\ peers st1 = ∅) by (simpl; auto).
  clearbody st1.
  match goal with
  | |- context [ (if String.eqb type "ping" then ?x else ?y) st1 ] =>
      set (h := (if String.eqb type "ping" then x else y) st1)
  end.
  assert (Hh : single (buckets (fst (fst h))) /\ peers (fst (fst h)) = ∅).
  { subst h.
    destruct (String.eqb type "ping"); [now rewrite processPing_store|].
    destruct (String.eqb type "find_node"); [now rewrite processFindNode_store|].
    destruct (String.eqb type "get_peers"); [now rewrite processGetPeers_store|].
    destruct (String.eqb type "announce_peer"); [|exact Hst1].
    destruct (processAnnouncePeer_absent self now m from st1 (proj2 Hst1)) as [r ->].
    exact Hst1. }
  destruct h as [[st2 out2] r2]. exact Hh.
Qed.

(** The handler that [processRequest] picks for a method name. *)
Definition handler (self : Buffer) (now : Z) (type : string) (id : Buffer)
    (m : msg) (from : rinfo) : Js unit :=
  if String.eqb type "ping" then processPing self m from
  else if String.eqb type "find_node" then processFindNode self id m from
  else if String.eqb type "get_peers" then processGetPeers self m from
  else if String.eqb type "announce_peer" then processAnnouncePeer self now m from
  else mret tt.

(** [processRequest] on a query with a 20-byte id: the routing loop, then,
    unless the loop threw, the handler on the updated store. *)
Lemma processRequest_valid self now type m from st id :
  truthy (Wire.a m) = true ->
  field (Wire.a m) "id" = Some (BBuf id) ->
  length id = 20%nat ->
  processRequest self now type m from st
  = let '(bs, r) := observe self now id from (buckets st) in
    let st1 := {| buckets := bs; peers := peers st |} in
    match r with
    | Ok _ => handler self now type id m from st1
    | Throw e => (st1, [], Throw e)
    end.
Proof.
  intros Ha Hid Hlen. unfold processRequest. rewrite Ha, Hid, Hlen. simpl.
  unfold mbind, mret, Js_bind, Js_ret, get_store, set_buckets, lift.
  cbn beta iota.
  destruct (observe self now id from (buckets st)) as [bs [[]|e]]; [|reflexivity].
  cbn beta iota. unfold handler, mret, Js_ret.
  match goal with
  | |- context [ (if String.eqb type "ping" then ?x else ?y) ?s ] =>
      destruct ((if String.eqb type "ping" then x else y) s) as [[st2 out2] r2]
  end.
  reflexivity.
Qed.

End HandlerFacts.

(** ** The transaction registry *)

Section RegistryFacts.
Context `{BufferToString}.
Import Table Handlers Node.

Definition called (txn : nat) (e : effect) : bool :=
  match e with
  | Called t _ => Nat.eqb t txn
  | _ => false
  end.

(** How many times the continuation of [txn] has been called. *)
Definition calls (txn : nat) (tr : list effect) : nat :=
  length (List.filter (called txn) tr).

(** The registry between two events ([exc] empty), and in the middle of
    one ([exc] names the transaction being resolved, whose timer is gone
    while its entry may still sit in [queries]), as long as every
    continuation has returned:
    - an armed timer belongs to a transaction that was registered and
      has not been called;
    - an entry of [queries] names a transaction whose timer is armed, and
      which captured that very key;
    - no continuation was called twice, and none before its [request]. *)
Definition registry_ok (exc : nat -> string -> Prop) (n : t) : Prop :=
  (forall x k, timers n !! x = Some k ->
               (x < next_txn n)%nat /\ calls x (trace n) = 0%nat)
  /\ (forall k x, queries n !! k = Some x -> exc x k \/ timers n !! x = Some k)
  /\ (forall x, (calls x (trace n) <= 1)%nat)
  /\ (forall x, (next_txn n <= x)%nat -> calls x (trace n) = 0%nat).

Definition nobody : nat -> string -> Prop := fun _ _ => False.

(** What holds of the registry whatever the continuations do:
    - an armed timer belongs to a transaction that was registered and
      has not been called;
    - an entry of [queries] names a transaction that was registered;
    - no continuation was called before its [request]. *)
Definition timers_ok (n : t) : Prop :=
  (forall x k, timers n !! x = Some k ->
               (x < next_txn n)%nat /\ calls x (trace n) = 0%nat)
  /\ (forall k x, queries n !! k = Some x -> (x < next_txn n)%nat)
  /\ (forall x, (next_txn n <= x)%nat -> calls x (trace n) = 0%nat).

Lemma calls_app txn tr1 tr2 :
  calls txn (tr1 ++ tr2) = (calls txn tr1 + calls txn tr2)%nat.
Proof. unfold calls. now rewrite List.filter_app, length_app. Qed.

Lemma calls_out txn (out : list output) : calls txn (map Out out) = 0%nat.
Proof. induction out; [reflexivity | exact IHout]. Qed.

Lemma registry_create self p : registry_ok nobody (create self p).
Proof.
  unfold registry_ok, create; simpl.
  split; [|split; [|split]].
  - intros x k Hx. rewrite lookup_empty in Hx. discriminate.
  - intros k x Hx. rewrite lookup_empty in Hx. discriminate.
  - intros x. unfold calls; simpl; lia.
  - reflexivity.
Qed.

Lemma timers_create self p : timers_ok (create self p).
Proof.
  unfold timers_ok, create; simpl.
  split; [|split].
  - intros x k Hx. rewrite lookup_empty in Hx. discriminate.
  - intros k x Hx. rewrite lookup_empty in Hx. discriminate.
  - reflexivity.
Qed.

Lemma registry_ok_ext exc n n' :
  timers n' = timers n -> queries n' = queries n ->
  next_txn n' = next_txn n ->
  (forall x, calls x (trace n') = calls x (trace n)) ->
  registry_ok exc n -> registry_ok exc n'.
Proof.
  intros Ht Hq Hn Hc (P1 & P2 & P3 & P4). unfold registry_ok.
  rewrite Ht, Hq, Hn. split; [|split; [|split]].
  - intros x k Hx. rewrite Hc. now apply P1 in Hx.
  - exact P2.
  - intros x. rewrite Hc. apply P3.
  - intros x Hx. rewrite Hc. now apply P4.
Qed.

Lemma timers_ok_ext n n' :
  timers n' = timers n -> queries n' = queries n ->
  next_txn n' = next_txn n ->
  (forall x, calls x (trace n') = calls x (trace n)) ->
  timers_ok n -> timers_ok n'.
Proof.
  intros Ht Hq Hn Hc (P1 & P2 & P3). unfold timers_ok.
  rewrite Ht, Hq, Hn. split; [|split].
  - intros x k Hx. rewrite Hc. now apply P1 in Hx.
  - exact P2.
  - intros x Hx. rewrite Hc. now apply P3.
Qed.

Lemma log_out_registry exc (out : list output) n :
  registry_ok exc n -> registry_ok exc (log (map Out out) n).
Proof.
  apply registry_ok_ext; try reflexivity.
  intros x. simpl. rewrite calls_app, calls_out. lia.
Qed.

Lemma log_out_timers (out : list output) n :
  timers_ok n -> timers_ok (log (map Out out) n).
Proof.
  apply timers_ok_ext; try reflexivity.
  intros x. simpl. rewrite calls_app, calls_out. lia.
Qed.

Lemma calls_sent x tr to p : calls x (tr ++ [Out (Sent to p)]) = calls x tr.
Proof. rewrite calls_app. unfold calls at 2. simpl. lia. Qed.

Lemma request_registry exc c n :
  registry_ok exc n -> registry_ok exc (request c n).
Proof.
  intros (P1 & P2 & P3 & P4).
  unfold registry_ok, request; simpl.
  split; [|split; [|split]].
  - intros x k Hx. rewrite calls_sent.
    apply lookup_insert_Some in Hx as [[<- _] | [_ Hx]].
    + split; [lia | apply P4; lia].
    + apply P1 in Hx. split; [lia | apply Hx].
  - intros k x Hq. apply lookup_insert_Some in Hq as [[<- <-] | [Hne Hq]].
    + right. apply lookup_insert_eq.
    + destruct (P2 _ _ Hq) as [He | Ht]; [now left | right].
      rewrite lookup_insert_ne; [exact Ht|].
      apply P1 in Ht. lia.
  - intros x. rewrite calls_sent. apply P3.
  - intros x Hx. rewrite calls_sent. apply P4. lia.
Qed.

Lemma request_timers c n : timers_ok n -> timers_ok (request c n).
Proof.
  intros (P1 & P2 & P3).
  unfold timers_ok, request; simpl.
  split; [|split].
  - intros x k Hx. rewrite calls_sent.
    apply lookup_insert_Some in Hx as [[<- _] | [_ Hx]].
    + split; [lia | apply P3; lia].
    + apply P1 in Hx. split; [lia | apply Hx].
  - intros k x Hq. apply lookup_insert_Some in Hq as [[_ <-] | [_ Hq]]; [lia|].
    apply P2 in Hq. lia.
  - intros x Hx. rewrite calls_sent. apply P3. lia.
Qed.

(** [sendAnnouncePeer] and the contacts leave the registry to
    [request]. *)
Lemma sendAnnouncePeer_registry exc globals an n :
  registry_ok exc n -> registry_ok exc (fst (sendAnnouncePeer globals an n)).
Proof.
  intros Hn. unfold sendAnnouncePeer, send.
  destruct (Node.port n =? 0); [revert Hn; now apply registry_ok_ext|].
  destruct (resolve (send_scopes an) globals "id"); [|exact Hn].
  now apply request_registry.
Qed.

Lemma sendAnnouncePeer_timers globals an n :
  timers_ok n -> timers_ok (fst (sendAnnouncePeer globals an n)).
Proof.
  intros Hn. unfold sendAnnouncePeer, send.
  destruct (Node.port n =? 0); [revert Hn; now apply timers_ok_ext|].
  destruct (resolve (send_scopes an) globals "id"); [|exact Hn].
  now apply request_timers.
Qed.

Lemma touch_contact_registry i key u n :
  timers (touch_contact i key u n) = timers n
  /\ queries (touch_contact i key u n) = queries n
  /\ next_txn (touch_contact i key u n) = next_txn n
  /\ trace (touch_contact i key u n) = trace n.
Proof.
  unfold touch_contact.
  destruct (buckets (tables n) !! i) as [[b|l]|]; repeat split.
Qed.

Lemma act_registry exc a n : registry_ok exc n -> registry_ok exc (act n a).
Proof.
  intros Hn. destruct a as [c | globals an | i key u]; simpl.
  - now apply request_registry.
  - now apply sendAnnouncePeer_registry.
  - destruct (touch_contact_registry i key u n) as (Ht & Hq & Hx & Htr).
    revert Hn. apply registry_ok_ext; auto. intros x. now rewrite Htr.
Qed.

Lemma act_timers a n : timers_ok n -> timers_ok (act n a).
Proof.
  intros Hn. destruct a as [c | globals an | i key u]; simpl.
  - now apply request_timers.
  - now apply sendAnnouncePeer_timers.
  - destruct (touch_contact_registry i key u n) as (Ht & Hq & Hx & Htr).
    revert Hn. apply timers_ok_ext; auto. intros x. now rewrite Htr.
Qed.

Lemma acts_registry exc l n :
  registry_ok exc n -> registry_ok exc (foldl act n l).
Proof.
  revert n. induction l as [|a l IH]; intros n Hn; [exact Hn|].
  simpl. apply IH, act_registry, Hn.
Qed.

Lemma acts_timers l n : timers_ok n -> timers_ok (foldl act n l).
Proof.
  revert n. induction l as [|a l IH]; intros n Hn; [exact Hn|].
  simpl. apply IH, act_timers, Hn.
Qed.

Lemma calls_called x tr txn a :
  calls x (tr ++ [Called txn a]) = (calls x tr + if Nat.eqb txn x then 1 else 0)%nat.
Proof.
  rewrite calls_app. unfold calls at 2. simpl.
  destruct (Nat.eqb txn x); reflexivity.
Qed.

(** Resolving [txn], registered under [key] with its timer armed: the
    timer is disarmed and the continuation runs.  Afterwards only the
    entry of [txn] itself can be stale. *)
Lemma invoke_registry txn key a k n :
  registry_ok nobody n -> timers n !! txn = Some key ->
  registry_ok (fun x k' => x = txn /\ k' = key)
    (fst (invoke txn a k (with_queries (queries n) (delete txn (timers n)) n))).
Proof.
  intros (P1 & P2 & P3 & P4) Ht. unfold invoke. cbn [fst].
  apply acts_registry.
  unfold registry_ok, log, with_queries; simpl.
  destruct (P1 _ _ Ht) as [Hlt Hzero].
  split; [|split; [|split]].
  - intros x k' Hx. rewrite calls_called. apply lookup_delete_Some in Hx as [Hne Hx].
    apply P1 in Hx. destruct (Nat.eqb_spec txn x); [contradiction | lia].
  - intros k' x Hq. destruct (P2 _ _ Hq) as [[] | Hx].
    destruct (decide (x = txn)) as [-> | Hne].
    + left. split; [reflexivity | congruence].
    + right. rewrite lookup_delete_ne; [exact Hx | congruence].
  - intros x. rewrite calls_called. destruct (Nat.eqb_spec txn x); [subst; lia|].
    specialize (P3 x). lia.
  - intros x Hx. rewrite calls_called. destruct (Nat.eqb_spec txn x); [subst; lia|].
    rewrite P4 by exact Hx. reflexivity.
Qed.

(** Whatever the continuation does: a transaction that was registered is
    called with its timer gone. *)
Lemma invoke_timers txn a k n :
  timers_ok n -> (txn < next_txn n)%nat ->
  timers_ok (fst (invoke txn a k (with_queries (queries n) (delete txn (timers n)) n))).
Proof.
  intros (P1 & P2 & P3) Hlt. unfold invoke. cbn [fst].
  apply acts_timers.
  unfold timers_ok, log, with_queries; simpl.
  split; [|split].
  - intros x k' Hx. rewrite calls_called. apply lookup_delete_Some in Hx as [Hne Hx].
    apply P1 in Hx. destruct (Nat.eqb_spec txn x); [contradiction | lia].
  - exact P2.
  - intros x Hx. rewrite calls_called. destruct (Nat.eqb_spec txn x); [subst; lia|].
    rewrite P3 by exact Hx. reflexivity.
Qed.

(** Dropping the stale entry closes the event. *)
Lemma settle_registry txn key n :
  registry_ok (fun x k => x = txn /\ k = key) n ->
  registry_ok nobody (with_queries (delete key (queries n)) (timers n) n).
Proof.
  intros (P1 & P2 & P3 & P4). unfold registry_ok, with_queries; simpl.
  split; [exact P1 | split; [|split; [exact P3 | exact P4]]].
  intros k x Hq. apply lookup_delete_Some in Hq as [Hne Hq].
  destruct (P2 _ _ Hq) as [[_ ->] | Hx]; [contradiction | now right].
Qed.

Lemma settle_timers key n :
  timers_ok n -> timers_ok (with_queries (delete key (queries n)) (timers n) n).
Proof.
  intros (P1 & P2 & P3). unfold timers_ok, with_queries; simpl.
  split; [exact P1 | split; [|exact P3]].
  intros k x Hq. apply lookup_delete_Some in Hq as [_ Hq]. exact (P2 _ _ Hq).
Qed.

Lemma timeout_fires_registry txn k n :
  ends k = Returns ->
  registry_ok nobody n -> registry_ok nobody (timeout_fires txn k n).
Proof.
  intros Hk Hn. unfold timeout_fires.
  destruct (timers n !! txn) as [key|] eqn:Ht; [|exact Hn].
  pose proof (invoke_registry txn key TimedOut k n Hn Ht) as Hi.
  unfold invoke in *. rewrite Hk. cbn [fst] in Hi.
  case_decide as Hq; [now apply settle_registry with (txn := txn)|].
  destruct Hi as (P1 & P2 & P3 & P4).
  split; [exact P1 | split; [|split; [exact P3 | exact P4]]].
  intros k' x Hk'. destruct (P2 _ _ Hk') as [[-> ->] | Hx]; [contradiction | now right].
Qed.

Lemma timeout_fires_timers txn k n :
  timers_ok n -> timers_ok (timeout_fires txn k n).
Proof.
  intros Hn. unfold timeout_fires.
  destruct (timers n !! txn) as [key|] eqn:Ht; [|exact Hn].
  pose proof (invoke_timers txn TimedOut k n Hn (proj1 (proj1 Hn _ _ Ht))) as Hi.
  unfold invoke in *. cbn [fst] in Hi.
  destruct (ends k) as [|e].
  - case_decide; [now apply settle_timers | exact Hi].
  - revert Hi. apply timers_ok_ext; try reflexivity.
    intros x. simpl. rewrite calls_app. unfold calls at 2. simpl. lia.
Qed.

End RegistryFacts.

(** ** Every state a node can reach *)

Section NodeFacts.
Context `{BufferToString}.
Import Table Handlers Node.

(** The three facts that hold of a node whatever happens to it. *)
Definition node_ok (n : t) : Prop :=
  timers_ok n
  /\ single (buckets (tables n))
  /\ peers (tables n) = ∅.

Lemma judge_bucket_ok key v b : bucket_ok b -> bucket_ok (judge_bucket key v b).
Proof.
  intros (Hw & Hk & Hs). unfold judge_bucket.
  destruct (Obj.get key (Bucket.nodes b)) as [r|] eqn:Hg;
    [|exact (conj Hw (conj Hk Hs))].
  split; [exact Hw|]. split.
  - simpl. assert (Ek : key = toString (RemoteNode.id (judge v r))).
    { apply get_In in Hg. destruct Hk as [_ Hk].
      rewrite List.Forall_forall in Hk. specialize (Hk _ Hg). simpl in Hk.
      rewrite Hk. now destruct v. }
    rewrite Ek at 1. now apply keyed_set.
  - simpl. intros E. now apply set_not_nil in E.
Qed.

Lemma touch_bucket_ok key u b : bucket_ok b -> bucket_ok (touch_bucket key u b).
Proof.
  destruct u as [v | now]; [exact (judge_bucket_ok key v b)|].
  intros (Hw & Hk & Hs). unfold touch_bucket.
  destruct (Obj.get key (Bucket.nodes b)) as [r|] eqn:Hg;
    [|exact (conj Hw (conj Hk Hs))].
  split; [exact Hw|]. split.
  - simpl. assert (Ek : key = toString (RemoteNode.id (RemoteNode.schedulePing now r))).
    { apply get_In in Hg. destruct Hk as [_ Hk].
      rewrite List.Forall_forall in Hk. specialize (Hk _ Hg). exact Hk. }
    rewrite Ek at 1. now apply keyed_set.
  - simpl. intros E. now apply set_not_nil in E.
Qed.

Lemma touch_contact_single i key u n :
  single (buckets (tables n)) -> single (buckets (tables (touch_contact i key u n))).
Proof.
  intros Hs. unfold touch_contact.
  destruct (buckets (tables n) !! i) as [[b|l]|] eqn:Hi; try exact Hs.
  simpl. destruct Hs as (b0 & Hb0 & Hok). rewrite Hb0 in Hi |- *.
  destruct i as [|i]; [|discriminate]. simpl in Hi. injection Hi as <-.
  exists (touch_bucket key u b0). split; [reflexivity | now apply touch_bucket_ok].
Qed.

Lemma touch_contact_peers i key u n :
  peers (tables (touch_contact i key u n)) = peers (tables n).
Proof.
  unfold touch_contact. now destruct (buckets (tables n) !! i) as [[b|l]|].
Qed.

Lemma touch_contact_ok i key u n : node_ok n -> node_ok (touch_contact i key u n).
Proof.
  intros (Hr & Hs & Hp). split; [|split].
  - exact (act_timers (Touches i key u) n Hr).
  - now apply touch_contact_single.
  - now rewrite touch_contact_peers.
Qed.

Lemma judge_contact_ok i key v n : node_ok n -> node_ok (judge_contact i key v n).
Proof. exact (touch_contact_ok i key (Judged v) n). Qed.

Lemma request_ok c n : node_ok n -> node_ok (request c n).
Proof. intros (Hr & Hs). split; [now apply request_timers | exact Hs]. Qed.

Lemma send_ok globals an n : node_ok n -> node_ok (fst (send globals an n)).
Proof.
  intros Hn. unfold send.
  destruct (resolve (send_scopes an) globals "id"); [|exact Hn].
  now apply request_ok.
Qed.

Lemma with_listeners_ok ls n : node_ok n -> node_ok (with_listeners ls n).
Proof.
  intros (Hr & Hs). split; [revert Hr; now apply timers_ok_ext | exact Hs].
Qed.

Lemma sendAnnouncePeer_ok globals an n :
  node_ok n -> node_ok (fst (sendAnnouncePeer globals an n)).
Proof.
  intros Hn. unfold sendAnnouncePeer.
  destruct (Node.port n =? 0); [now apply with_listeners_ok | now apply send_ok].
Qed.

Lemma act_ok a n : node_ok n -> node_ok (act n a).
Proof.
  intros Hn. destruct a as [c | globals an | i key u]; simpl.
  - now apply request_ok.
  - now apply sendAnnouncePeer_ok.
  - now apply touch_contact_ok.
Qed.

Lemma acts_ok l n : node_ok n -> node_ok (foldl act n l).
Proof.
  revert n. induction l as [|a l IH]; intros n Hn; [exact Hn|].
  simpl. apply IH, act_ok, Hn.
Qed.

(** A continuation leaves the peer store alone, and the table a single
    bucket. *)
Lemma invoke_store txn a k n :
  single (buckets (tables n)) -> peers (tables n) = ∅ ->
  single (buckets (tables (fst (invoke txn a k n))))
  /\ peers (tables (fst (invoke txn a k n))) = ∅.
Proof.
  intros Hs Hp. unfold invoke. cbn [fst].
  generalize (log [Called txn a] n), (eq_refl : tables (log [Called txn a] n) = tables n).
  intros n0 E. rewrite <- E in Hs, Hp. clear E. revert n0 Hs Hp.
  induction (does k) as [|x l IH]; intros n0 Hs Hp; [now split|].
  simpl. apply IH; destruct x as [c | globals an | i key u]; simpl; auto.
  - unfold sendAnnouncePeer, send. destruct (Node.port n0 =? 0); [exact Hs|].
    now destruct (resolve (send_scopes an) globals "id").
  - now apply touch_contact_single.
  - unfold sendAnnouncePeer, send. destruct (Node.port n0 =? 0); [exact Hp|].
    now destruct (resolve (send_scopes an) globals "id").
  - now rewrite touch_contact_peers.
Qed.

Lemma timeout_fires_ok txn k n : node_ok n -> node_ok (timeout_fires txn k n).
Proof.
  intros (Hr & Hs & Hp). split; [now apply timeout_fires_timers|].
  unfold timeout_fires. destruct (timers n !! txn) as [key|]; [|now split].
  pose proof (invoke_store txn TimedOut k
                (with_queries (queries n) (delete txn (timers n)) n) Hs Hp) as Hi.
  destruct (invoke txn TimedOut k (with_queries (queries n) (delete txn (timers n)) n))
    as [n2 [[]|e]]; cbn [fst] in Hi; [|exact Hi].
  case_decide; exact Hi.
Qed.

Lemma onmessage_ok now decoded from k n :
  node_ok n -> node_ok (onmessage now decoded from k n).
Proof.
  intros (Hr & Hs & Hp). unfold onmessage.
  destruct decoded as [m | e].
  2:{ split; [exact (log_out_timers [Emitted (Error e)] n Hr) | auto]. }
  unfold dispatch. destruct (is_response m).
  - destruct (Wire.t m) as [tid|].
    2:{ split; [exact (log_out_timers [Emitted (Error TypeError)] n Hr) | auto]. }
    destruct (queries n !! hex tid) as [txn|] eqn:Hq; [|now split].
    pose proof (invoke_timers txn (Reply (Wire.r m) from) k n Hr
                  (proj1 (proj2 Hr) _ _ Hq)) as Ht.
    pose proof (invoke_store txn (Reply (Wire.r m) from) k
                  (with_queries (queries n) (delete txn (timers n)) n) Hs Hp) as Hi.
    destruct (invoke txn (Reply (Wire.r m) from) k
                (with_queries (queries n) (delete txn (timers n)) n))
      as [n2 [[]|e]]; cbn [fst] in Ht, Hi.
    + split; [now apply settle_timers | exact Hi].
    + split; [exact (log_out_timers [Emitted (Error e)] n2 Ht) | exact Hi].
  - destruct (Wire.q m) as [q|].
    2:{ split; [exact (log_out_timers [Emitted (Error TypeError)] n Hr) | auto]. }
    pose proof (processRequest_store (id n) now (toString q) m from (tables n) Hs Hp)
      as Hst.
    destruct (processRequest (id n) now (toString q) m from (tables n))
      as [[st out] r].
    simpl in Hst.
    assert (Hr' : timers_ok (log (map Out out) (with_tables st n))).
    { apply log_out_timers. revert Hr. now apply timers_ok_ext. }
    destruct r as [[]|e].
    + split; [exact Hr' | exact Hst].
    + split; [|exact Hst].
      exact (log_out_timers [Emitted (Error e)] _ Hr').
Qed.

Lemma run_listeners_ok globals ls n :
  node_ok n -> node_ok (fst (run_listeners globals ls n)).
Proof.
  revert n. induction ls as [|an ls IH]; intros n Hn; [exact Hn|].
  simpl. pose proof (send_ok globals an _ (with_listeners_ok ls n Hn)) as Hs.
  destruct (send globals an (with_listeners ls n)) as [n' [[]|e]]; simpl in Hs.
  - now apply IH.
  - exact Hs.
Qed.

Lemma step_ok n i : node_ok n -> node_ok (step n i).
Proof.
  intros Hn. destruct i as [c | now decoded from k | txn k | infohash i
                           | i key v | globals an | globals p]; simpl.
  - now apply request_ok.
  - now apply onmessage_ok.
  - now apply timeout_fires_ok.
  - unfold peer_expires. destruct Hn as (Hr & Hs & Hp).
    rewrite Hp, lookup_empty. now split.
  - now apply judge_contact_ok.
  - now apply sendAnnouncePeer_ok.
  - unfold listening. apply run_listeners_ok.
    destruct Hn as (Hr & Hs). split; [|exact Hs].
    apply (log_out_timers [Emitted Listening]).
    revert Hr. now apply timers_ok_ext.
Qed.

Lemma create_ok self p : node_ok (create self p).
Proof.
  split; [apply timers_create|]. split; [apply single_new | reflexivity].
Qed.

Lemma run_ok n inputs : node_ok n -> node_ok (run n inputs).
Proof.
  revert n. induction inputs as [|i inputs IH]; intros n Hn; [exact Hn|].
  simpl. apply IH, step_ok, Hn.
Qed.

End NodeFacts.

(** * The properties of the specification *)

(** ** Splitting a range *)

(** C3.  [split] does not compute the midpoint over all 160 bits: the bit
    shifted out of a 16-bit word is dropped instead of carried into the word
    below.  For the range from 0 to 2^144 - 1 (sixteen halvings below the
    whole space) the exact lower half would end at 2^143 - 1; the code
    returns the bounds 2^160 - 1 and 0, so the two new buckets are
    [0, 2^160 - 1] and [0, 2^144 - 1], and the identifier 0 lies in both. *)
Theorem split_drops_the_carry_between_words :
  let lo := repeat 0 20 in
  let hi := ([0; 0] ++ repeat 255 18)%list in
  let head := Bucket.new_range lo (repeat 255 20) in
  let tail := Bucket.new_range (repeat 0 20) hi in
  toZ lo < toZ hi
  /\ (toZ lo + toZ hi) / 2 = 2 ^ 143 - 1
  /\ split_bounds lo hi = Ok (repeat 255 20, repeat 0 20)
  /\ toZ (repeat 255 20) = 2 ^ 160 - 1
  /\ (forall (ts : BufferToString) (now : Z),
        Bucket.split now (Bucket.new_range lo hi) = Ok (head, tail))
  /\ Bucket.contains head (VBuffer (repeat 0 20)) = Ok true
  /\ Bucket.contains tail (VBuffer (repeat 0 20)) = Ok true.
Proof.
  cbv zeta. repeat split; try (vm_compute; reflexivity).
Qed.

(** The same happens as soon as one word of the sum is odd, already for
    the range from 0 to 65535, whose lower half would end at 32767. *)
Example split_bounds_of_one_word :
  split_bounds (repeat 0 20) (repeat 0 18 ++ [255; 255])%list
  = Ok (repeat 255 20, repeat 0 20).
Proof. reflexivity. Qed.

(** ** Inserting into a bucket *)

Section AddProperties.
Context `{BufferToString}.
Import Bucket.

(** Adding a contact whose key is present, with a slot left: the contact
    is replaced under its key, and a slot is used all the same. *)
Lemma add_present_key (id : Buffer) (target : rinfo) (now : Z) (b : t) :
  Obj.has (toString id) (nodes b) = true -> slots b <> 0 ->
  exists b', add (Observed id target) now b = (true, b')
             /\ Obj.keys (nodes b') = Obj.keys (nodes b)
             /\ slots b' = slots b - 1.
Proof.
  intros Hhas Hs. unfold add.
  replace (slots b =? 0) with false by (symmetry; now apply Z.eqb_neq).
  eexists. split; [reflexivity|]. simpl. split; [|reflexivity].
  now rewrite keys_set, Hhas.
Qed.

(** C5.  Inserting a contact that is already present is not free: [add]
    has no test for a known id, and takes a slot each time.  Eight
    observations of one and the same contact leave a fresh bucket with
    that single contact and no slot, and the ninth is refused as if the
    bucket held eight contacts. *)
Theorem add_counts_a_known_contact_again (id : Buffer) (target : rinfo) (now : Z) :
  let again := fun b => snd (add (Observed id target) now b) in
  let b8 := Nat.iter 8 again new in
  Obj.keys (nodes (again new)) = [toString id]
  /\ slots (again new) = K - 1
  /\ Obj.keys (nodes (again (again new))) = [toString id]
  /\ slots (again (again new)) = K - 2
  /\ Obj.keys (nodes b8) = [toString id]
  /\ slots b8 = 0
  /\ add (Observed id target) now b8 = (false, b8).
Proof.
  cbv zeta. unfold add, bad_keys, is_bad. simpl.
  repeat (progress (rewrite ?String.eqb_refl; simpl)).
  repeat split; reflexivity.
Qed.

End AddProperties.

(** ** The routing table of a node *)

Section TableProperties.
Context `{BufferToString}.
Import Table Handlers Node.

(** C1.  The table of a node is, after any sequence of events, the single
    bucket of the whole space: its range trivially covers the space
    without overlap, but the table is never split.  When the insert of a
    20-byte id is refused by that bucket, full of good contacts, [split]
    is called and throws [TypeError] at the first contact it relocates
    (it hands the property name, a string, to [Bucket.compare]); the
    [splice] is not reached, the bucket is not replaced by two halves,
    and the new contact is not stored. *)
Theorem full_home_bucket_is_never_replaced
    (self : Buffer) (p : Z) (inputs : list input)
    (now : Z) (id : Buffer) (from : rinfo) :
  let bs := buckets (tables (run (create self p) inputs)) in
  is_id self -> is_id id ->
  (exists b, bs = [SBucket b]
             /\ fst (Bucket.add (Bucket.Observed id from) now b) = false) ->
  (exists b, bs = [SBucket b] /\ whole b
             /\ forall x, is_id x -> Bucket.contains b (VBuffer x) = Ok true)
  /\ observe self now id from bs = (bs, Throw TypeError).
Proof.
  cbv zeta. intros Hself Hid (b & Hbs & Hadd).
  destruct (run_ok (create self p) inputs (create_ok self p)) as (_ & Hs & _).
  destruct Hs as (b0 & Hb0 & Hok). rewrite Hbs in Hb0. injection Hb0 as <-.
  split.
  { exists b. split; [exact Hbs|]. split; [apply Hok|].
    intros x Hx. apply contains_whole; [apply Hok | exact Hx]. }
  rewrite Hbs. unfold observe, observe_loop, observe_once. simpl.
  rewrite (contains_whole b id) by (try apply Hok; exact Hid). simpl.
  destruct (add_rejected _ _ _ Hadd) as (Hsame & Hslots & _).
  destruct (Bucket.add (Bucket.Observed id from) now b) as [added b1].
  simpl in Hadd, Hsame. subst added b1.
  rewrite (contains_whole b self) by (try apply Hok; exact Hself).
  rewrite (split_nonempty_throws now b); [reflexivity | apply Hok |].
  destruct Hok as (_ & _ & Hempty). intros E. apply Hempty in E.
  unfold K in E. lia.
Qed.

End TableProperties.

(** ** Runs of the code on concrete input

    Identifiers and method names below are written in ASCII, where the
    string of a Buffer is its bytes. *)

Module Runs.
Import Table Handlers Node.

Definition me : Buffer := repeat 200 20.
Definition id_a : Buffer := repeat 97 20.
Definition sender : rinfo := {| Rinfo.address := "10.0.0.7"; Rinfo.port := 6881 |}.

(** A query [{t: "01", y: "q", q: method, a: {id: from_id} + extra}]. *)
Definition query (method : Buffer) (from_id : Buffer)
    (extra : list (string * bval)) : msg :=
  {| Wire.t := Some [48; 49]; Wire.y := Some [113]; Wire.q := Some method;
     Wire.a := Some (BDict (("id", BBuf from_id) :: extra)); Wire.r := None |}.

Definition ping : Buffer := [112; 105; 110; 103].

Definition arrives (now : Z) (m : msg) : input := Datagram now (Ok m) sender idle.

(** Nine contacts, with the ids ["aaa...a"], ["bbb...b"], and so on. *)
Definition contact (k : Z) : Buffer := repeat (97 + k) 20.

(** A fresh node after a ping from each of the first eight contacts. *)
Definition eight_pings : list input :=
  map (fun k => arrives (1000 + k) (query ping (contact k) [])) [0; 1; 2; 3; 4; 5; 6; 7].

Definition after_eight_pings : Node.t :=
  run (H := ascii_toString) (create me 6881) eight_pings.

(** The keys and the free slots of each bucket of a table. *)
Definition occupancy (bs : list slot) : list (list string * Z) :=
  omap (fun s => match s with
                 | SBucket b => Some (Obj.keys (Bucket.nodes b), Bucket.slots b)
                 | SArray _ => None
                 end) bs.

(** The one bucket then holds the eight contacts and has no slot left. *)
Example eight_contacts_stored :
  occupancy (buckets (tables after_eight_pings))
  = [(map (fun k => toString (BufferToString := ascii_toString) (contact k))
          [0; 1; 2; 3; 4; 5; 6; 7], 0)].
Proof. vm_compute. reflexivity. Qed.

(** The ping of the ninth contact leaves the table as it was and ends in
    the ['error'] event. *)
Example ninth_ping_is_lost :
  let n := onmessage (H := ascii_toString) 2000 (Ok (query ping (contact 8) []))
                     sender idle after_eight_pings in
  tables n = tables after_eight_pings
  /\ trace n = (trace after_eight_pings ++ [Out (Emitted (Error TypeError))])%list.
Proof. split; vm_compute; reflexivity. Qed.

Lemma is_id_me : is_id me.
Proof. split; [reflexivity|]. unfold is_bytes, me. simpl. repeat constructor; lia. Qed.

Lemma is_id_a : is_id id_a.
Proof. split; [reflexivity|]. unfold is_bytes, id_a. simpl. repeat constructor; lia. Qed.

Lemma is_id_ninth : is_id (contact 8).
Proof. split; [reflexivity|]. unfold is_bytes, contact. simpl. repeat constructor; lia. Qed.

End Runs.

Lemma full_home_bucket_is_never_replaced_witness :
  let bs := Handlers.buckets (Node.tables Runs.after_eight_pings) in
  (exists b, bs = [Table.SBucket b] /\ whole b
             /\ forall x, is_id x -> Bucket.contains b (VBuffer x) = Ok true)
  /\ Table.observe (H := ascii_toString) Runs.me 2000 (Runs.contact 8) Runs.sender bs
     = (bs, Throw TypeError).
Proof.
  apply (full_home_bucket_is_never_replaced (H := ascii_toString)
           Runs.me 6881 Runs.eight_pings 2000 (Runs.contact 8) Runs.sender).
  - exact Runs.is_id_me.
  - exact Runs.is_id_ninth.
  - eexists. split; vm_compute; reflexivity.
Defined.

(** ** Closest contacts *)

Section ClosestProperties.
Context `{BufferToString}.
Import Table Handlers Node.

(** The XOR distance of two identifiers. *)
Definition distance (a b : Buffer) : Z := Z.lxor (toZ a) (toZ b).

Definition closer_or_equal (id : Buffer) (x y : RemoteNode.t) : Prop :=
  distance id (RemoteNode.id x) <= distance id (RemoteNode.id y).

Inductive ascending (id : Buffer) : list RemoteNode.t -> Prop :=
| ascending_nil : ascending id []
| ascending_one x : ascending id [x]
| ascending_cons x y l :
    closer_or_equal id x y -> ascending id (y :: l) -> ascending id (x :: y :: l).

(** What the specification asks of [kClosest] on one table and target. *)
Definition sorted_good_closest (id : Buffer) (bs : list slot) : Prop :=
  forall nodes, findKClosest id bs = Ok nodes ->
    Z.of_nat (length nodes) <= K
    /\ ascending id nodes
    /\ List.NoDup (map RemoteNode.id nodes)
    /\ Forall (fun x => RemoteNode.good x = true) nodes.

Lemma NoDup_take {A} (k : nat) (l : list A) : List.NoDup l -> List.NoDup (take k l).
Proof.
  intros Hnd. rewrite <- (take_drop k l) in Hnd.
  now apply List.NoDup_app_remove_r in Hnd.
Qed.

Lemma keyed_ids (o : list (string * RemoteNode.t)) :
  keyed o -> List.NoDup (map RemoteNode.id (map snd o)).
Proof.
  intros [Hnd Hk]. apply (List.NoDup_map_inv toString).
  replace (map toString (map RemoteNode.id (map snd o))) with (Obj.keys o);
    [exact Hnd|].
  unfold Obj.keys. rewrite !List.map_map. apply List.map_ext_in.
  intros x Hx. rewrite List.Forall_forall in Hk. now apply Hk.
Qed.

(** C4, as the code has it.  On every table a node can reach and for
    every 20-byte target, [findKClosest] returns, and returns at most
    [K] contacts with no contact twice: the first [K] contacts of the
    bucket, in the order their keys were inserted.  They are neither
    sorted by distance nor filtered by [good]. *)
Theorem findKClosest_returns_first_K_of_bucket
    (self : Buffer) (p : Z) (inputs : list input) (id : Buffer) :
  is_id id ->
  (forall bs nodes, findKClosest id bs = Ok nodes -> Z.of_nat (length nodes) <= K)
  /\ exists b nodes,
       buckets (tables (run (create self p) inputs)) = [SBucket b]
       /\ findKClosest id [SBucket b] = Ok nodes
       /\ nodes = take 8 (map snd (Bucket.nodes b))
       /\ List.NoDup (map RemoteNode.id nodes).
Proof.
  intros Hid. split.
  { intros bs nodes. unfold findKClosest.
    destruct (filter_contains bs id 0) as [[|[i b] found]|]; simpl; try discriminate.
    match goal with
    | |- context [ mbind _ ?x ] => destruct x as [l|]; simpl; [|discriminate]
    end.
    intros [= <-]. rewrite length_take. unfold K. lia. }
  destruct (run_ok (create self p) inputs (create_ok self p)) as (_ & Hs & _).
  destruct Hs as (b & Hbs & Hw & Hk & _).
  exists b, (take 8 (map snd (Bucket.nodes b))).
  split; [exact Hbs|]. split; [|split; [reflexivity|]].
  - unfold findKClosest. simpl.
    rewrite (contains_whole b id Hw Hid). simpl.
    unfold Bucket.getNodes. rewrite (values_NoDup _ (proj1 Hk)).
    destruct (Z.of_nat (length (map snd (Bucket.nodes b))) <? K); reflexivity.
  - rewrite <- firstn_map. apply NoDup_take, keyed_ids, Hk.
Qed.

End ClosestProperties.

Module ClosestRuns.
Import Table Handlers Node Runs.

Definition far : Buffer := (122 :: repeat 97 19)%list.
Definition near : Buffer := (repeat 97 19 ++ [98])%list.
Definition far_key : string := toString (BufferToString := ascii_toString) far.

(** Two contacts ping, the farther one first; its own pings then time
    out three times. *)
Definition two_contacts : Node.t :=
  run (H := ascii_toString) (create me 6881)
      [arrives 1000 (query ping far []); arrives 2000 (query ping near []);
       Liveness 0 far_key Curse; Liveness 0 far_key Curse; Liveness 0 far_key Curse].

(** The lookup for [id_a] on that node: the far contact, which is bad,
    comes before the near one. *)
Example two_contacts_closest :
  exists c_far c_near,
    findKClosest id_a (buckets (tables two_contacts)) = Ok [c_far; c_near]
    /\ RemoteNode.id c_far = far /\ RemoteNode.good c_far = false
    /\ RemoteNode.id c_near = near
    /\ distance id_a far = 27 * 2 ^ 152 /\ distance id_a near = 3.
Proof. eexists _, _. repeat split; vm_compute; reflexivity. Qed.

End ClosestRuns.

(** C4, as stated, fails: with the target [id_a], the lookup returns the
    contact at distance 27 * 2^152 before the one at distance 3, and the
    first of them has [good = false]. *)
Lemma findKClosest_unsorted_and_bad :
  ~ sorted_good_closest Runs.id_a
      (Handlers.buckets (Node.tables ClosestRuns.two_contacts)).
Proof.
  intros Hc.
  destruct (Hc _ ltac:(vm_compute; reflexivity)) as (_ & _ & _ & Hgood).
  apply List.Forall_cons_iff in Hgood as [Hgood _].
  vm_compute in Hgood. discriminate Hgood.
Qed.

Lemma findKClosest_returns_first_K_of_bucket_witness :
  (forall bs nodes,
     Table.findKClosest Runs.id_a bs = Ok nodes -> Z.of_nat (length nodes) <= K)
  /\ exists b nodes,
       Handlers.buckets (Node.tables ClosestRuns.two_contacts) = [Table.SBucket b]
       /\ Table.findKClosest Runs.id_a [Table.SBucket b] = Ok nodes
       /\ nodes = take 8 (map snd (Bucket.nodes b))
       /\ List.NoDup (map RemoteNode.id nodes).
Proof.
  apply (findKClosest_returns_first_K_of_bucket (H := ascii_toString)).
  exact Runs.is_id_a.
Defined.

(** ** Tokens and the peer store *)

Section AnnounceProperties.
Context `{BufferToString}.
Import Table Handlers Node.

(** The reply [{t: msg.t, y: 'r', r: {id: self}}]. *)
Definition plain_reply (self : Buffer) (m : msg) (to : rinfo) : output :=
  Sent to (Response (Wire.t m) [("id", RBuf self)]).

Definition is_peer_new (o : output) : Prop :=
  exists infohash p, o = Emitted (PeerNew infohash p).

(** [processAnnouncePeer] past its guard, with a list for the infohash. *)
Lemma processAnnouncePeer_listed self now m from st tok ih ps :
  field (Wire.a m) "token" = Some (BBuf tok) ->
  field (Wire.a m) "info_hash" = Some (BBuf ih) ->
  length ih = 20%nat ->
  peers st !! hex ih = Some ps ->
  processAnnouncePeer self now m from st =
    match find_existing (Rinfo.address from) ps 0 with
    | Some i =>
        ({| buckets := buckets st;
            peers := <[hex ih := alter (renew now) i ps]> (peers st) |},
         [plain_reply self m from], Ok tt)
    | None =>
        let p := {| Wire.address := Rinfo.address from;
                    Wire.port := match field (Wire.a m) "port" with
                                 | Some (BInt n) => n
                                 | _ => Rinfo.port from
                                 end;
                    Wire.timeout := Some (now + peer_timeout) |} in
        ({| buckets := buckets st;
            peers := <[hex ih := (ps ++ [p])%list]> (peers st) |},
         [Emitted (PeerNew (hex ih) p); plain_reply self m from], Ok tt)
    end.
Proof.
  intros Htok Hih Hlen Hps. unfold processAnnouncePeer.
  rewrite Htok, Hih, Hlen. simpl.
  unfold mbind, mret, Js_bind, Js_ret, throw, tell, get_store, set_peers, respond.
  cbn beta iota. rewrite Hps.
  destruct (find_existing (Rinfo.address from) ps 0); reflexivity.
Qed.

(** The first record [peers.some] accepts is the first one with the
    sender's address, whatever its port. *)
Lemma find_existing_first address ps i0 :
  (exists p, In p ps /\ Wire.address p = address) ->
  exists i p, find_existing address ps i0 = Some (i0 + i)%nat
              /\ ps !! i = Some p /\ Wire.address p = address
              /\ (forall j q, (j < i)%nat -> ps !! j = Some q ->
                              Wire.address q <> address).
Proof.
  revert i0. induction ps as [|q ps IH]; intros i0 (p & Hin & Hp); [destruct Hin|].
  simpl. unfold same_peer. rewrite Z.eqb_refl. simpl.
  destruct (String.eqb (Wire.address q) address) eqn:E; simpl.
  - apply String.eqb_eq in E. exists 0%nat, q.
    rewrite Nat.add_0_r. repeat split; auto. intros j q' Hj. lia.
  - apply String.eqb_neq in E.
    destruct Hin as [-> | Hin]; [contradiction|].
    destruct (IH (S i0) (ex_intro _ p (conj Hin Hp))) as (i & p' & Hf & Hl & Ha & Hb).
    exists (S i), p'. rewrite Nat.add_succ_r. repeat split; auto.
    intros [|j] q' Hj Hq; simpl in Hq.
    + now injection Hq as <-.
    + apply (Hb j q'); [lia | exact Hq].
Qed.

(** C7.  An announce from an address that already has a record under the
    infohash renews the first such record (its expiry moves to one hour
    from now), appends nothing, emits no [peer:new], and is answered:
    the only output is the reply. *)
Theorem reannounce_renews_the_record self now m from st tok ih ps :
  field (Wire.a m) "token" = Some (BBuf tok) ->
  field (Wire.a m) "info_hash" = Some (BBuf ih) ->
  length ih = 20%nat ->
  peers st !! hex ih = Some ps ->
  (exists p, In p ps /\ Wire.address p = Rinfo.address from) ->
  exists i p st' out,
    processAnnouncePeer self now m from st = (st', out, Ok tt)
    /\ ps !! i = Some p /\ Wire.address p = Rinfo.address from
    /\ buckets st' = buckets st
    /\ peers st' = <[hex ih := <[i := renew now p]> ps]> (peers st)
    /\ length (<[i := renew now p]> ps) = length ps
    /\ Wire.timeout (renew now p) = Some (now + 60 * 60 * 1000)
    /\ out = [plain_reply self m from]
    /\ ~ Exists is_peer_new out.
Proof.
  intros Htok Hih Hlen Hps Hex.
  destruct (find_existing_first _ ps 0 Hex) as (i & p & Hf & Hl & Ha & _).
  rewrite (processAnnouncePeer_listed self now m from st tok ih ps) by assumption.
  rewrite Hf. simpl. exists i, p. eexists _, _. split; [reflexivity|].
  repeat split; auto.
  - simpl. f_equal. apply list_eq. intros j.
    destruct (decide (i = j)) as [<- | Hne].
    + rewrite list_lookup_alter_eq, Hl. simpl.
      rewrite list_lookup_insert_eq; [reflexivity|]. now apply lookup_lt_Some in Hl.
    + rewrite list_lookup_alter_ne, list_lookup_insert_ne by exact Hne. reflexivity.
  - apply length_insert.
  - intros He. apply List.Exists_cons in He as [(? & ? & [=]) | He].
    now apply List.Exists_nil in He.
Qed.

(** C6.  [verifyToken] accepts every token and looks at no address: an
    announce with any byte string as token, from any sender, passes the
    guard, and where the infohash has a list it is answered as a
    success. *)
Theorem any_token_is_accepted_from_any_address self now m from st tok ih ps :
  field (Wire.a m) "token" = Some (BBuf tok) ->
  field (Wire.a m) "info_hash" = Some (BBuf ih) ->
  length ih = 20%nat ->
  peers st !! hex ih = Some ps ->
  verifyToken tok = true
  /\ exists st' out,
       processAnnouncePeer self now m from st = (st', out, Ok tt)
       /\ In (plain_reply self m from) out.
Proof.
  intros Htok Hih Hlen Hps. split; [reflexivity|].
  rewrite (processAnnouncePeer_listed self now m from st tok ih ps) by assumption.
  destruct (find_existing (Rinfo.address from) ps 0); eexists _, _;
    (split; [reflexivity|]); simpl; auto.
Qed.

(** The whole of [processRequest] for such an announce: whatever the
    routing loop does, the peer store is left alone and there is no
    output. *)
Lemma processRequest_announce_unlisted self now m from st tok ih :
  field (Wire.a m) "token" = Some (BBuf tok) ->
  field (Wire.a m) "info_hash" = Some (BBuf ih) ->
  length ih = 20%nat ->
  peers st !! hex ih = None ->
  exists bs r, processRequest self now "announce_peer" m from st
               = ({| buckets := bs; peers := peers st |}, [], r).
Proof.
  intros Htok Hih Hlen Hps. unfold processRequest.
  destruct (negb (truthy (Wire.a m))); [destruct st; eexists _, _; reflexivity|].
  destruct (field (Wire.a m) "id") as [[id| | |]|];
    try (destruct st; eexists _, _; reflexivity).
  destruct (negb (length id =? 20)%nat); [destruct st; eexists _, _; reflexivity|].
  unfold mbind, mret, Js_bind, Js_ret, get_store, set_buckets, lift.
  cbn beta iota.
  destruct (observe self now id from (buckets st)) as [bs [[]|e]];
    [|eexists _, _; reflexivity].
  cbn beta iota. simpl String.eqb. cbn iota.
  unfold processAnnouncePeer. rewrite Htok, Hih, Hlen. simpl.
  unfold mbind, mret, Js_bind, Js_ret, throw, tell, get_store.
  cbn beta iota. simpl. rewrite Hps. eexists _, _. reflexivity.
Qed.

(** C9.  An announce with a byte-string token and a 20-byte infohash
    that has no list in the peer store throws [TypeError] at
    [peers.some]: the store is unchanged, nothing is emitted and nothing
    is sent.  Seen from [onmessage], the datagram leaves the peer store
    as it was and adds at most an ['error'] event to the history.  No
    event ever creates a list, so on a node this is so for every infohash
    and every announce. *)
Theorem announce_for_an_unlisted_infohash_throws self now m from st tok ih :
  field (Wire.a m) "token" = Some (BBuf tok) ->
  field (Wire.a m) "info_hash" = Some (BBuf ih) ->
  length ih = 20%nat ->
  peers st !! hex ih = None ->
  processAnnouncePeer self now m from st = (st, [], Throw TypeError)
  /\ (forall n q cs,
        is_response m = false -> Wire.q m = Some q ->
        toString q = "announce_peer" ->
        peers (tables n) !! hex ih = None ->
        let n' := onmessage now (Ok m) from cs n in
        peers (tables n') = peers (tables n)
        /\ (trace n' = trace n
            \/ exists e, trace n' = (trace n ++ [Out (Emitted (Error e))])%list))
  /\ (forall self' p inputs,
        let n := run (create self' p) inputs in
        peers (tables n) = ∅
        /\ processAnnouncePeer (id n) now m from (tables n)
           = (tables n, [], Throw TypeError)).
Proof.
  intros Htok Hih Hlen Hps.
  assert (G : forall self0 st0, peers st0 !! hex ih = None ->
              processAnnouncePeer self0 now m from st0 = (st0, [], Throw TypeError)).
  { intros self0 st0 Hnone. unfold processAnnouncePeer.
    rewrite Htok, Hih, Hlen. simpl.
    unfold mbind, mret, Js_bind, Js_ret, throw, tell, get_store.
    cbn beta iota. now rewrite Hnone. }
  split; [now apply G|]. split.
  - intros n q cs Hresp Hq Htype Hnone. cbv zeta.
    unfold onmessage, dispatch. rewrite Hresp, Hq, Htype.
    destruct (processRequest_announce_unlisted (id n) now m from (tables n) tok ih
                Htok Hih Hlen Hnone) as (bs & r & ->).
    destruct r as [[]|e]; simpl.
    + split; [reflexivity|]. left. apply app_nil_r.
    + split; [reflexivity|]. right. exists e. now rewrite app_nil_r.
  - intros self' p inputs n.
    destruct (run_ok (create self' p) inputs (create_ok self' p)) as (_ & _ & Hp).
    split; [exact Hp|]. apply G. fold n in Hp |- *. now rewrite Hp, lookup_empty.
Qed.

End AnnounceProperties.

(** ** Replies to refused queries *)

Section ReplyProperties.
Context `{BufferToString}.
Import Table Handlers Node.

Definition known_method (type : string) : bool :=
  String.eqb type "ping" || String.eqb type "find_node"
  || String.eqb type "get_peers" || String.eqb type "announce_peer".

(** The queries the responder turns down: a method it does not know, or
    an announce whose token is missing, is not a byte string, or is
    refused by [verifyToken]. *)
Definition refused (type : string) (m : msg) : Prop :=
  known_method type = false
  \/ (type = "announce_peer"
      /\ match field (Wire.a m) "token" with
         | Some (BBuf tok) => verifyToken tok = false
         | _ => True
         end).

(** The responder replies: some datagram is handed to the socket. *)
Definition answered (tr : list effect) : Prop :=
  exists to p, In (Out (Sent to p)) tr.

(** What a handler may put out for the query [m] from [from]: a datagram
    is a response [{t: msg.t, y: 'r', r: ...}] to the sender of the
    query, the only kind of message [respond] builds. *)
Definition reply_to (m : msg) (from : rinfo) (o : output) : Prop :=
  match o with
  | Sent to (Response t _) => to = from /\ t = Wire.t m
  | Sent _ (Query _ _ _) => False
  | Emitted _ => True
  end.

(** The handler of a refused query returns at once. *)
Lemma refused_handler self now type id m from st :
  refused type m -> handler self now type id m from st = (st, [], Ok tt).
Proof.
  intros [Hunknown | [-> Htok]]; unfold handler.
  - unfold known_method in Hunknown.
    destruct (String.eqb type "ping"); [discriminate|].
    destruct (String.eqb type "find_node"); [discriminate|].
    destruct (String.eqb type "get_peers"); [discriminate|].
    destruct (String.eqb type "announce_peer"); [discriminate|].
    reflexivity.
  - simpl. unfold processAnnouncePeer.
    destruct (field (Wire.a m) "token") as [[tok| | |]|]; try reflexivity.
    rewrite Htok. simpl.
    destruct (field (Wire.a m) "info_hash") as [[ih| | |]|]; reflexivity.
Qed.

(** Every datagram that [processRequest] hands to the socket is a
    response to the sender of the query. *)
Lemma processRequest_replies self now type m from st :
  Forall (reply_to m from) (snd (fst (processRequest self now type m from st))).
Proof.
  destruct (truthy (Wire.a m)) eqn:Ha;
    [|unfold processRequest; rewrite Ha; constructor].
  destruct (field (Wire.a m) "id") as [[id| | |]|] eqn:Hid;
    try (unfold processRequest; rewrite Ha, Hid; constructor).
  destruct (length id =? 20)%nat eqn:Hlen;
    [|unfold processRequest; rewrite Ha, Hid, Hlen; constructor].
  apply Nat.eqb_eq in Hlen.
  rewrite (processRequest_valid self now type m from st id Ha Hid Hlen).
  destruct (observe self now id from (buckets st)) as [bs [[]|e]]; [|constructor].
  set (st1 := {| buckets := bs; peers := peers st |}). clearbody st1.
  unfold handler.
  destruct (String.eqb type "ping"); [now repeat constructor|].
  destruct (String.eqb type "find_node").
  { unfold processFindNode, mbind, Js_bind, get_store, lift. cbn beta iota.
    destruct (findKClosest id (buckets st1)); now repeat constructor. }
  destruct (String.eqb type "get_peers").
  { unfold processGetPeers.
    destruct (field (Wire.a m) "info_hash") as [[ih| | |]|]; try constructor.
    destruct (negb (length ih =? 20)%nat); [constructor|].
    unfold mbind, Js_bind, get_store, lift. cbn beta iota.
    destruct (peers st1 !! hex ih) as [ps|]; [now repeat constructor|].
    destruct (findKClosest ih (buckets st1)); now repeat constructor. }
  destruct (String.eqb type "announce_peer"); [|constructor].
  unfold processAnnouncePeer.
  destruct (field (Wire.a m) "token") as [[tok| | |]|]; try constructor.
  destruct (field (Wire.a m) "info_hash") as [[ih| | |]|]; try constructor.
  destruct (negb (verifyToken tok) || negb (length ih =? 20)%nat); [constructor|].
  unfold mbind, mret, Js_bind, Js_ret, throw, tell, get_store, set_peers.
  cbn beta iota.
  destruct (peers st1 !! hex ih) as [ps|]; [|constructor].
  destruct (find_existing (Rinfo.address from) ps 0); now repeat constructor.
Qed.

(** C8, as the code has it.  A refused query is dropped in silence:
    [processRequest] sends no datagram, neither a reply nor an error, and
    emits no event.  Its sender is observed all the same: when the query
    has a 20-byte [a.id], all that [processRequest] does is the routing
    loop on the sender, which stores the sender where the bucket has
    room.  And no query at all, refused or not, is answered with an
    error: every datagram of [processRequest] is a response, [y = 'r'],
    to the sender of the query. *)
Theorem refused_queries_get_no_reply self now type m from st :
  refused type m ->
  snd (fst (processRequest self now type m from st)) = []
  /\ (forall id,
        truthy (Wire.a m) = true -> field (Wire.a m) "id" = Some (BBuf id) ->
        length id = 20%nat ->
        processRequest self now type m from st
        = (let '(bs, r) := observe self now id from (buckets st) in
           ({| buckets := bs; peers := peers st |}, [], r)))
  /\ (forall id b,
        truthy (Wire.a m) = true -> field (Wire.a m) "id" = Some (BBuf id) ->
        is_id id ->
        buckets st = [SBucket b] -> whole b -> Bucket.slots b <> 0 ->
        exists b',
          processRequest self now type m from st
          = ({| buckets := [SBucket b']; peers := peers st |}, [], Ok tt)
          /\ Bucket.get (toString id) b' = Some (RemoteNode.new id from now))
  /\ (forall type' m' from' st',
        Forall (reply_to m' from')
               (snd (fst (processRequest self now type' m' from' st')))).
Proof.
  intros Href.
  assert (Hvalid : forall id,
            truthy (Wire.a m) = true -> field (Wire.a m) "id" = Some (BBuf id) ->
            length id = 20%nat ->
            processRequest self now type m from st
            = (let '(bs, r) := observe self now id from (buckets st) in
               ({| buckets := bs; peers := peers st |}, [], r))).
  { intros id Ha Hid Hlen.
    rewrite (processRequest_valid self now type m from st id Ha Hid Hlen).
    destruct (observe self now id from (buckets st)) as [bs [[]|e]]; [|reflexivity].
    now apply refused_handler. }
  split; [|split; [exact Hvalid|split]].
  - destruct (truthy (Wire.a m)) eqn:Ha;
      [|unfold processRequest; now rewrite Ha].
    destruct (field (Wire.a m) "id") as [[id| | |]|] eqn:Hid;
      try (unfold processRequest; now rewrite Ha, Hid).
    destruct (length id =? 20)%nat eqn:Hlen;
      [|unfold processRequest; now rewrite Ha, Hid, Hlen].
    apply Nat.eqb_eq in Hlen. rewrite (Hvalid id eq_refl eq_refl Hlen).
    now destruct (observe self now id from (buckets st)).
  - intros id b Ha Hid Hisid Hbs Hw Hs.
    pose proof (add_with_room id from now b Hs) as Hadd.
    exists (snd (Bucket.add (Bucket.Observed id from) now b)).
    split; [|rewrite Hadd; apply get_set_eq].
    rewrite (Hvalid id Ha Hid (proj1 Hisid)), Hbs.
    rewrite (observe_stores self now id from b Hw Hisid) by now rewrite Hadd.
    reflexivity.
  - intros type' m' from' st'. apply processRequest_replies.
Qed.

End ReplyProperties.

Module ReplyRuns.
Import Table Handlers Node Runs.

(** The method name ["vote"]. *)
Definition vote : Buffer := [118; 111; 116; 101].

Definition after_vote : Node.t :=
  onmessage (H := ascii_toString) 1000 (Ok (query vote id_a [])) sender idle
            (create me 6881).

End ReplyRuns.

(** C8, as stated, fails: a well-formed query with the unknown method
    ["vote"] reaches a fresh node, and nothing at all is sent back. *)
Lemma unknown_method_is_not_answered :
  ~ answered (Node.trace ReplyRuns.after_vote).
Proof.
  intros (to & p & Hin). vm_compute in Hin. exact Hin.
Qed.

Lemma refused_queries_get_no_reply_witness :
  let m := Runs.query ReplyRuns.vote Runs.id_a [] in
  let st := Node.tables (Node.create Runs.me 6881) in
  snd (fst (Handlers.processRequest (H := ascii_toString) Runs.me 1000 "vote" m
              Runs.sender st)) = []
  /\ (forall id,
        Wire.truthy (Wire.a m) = true ->
        Wire.field (Wire.a m) "id" = Some (Wire.BBuf id) ->
        length id = 20%nat ->
        Handlers.processRequest (H := ascii_toString) Runs.me 1000 "vote" m
          Runs.sender st
        = (let '(bs, r) := Table.observe (H := ascii_toString) Runs.me 1000 id
                             Runs.sender (Handlers.buckets st) in
           ({| Handlers.buckets := bs; Handlers.peers := Handlers.peers st |}, [], r)))
  /\ (forall id b,
        Wire.truthy (Wire.a m) = true ->
        Wire.field (Wire.a m) "id" = Some (Wire.BBuf id) ->
        is_id id ->
        Handlers.buckets st = [Table.SBucket b] -> whole b -> Bucket.slots b <> 0 ->
        exists b',
          Handlers.processRequest (H := ascii_toString) Runs.me 1000 "vote" m
            Runs.sender st
          = ({| Handlers.buckets := [Table.SBucket b'];
                Handlers.peers := Handlers.peers st |}, [], Ok tt)
          /\ Bucket.get (toString (BufferToString := ascii_toString) id) b'
             = Some (RemoteNode.new id Runs.sender 1000))
  /\ (forall type' m' from' st',
        Forall (reply_to m' from')
               (snd (fst (Handlers.processRequest (H := ascii_toString) Runs.me 1000
                            type' m' from' st')))).
Proof.
  apply (refused_queries_get_no_reply (H := ascii_toString)).
  left. reflexivity.
Defined.

(** ** Announcing to another node *)

Section SendProperties.
Context `{BufferToString}.
Import Table Handlers Node.

(** No scope around the body of [send] binds [id]: the read goes to the
    global object. *)
Lemma id_is_free globals an :
  Forall (fun scope => Obj.get "id" scope = None) (send_scopes an)
  /\ resolve (send_scopes an) globals "id"
     = match globals !! "id" with
       | Some v => Ok (Data v)
       | None => Throw ReferenceError
       end.
Proof. split; [repeat constructor | reflexivity]. Qed.

(** The datagrams handed to the socket so far. *)
Definition datagrams (tr : list effect) : list (rinfo * packet) :=
  omap (fun e => match e with Out (Sent to p) => Some (to, p) | _ => None end) tr.

Lemma run_listeners_throws globals ls n :
  globals !! "id" = None ->
  run_listeners globals ls n =
    match ls with
    | [] => (n, Ok tt)
    | _ :: rest => (with_listeners rest n, Throw ReferenceError)
    end.
Proof.
  intros Hid. destruct ls as [|an rest]; [reflexivity|].
  simpl. unfold send. rewrite (proj2 (id_is_free globals an)). now rewrite Hid.
Qed.

(** C10.  [send] reads [id], which none of its enclosing scopes binds.
    With no global [id] either, [sendAnnouncePeer] never hands a datagram
    to the socket.  On a bound socket it throws [ReferenceError] at once
    and leaves the node as it was; on an unbound one it only queues the
    call, and when ['listening'] is emitted the first queued call throws
    the same error, again before any datagram. *)
Theorem sendAnnouncePeer_never_sends globals an n :
  globals !! "id" = None ->
  Forall (fun scope => Obj.get "id" scope = None) (send_scopes an)
  /\ datagrams (trace (fst (sendAnnouncePeer globals an n))) = datagrams (trace n)
  /\ (Node.port n <> 0 -> sendAnnouncePeer globals an n = (n, Throw ReferenceError))
  /\ (Node.port n = 0 ->
      forall p,
        let queued := fst (sendAnnouncePeer globals an n) in
        once_listening queued = (once_listening n ++ [an])%list
        /\ snd (listening globals p queued) = Throw ReferenceError
        /\ datagrams (trace (fst (listening globals p queued))) = datagrams (trace n)).
Proof.
  intros Hid. split; [apply (id_is_free globals an)|].
  unfold sendAnnouncePeer, send. rewrite (proj2 (id_is_free globals an)), Hid.
  destruct (Node.port n =? 0) eqn:Hport.
  - apply Z.eqb_eq in Hport. split; [reflexivity|]. split; [contradiction|].
    intros _ p. cbv zeta. split; [reflexivity|].
    unfold listening. rewrite run_listeners_throws by exact Hid. simpl.
    destruct (once_listening n); simpl.
    + split; [reflexivity|]. unfold datagrams. rewrite omap_app. simpl.
      now rewrite app_nil_r.
    + split; [reflexivity|]. unfold datagrams. rewrite omap_app. simpl.
      now rewrite app_nil_r.
  - apply Z.eqb_neq in Hport. split; [reflexivity|]. split; [reflexivity|].
    contradiction.
Qed.

End SendProperties.

(** ** Transactions *)

Section TransactionProperties.
Context `{BufferToString}.
Import Table Handlers Node.

Lemma act_calls x a n : calls x (trace (act n a)) = calls x (trace n).
Proof.
  destruct a as [c | globals an | i key u]; simpl.
  - apply calls_sent.
  - unfold sendAnnouncePeer, send. destruct (Node.port n =? 0); [reflexivity|].
    destruct (resolve (send_scopes an) globals "id"); [|reflexivity].
    apply calls_sent.
  - now rewrite (proj2 (proj2 (proj2 (touch_contact_registry i key u n)))).
Qed.

Lemma acts_calls x l n : calls x (trace (foldl act n l)) = calls x (trace n).
Proof.
  revert n. induction l as [|a l IH]; intros n; [reflexivity|].
  simpl. now rewrite IH, act_calls.
Qed.

Lemma invoke_calls x txn a k n :
  calls x (trace (fst (invoke txn a k n)))
  = (calls x (trace n) + if Nat.eqb txn x then 1 else 0)%nat.
Proof. unfold invoke. cbn [fst]. rewrite acts_calls. apply calls_called. Qed.

(** What a continuation does never disarms a timer: it can only arm
    those of the requests it makes. *)
Lemma act_keeps_timers x key a n :
  (x < next_txn n)%nat -> timers n !! x = Some key ->
  (x < next_txn (act n a))%nat /\ timers (act n a) !! x = Some key.
Proof.
  intros Hlt Ht.
  assert (Hreq : forall c, (x < next_txn (request c n))%nat
                           /\ timers (request c n) !! x = Some key).
  { intros c. unfold request. simpl. split; [lia|].
    rewrite lookup_insert_ne by lia. exact Ht. }
  destruct a as [c | globals an | i key' u]; simpl.
  - apply Hreq.
  - unfold sendAnnouncePeer, send. destruct (Node.port n =? 0); [now split|].
    destruct (resolve (send_scopes an) globals "id"); [apply Hreq | now split].
  - destruct (touch_contact_registry i key' u n) as (E1 & _ & E2 & _).
    now rewrite E1, E2.
Qed.

Lemma acts_keep_timers x key l n :
  (x < next_txn n)%nat -> timers n !! x = Some key ->
  timers (foldl act n l) !! x = Some key.
Proof.
  revert n. induction l as [|a l IH]; intros n Hlt Ht; [exact Ht|].
  simpl. destruct (act_keeps_timers x key a n Hlt Ht) as [Hlt' Ht'].
  now apply IH.
Qed.

(** An event whose continuation, if it calls one, returns. *)
Definition returns (i : input) : Prop :=
  match i with
  | Datagram _ _ _ k | TimerFires _ k => ends k = Returns
  | _ => True
  end.

Lemma onmessage_registry now decoded from k n :
  ends k = Returns ->
  registry_ok nobody n -> registry_ok nobody (onmessage now decoded from k n).
Proof.
  intros Hk Hr. unfold onmessage.
  destruct decoded as [m | e];
    [|exact (log_out_registry nobody [Emitted (Error e)] n Hr)].
  unfold dispatch. destruct (is_response m).
  - destruct (Wire.t m) as [tid|];
      [|exact (log_out_registry nobody [Emitted (Error TypeError)] n Hr)].
    destruct (queries n !! hex tid) as [txn|] eqn:Hq; [|exact Hr].
    assert (Ht : timers n !! txn = Some (hex tid)).
    { destruct Hr as (_ & P2 & _). destruct (P2 _ _ Hq) as [[] | Ht]. exact Ht. }
    pose proof (invoke_registry txn (hex tid) (Reply (Wire.r m) from) k n Hr Ht) as Hi.
    unfold invoke in *. rewrite Hk. cbn [fst] in Hi.
    now apply settle_registry with (txn := txn).
  - destruct (Wire.q m) as [q|];
      [|exact (log_out_registry nobody [Emitted (Error TypeError)] n Hr)].
    destruct (processRequest (id n) now (toString q) m from (tables n))
      as [[st out] r].
    assert (Hr' : registry_ok nobody (log (map Out out) (with_tables st n))).
    { apply log_out_registry. revert Hr. now apply registry_ok_ext. }
    destruct r as [[]|e]; [exact Hr'|].
    exact (log_out_registry nobody [Emitted (Error e)] _ Hr').
Qed.

Lemma run_listeners_registry globals ls n :
  registry_ok nobody n -> registry_ok nobody (fst (run_listeners globals ls n)).
Proof.
  revert n. induction ls as [|an ls IH]; intros n Hn; [exact Hn|].
  simpl.
  assert (Hs : registry_ok nobody (fst (send globals an (with_listeners ls n)))).
  { unfold send. destruct (resolve (send_scopes an) globals "id").
    - apply request_registry. revert Hn. now apply registry_ok_ext.
    - revert Hn. now apply registry_ok_ext. }
  destruct (send globals an (with_listeners ls n)) as [n' [[]|e]]; simpl in Hs.
  - now apply IH.
  - exact Hs.
Qed.

Lemma step_registry n i :
  returns i -> registry_ok nobody n -> registry_ok nobody (step n i).
Proof.
  intros Hi Hn. destruct i as [c | now decoded from k | txn k | infohash i
                              | i key v | globals an | globals p]; simpl in *.
  - now apply request_registry.
  - now apply onmessage_registry.
  - now apply timeout_fires_registry.
  - unfold peer_expires.
    destruct (peers (tables n) !! infohash) as [ps|]; [|exact Hn].
    destruct (ps !! i) as [pr|]; [|exact Hn].
    destruct (Wire.timeout pr); [|exact Hn].
    match goal with
    | |- registry_ok _ (log [Out ?o] _) => apply (log_out_registry nobody [o])
    end.
    revert Hn. now apply registry_ok_ext.
  - exact (act_registry nobody (Touches i key (Judged v)) n Hn).
  - now apply sendAnnouncePeer_registry.
  - unfold listening. apply run_listeners_registry.
    apply (log_out_registry nobody [Emitted Listening]).
    revert Hn. now apply registry_ok_ext.
Qed.

Lemma run_registry n inputs :
  Forall returns inputs -> registry_ok nobody n -> registry_ok nobody (run n inputs).
Proof.
  intros Hall. revert n. induction Hall as [|i inputs Hi _ IH]; intros n Hn; [exact Hn|].
  simpl. apply IH, step_registry; assumption.
Qed.

(** C2, as the code has it.  As long as the continuations that are
    called return, whatever requests are made, datagrams arrive and
    timers fire, in whatever order and with whatever transaction ids
    (equal ids included), the continuation of a transaction has been
    called at most once.
    - [request] registers the transaction under its id, over whatever
      was registered there, and arms its timer.
    - As long as its timer is armed the timer calls it, and while it is
      the entry a response finds, the response calls it.
    - Once it has been called the transaction is gone from [queries] and
      its timer is disarmed: its timer does nothing any more, and a
      response with an id that is not registered is ignored.
    - A response whose id is registered to another transaction (a later
      request that drew the same id) does not call it and leaves its
      timer armed: such a transaction is called by its time-out only. *)
Theorem continuation_is_called_at_most_once self p inputs txn :
  Forall returns inputs ->
  let n := run (create self p) inputs in
  (calls txn (trace n) <= 1)%nat
  /\ (forall c,
        queries (request c n) !! hex [rnd1 c; rnd2 c] = Some (next_txn n)
        /\ timers (request c n) !! next_txn n = Some (hex [rnd1 c; rnd2 c])
        /\ calls (next_txn n) (trace (request c n)) = 0%nat)
  /\ (forall key k, timers n !! txn = Some key ->
        calls txn (trace (timeout_fires txn k n)) = 1%nat)
  /\ (forall now m tid from k,
        is_response m = true -> Wire.t m = Some tid ->
        queries n !! hex tid = Some txn ->
        calls txn (trace (onmessage now (Ok m) from k n)) = 1%nat)
  /\ (calls txn (trace n) = 1%nat ->
      timers n !! txn = None
      /\ (forall key, queries n !! key <> Some txn)
      /\ (forall k, timeout_fires txn k n = n))
  /\ (forall now m tid from k,
        is_response m = true -> Wire.t m = Some tid ->
        queries n !! hex tid = None ->
        onmessage now (Ok m) from k n = n)
  /\ (forall now m tid from k other key,
        is_response m = true -> Wire.t m = Some tid ->
        queries n !! hex tid = Some other -> other <> txn ->
        timers n !! txn = Some key ->
        calls txn (trace (onmessage now (Ok m) from k n)) = 0%nat
        /\ timers (onmessage now (Ok m) from k n) !! txn = Some key).
Proof.
  intros Hall n.
  destruct (run_registry (create self p) inputs Hall (registry_create self p))
    as (P1 & P2 & P3 & P4).
  fold n in P1, P2, P3, P4.
  split; [apply P3|]. split; [|split; [|split; [|split; [|split]]]].
  - intros c. unfold request. simpl. rewrite !lookup_insert_eq.
    split; [reflexivity|]. split; [reflexivity|].
    rewrite calls_sent. now apply P4.
  - intros key k Ht. unfold timeout_fires, invoke. rewrite Ht.
    assert (Hc : calls txn (trace (foldl act
                   (log [Called txn TimedOut]
                        (with_queries (queries n) (delete txn (timers n)) n))
                   (does k))) = 1%nat).
    { rewrite acts_calls. simpl. rewrite calls_called, Nat.eqb_refl.
      rewrite (proj2 (P1 _ _ Ht)). reflexivity. }
    destruct (ends k) as [|e].
    + case_decide; [simpl|]; exact Hc.
    + simpl. rewrite calls_app, Hc. reflexivity.
  - intros now m tid from k Hresp Htid Hq.
    unfold onmessage, dispatch, invoke. rewrite Hresp, Htid, Hq.
    destruct (P2 _ _ Hq) as [[] | Ht].
    assert (Hc : calls txn (trace (foldl act
                   (log [Called txn (Reply (Wire.r m) from)]
                        (with_queries (queries n) (delete txn (timers n)) n))
                   (does k))) = 1%nat).
    { rewrite acts_calls. simpl. rewrite calls_called, Nat.eqb_refl.
      rewrite (proj2 (P1 _ _ Ht)). reflexivity. }
    destruct (ends k) as [|e].
    + exact Hc.
    + simpl. rewrite calls_app, Hc. reflexivity.
  - intros Hone.
    assert (Ht : timers n !! txn = None).
    { destruct (timers n !! txn) as [key|] eqn:Ht; [|reflexivity].
      apply P1 in Ht. lia. }
    split; [exact Ht|]. split.
    + intros key Hq. destruct (P2 _ _ Hq) as [[] | Ht']. congruence.
    + intros k. unfold timeout_fires. now rewrite Ht.
  - intros now m tid from k Hresp Htid Hq.
    unfold onmessage, dispatch. now rewrite Hresp, Htid, Hq.
  - intros now m tid from k other key Hresp Htid Hq Hne Ht.
    destruct (P1 _ _ Ht) as [Hlt Hzero].
    unfold onmessage, dispatch, invoke. rewrite Hresp, Htid, Hq.
    assert (Hc : calls txn (trace (foldl act
                   (log [Called other (Reply (Wire.r m) from)]
                        (with_queries (queries n) (delete other (timers n)) n))
                   (does k))) = 0%nat).
    { rewrite acts_calls. simpl. rewrite calls_called, Hzero.
      now replace (Nat.eqb other txn) with false
        by (symmetry; now apply Nat.eqb_neq). }
    assert (Hk : timers (foldl act
                   (log [Called other (Reply (Wire.r m) from)]
                        (with_queries (queries n) (delete other (timers n)) n))
                   (does k)) !! txn = Some key).
    { apply acts_keep_timers; simpl; [exact Hlt|].
      rewrite lookup_delete_ne by exact Hne. exact Ht. }
    destruct (ends k) as [|e].
    + split; [exact Hc | exact Hk].
    + simpl. rewrite calls_app, Hc. split; [reflexivity | exact Hk].
Qed.

End TransactionProperties.

Module TransactionRuns.
Import Table Handlers Node Runs.

Definition ask (b1 b2 : Z) : call :=
  {| rnd1 := b1; rnd2 := b2; target := sender; type := "ping";
     args := [("id", Data (BBuf me))] |}.

Definition reply (tid : Buffer) : msg :=
  {| Wire.t := Some tid; Wire.y := Some [114]; Wire.q := None;
     Wire.a := None; Wire.r := Some (BDict [("id", BBuf id_a)]) |}.

(** Two requests draw the same transaction id [0x0707], and one response
    with that id arrives. *)
Definition collided : list input :=
  [DoRequest (ask 7 7); DoRequest (ask 7 7);
   Datagram 100 (Ok (reply [7; 7])) sender idle].

(** Then both timers are due and the response is delivered a second
    time. *)
Definition collision : Node.t :=
  run (H := ascii_toString) (create me 6881)
      (collided ++ [TimerFires 0 idle; TimerFires 1 idle;
                    Datagram 6000 (Ok (reply [7; 7])) sender idle])%list.

(** The response went to the second request, the timeout to the first,
    and nothing else was called. *)
Example collision_calls :
  List.filter (fun e => match e with Called _ _ => true | _ => false end)
              (trace collision)
  = [Called 1 (Reply (Some (BDict [("id", BBuf id_a)])) sender); Called 0 TimedOut].
Proof. vm_compute. reflexivity. Qed.

(** A continuation that does nothing to the node and throws. *)
Definition throwing : behaviour :=
  {| does := []; ends := Throws (Thrown "no reply expected") |}.

(** One request; the response arrives and the continuation throws; the
    same response arrives once more, as a datagram that the network
    duplicated does. *)
Definition answered_twice : Node.t :=
  run (H := ascii_toString) (create me 6881)
      [DoRequest (ask 7 7);
       Datagram 100 (Ok (reply [7; 7])) sender throwing;
       Datagram 101 (Ok (reply [7; 7])) sender idle].

End TransactionRuns.

(** C2, as stated, fails twice.  A continuation that throws when the
    response arrives is called again by the next response with that id:
    [onmessage] deletes the entry after the call, so not when the call
    throws.  And when two requests share an id, the response that
    arrives first is given to the later request: the earlier one is not
    called by it, and is called by its time-out afterwards. *)
Lemma continuation_called_twice_or_late :
  ~ (calls 0 (Node.trace TransactionRuns.answered_twice) <= 1)%nat
  /\ (let n := Node.run (H := ascii_toString) (Node.create Runs.me 6881)
                 TransactionRuns.collided in
      calls 0 (Node.trace n) = 0%nat
      /\ calls 1 (Node.trace n) = 1%nat
      /\ calls 0 (Node.trace (Node.timeout_fires 0 Node.idle n)) = 1%nat).
Proof.
  split; [|repeat split; vm_compute; reflexivity].
  vm_compute. intros Hle. apply le_S_n in Hle. inversion Hle.
Qed.

Lemma continuation_is_called_at_most_once_witness :
  let n := Node.run (H := ascii_toString) (Node.create Runs.me 6881)
             TransactionRuns.collided in
  (calls 0 (Node.trace n) <= 1)%nat
  /\ (forall c,
        Node.queries (Node.request c n) !! hex [Node.rnd1 c; Node.rnd2 c]
        = Some (Node.next_txn n)
        /\ Node.timers (Node.request c n) !! Node.next_txn n
           = Some (hex [Node.rnd1 c; Node.rnd2 c])
        /\ calls (Node.next_txn n) (Node.trace (Node.request c n)) = 0%nat)
  /\ (forall key k, Node.timers n !! 0%nat = Some key ->
        calls 0 (Node.trace (Node.timeout_fires 0 k n)) = 1%nat)
  /\ (forall now m tid from k,
        Node.is_response m = true -> Wire.t m = Some tid ->
        Node.queries n !! hex tid = Some 0%nat ->
        calls 0 (Node.trace (Node.onmessage (H := ascii_toString) now (Ok m) from k n))
        = 1%nat)
  /\ (calls 0 (Node.trace n) = 1%nat ->
      Node.timers n !! 0%nat = None
      /\ (forall key, Node.queries n !! key <> Some 0%nat)
      /\ (forall k, Node.timeout_fires 0 k n = n))
  /\ (forall now m tid from k,
        Node.is_response m = true -> Wire.t m = Some tid ->
        Node.queries n !! hex tid = None ->
        Node.onmessage (H := ascii_toString) now (Ok m) from k n = n)
  /\ (forall now m tid from k other key,
        Node.is_response m = true -> Wire.t m = Some tid ->
        Node.queries n !! hex tid = Some other -> other <> 0%nat ->
        Node.timers n !! 0%nat = Some key ->
        calls 0 (Node.trace (Node.onmessage (H := ascii_toString) now (Ok m) from k n))
        = 0%nat
        /\ Node.timers (Node.onmessage (H := ascii_toString) now (Ok m) from k n)
             !! 0%nat = Some key).
Proof.
  apply (continuation_is_called_at_most_once (H := ascii_toString) Runs.me 6881
           TransactionRuns.collided 0).
  repeat constructor.
Defined.

(** ** Announces, run on concrete input *)

Module AnnounceRuns.
Import Table Handlers Node Runs.

Definition announce_peer : Buffer :=
  [97; 110; 110; 111; 117; 110; 99; 101; 95; 112; 101; 101; 114].

Definition infohash : Buffer := repeat 1 20.

Definition announce_msg (token : Buffer) : msg :=
  query announce_peer id_a
        [("info_hash", BBuf infohash); ("token", BBuf token); ("port", BInt 51413)].

Definition known : peer :=
  {| Wire.address := "10.0.0.7"; Wire.port := 40000; Wire.timeout := Some 5000 |}.

(** A store that holds one record for the infohash. *)
Definition listed : store :=
  {| buckets := [SBucket Bucket.new]; peers := {[ hex infohash := [known] ]} |}.

Definition stranger : rinfo := {| Rinfo.address := "192.0.2.1"; Rinfo.port := 9 |}.

Definition waiting : announce :=
  {| an_target := stranger; an_token := BBuf [0; 0; 0; 0]; an_peer := BInt 51413;
     an_rnd1 := 3; an_rnd2 := 4 |}.

(** The announce reaches a fresh node: the only trace it leaves is the
    ['error'] event, and the contact it came from. *)
Example first_announce_is_lost :
  let n := onmessage (H := ascii_toString) 9000 (Ok (announce_msg [0; 0; 0; 0]))
                     sender idle (create me 6881) in
  trace n = [Out (Emitted (Error TypeError))] /\ peers (tables n) = ∅.
Proof. split; vm_compute; reflexivity. Qed.

End AnnounceRuns.

Lemma reannounce_renews_the_record_witness :
  exists i p st' out,
    Handlers.processAnnouncePeer Runs.me 9000
      (AnnounceRuns.announce_msg [0; 0; 0; 0]) Runs.sender AnnounceRuns.listed
    = (st', out, Ok tt)
    /\ [AnnounceRuns.known] !! i = Some p
    /\ Wire.address p = Rinfo.address Runs.sender
    /\ Handlers.buckets st' = Handlers.buckets AnnounceRuns.listed
    /\ Handlers.peers st'
       = <[hex AnnounceRuns.infohash := <[i := Handlers.renew 9000 p]> [AnnounceRuns.known]]>
           (Handlers.peers AnnounceRuns.listed)
    /\ length (<[i := Handlers.renew 9000 p]> [AnnounceRuns.known]) = length [AnnounceRuns.known]
    /\ Wire.timeout (Handlers.renew 9000 p) = Some (9000 + 60 * 60 * 1000)
    /\ out = [plain_reply Runs.me (AnnounceRuns.announce_msg [0; 0; 0; 0]) Runs.sender]
    /\ ~ Exists is_peer_new out.
Proof.
  apply (reannounce_renews_the_record Runs.me 9000
           (AnnounceRuns.announce_msg [0; 0; 0; 0]) Runs.sender AnnounceRuns.listed
           [0; 0; 0; 0] AnnounceRuns.infohash [AnnounceRuns.known]).
  - reflexivity.
  - reflexivity.
  - reflexivity.
  - vm_compute. reflexivity.
  - exists AnnounceRuns.known. split; [left; reflexivity | reflexivity].
Defined.

Lemma any_token_is_accepted_from_any_address_witness :
  Handlers.verifyToken [222; 173; 190; 239] = true
  /\ exists st' out,
       Handlers.processAnnouncePeer Runs.me 9000
         (AnnounceRuns.announce_msg [222; 173; 190; 239]) AnnounceRuns.stranger
         AnnounceRuns.listed
       = (st', out, Ok tt)
       /\ In (plain_reply Runs.me (AnnounceRuns.announce_msg [222; 173; 190; 239])
                AnnounceRuns.stranger) out.
Proof.
  apply (any_token_is_accepted_from_any_address Runs.me 9000
           (AnnounceRuns.announce_msg [222; 173; 190; 239]) AnnounceRuns.stranger
           AnnounceRuns.listed [222; 173; 190; 239] AnnounceRuns.infohash
           [AnnounceRuns.known]).
  - reflexivity.
  - reflexivity.
  - reflexivity.
  - vm_compute. reflexivity.
Defined.

Lemma announce_for_an_unlisted_infohash_throws_witness :
  let m := AnnounceRuns.announce_msg [0; 0; 0; 0] in
  Handlers.processAnnouncePeer Runs.me 9000 m Runs.sender
    (Node.tables (Node.create Runs.me 6881))
  = (Node.tables (Node.create Runs.me 6881), [], Throw TypeError)
  /\ (forall n q cs,
        Node.is_response m = false -> Wire.q m = Some q ->
        toString (BufferToString := ascii_toString) q = "announce_peer" ->
        Handlers.peers (Node.tables n) !! hex AnnounceRuns.infohash = None ->
        let n' := Node.onmessage (H := ascii_toString) 9000 (Ok m) Runs.sender cs n in
        Handlers.peers (Node.tables n') = Handlers.peers (Node.tables n)
        /\ (Node.trace n' = Node.trace n
            \/ exists e, Node.trace n'
                         = (Node.trace n ++ [Node.Out (Emitted (Error e))])%list))
  /\ (forall self' p inputs,
        let n := Node.run (H := ascii_toString) (Node.create self' p) inputs in
        Handlers.peers (Node.tables n) = ∅
        /\ Handlers.processAnnouncePeer (Node.id n) 9000 m Runs.sender (Node.tables n)
           = (Node.tables n, [], Throw TypeError)).
Proof.
  apply (announce_for_an_unlisted_infohash_throws (H := ascii_toString) Runs.me 9000
           (AnnounceRuns.announce_msg [0; 0; 0; 0]) Runs.sender
           (Node.tables (Node.create Runs.me 6881)) [0; 0; 0; 0] AnnounceRuns.infohash).
  - reflexivity.
  - reflexivity.
  - reflexivity.
  - vm_compute. reflexivity.
Defined.

Lemma sendAnnouncePeer_never_sends_witness :
  let n := Node.create Runs.me 6881 in
  Forall (fun scope => Obj.get "id" scope = None) (Node.send_scopes AnnounceRuns.waiting)
  /\ datagrams (Node.trace (fst (Node.sendAnnouncePeer ∅ AnnounceRuns.waiting n)))
     = datagrams (Node.trace n)
  /\ (Node.port n <> 0 ->
      Node.sendAnnouncePeer ∅ AnnounceRuns.waiting n = (n, Throw ReferenceError))
  /\ (Node.port n = 0 ->
      forall p,
        let queued := fst (Node.sendAnnouncePeer ∅ AnnounceRuns.waiting n) in
        Node.once_listening queued = (Node.once_listening n ++ [AnnounceRuns.waiting])%list
        /\ snd (Node.listening ∅ p queued) = Throw ReferenceError
        /\ datagrams (Node.trace (fst (Node.listening ∅ p queued)))
           = datagrams (Node.trace n)).
Proof.
  apply (sendAnnouncePeer_never_sends ∅ AnnounceRuns.waiting (Node.create Runs.me 6881)).
  vm_compute. reflexivity.
Defined.

(** * The order of identifiers *)

Section OrderFacts.

(** The 16-bit words of a buffer, most significant first. *)
Fixpoint words (b : Buffer) : list Z :=
  match b with
  | x :: y :: rest => (x * 256 + y) :: words rest
  | _ => []
  end.

(** Comparing word by word, the first difference deciding. *)
Fixpoint lex (u v : list Z) : Z :=
  match u, v with
  | x :: u', y :: v' =>
      if x =? y then lex u' v' else if x >? y then 1 else -1
  | _, _ => 0
  end.

(** The number a list of words denotes. *)
Fixpoint value (u : list Z) : Z :=
  match u with
  | [] => 0
  | x :: u' => x * 65536 ^ Z.of_nat (length u') + value u'
  end.

Definition is_words (u : list Z) : Prop := Forall (fun x => 0 <= x < 65536) u.

Lemma value_bound (u : list Z) :
  is_words u -> 0 <= value u < 65536 ^ Z.of_nat (length u).
Proof.
  induction 1 as [|x u Hx _ IH]; simpl length; simpl value; [simpl; lia|].
  rewrite Nat2Z.inj_succ, Z.pow_succ_r by lia.
  assert (0 < 65536 ^ Z.of_nat (length u)) by (apply Z.pow_pos_nonneg; lia).
  nia.
Qed.

Lemma lex_sgn (u v : list Z) :
  length u = length v -> is_words u -> is_words v ->
  lex u v = Z.sgn (value u - value v).
Proof.
  revert v. induction u as [|x u IH]; intros [|y v] Hlen Hu Hv;
    try discriminate; [reflexivity|].
  apply List.Forall_cons_iff in Hu as [Hx Hu].
  apply List.Forall_cons_iff in Hv as [Hy Hv].
  injection Hlen as Hlen. simpl. rewrite <- Hlen.
  pose proof (value_bound u Hu) as Bu. pose proof (value_bound v Hv) as Bv.
  rewrite <- Hlen in Bv.
  set (P := 65536 ^ Z.of_nat (length u)) in *.
  destruct (x =? y) eqn:E.
  - apply Z.eqb_eq in E. subst y. rewrite (IH v Hlen Hu Hv). f_equal. lia.
  - apply Z.eqb_neq in E. destruct (x >? y) eqn:G.
    + rewrite Z.gtb_ltb in G. apply Z.ltb_lt in G.
      symmetry. apply Z.sgn_pos. nia.
    + rewrite Z.gtb_ltb in G. apply Z.ltb_ge in G.
      symmetry. apply Z.sgn_neg. nia.
Qed.

Lemma words_of_id (a : Buffer) :
  is_id a -> length (words a) = 10%nat /\ is_words (words a) /\ value (words a) = toZ a.
Proof.
  intros [Hlen Hb].
  do 20 (destruct a as [|? a]; [discriminate Hlen|]).
  destruct a; [|discriminate Hlen]. clear Hlen. unfold is_bytes in Hb.
  repeat match goal with
         | Hf : Forall _ (_ :: _) |- _ => apply List.Forall_cons_iff in Hf; destruct Hf
         end.
  split; [reflexivity|]. split.
  - unfold is_words. simpl. repeat constructor; lia.
  - unfold toZ. simpl.
    repeat match goal with
           | |- context [Z.of_nat ?n] =>
               let v := eval vm_compute in (Z.of_nat n) in
               change (Z.of_nat n) with v
           end.
    ring.
Qed.

(** The words of [a] and [b] at the offsets [offs] are [u] and [v]. *)
Fixpoint reads (a b : Buffer) (offs u v : list Z) : Prop :=
  match offs, u, v with
  | [], [], [] => True
  | i :: offs', x :: u', y :: v' =>
      readUInt16BE a i = Ok x /\ readUInt16BE b i = Ok y /\ reads a b offs' u' v'
  | _, _, _ => False
  end.

Lemma compare_at_lex (a b : Buffer) (offs u v : list Z) :
  reads a b offs u v -> compare_at offs (VBuffer a) (VBuffer b) = Ok (lex u v).
Proof.
  revert u v. induction offs as [|i offs IH]; intros [|x u] [|y v] Hr;
    try contradiction; [reflexivity|].
  destruct Hr as (Ha & Hb & Hr). simpl. rewrite Ha, Hb. simpl.
  destruct (x =? y); [now apply IH|]. now destruct (x >? y).
Qed.

Lemma compare_lex (a b : Buffer) :
  length a = 20%nat -> length b = 20%nat ->
  compare (VBuffer a) (VBuffer b) = Ok (lex (words a) (words b)).
Proof.
  intros Ha Hb.
  do 20 (destruct a as [|? a]; [discriminate Ha|]).
  destruct a; [|discriminate Ha].
  do 20 (destruct b as [|? b]; [discriminate Hb|]).
  destruct b; [|discriminate Hb].
  apply compare_at_lex. repeat split.
Qed.

Lemma compare_value (a b : Buffer) :
  is_id a -> is_id b ->
  compare (VBuffer a) (VBuffer b) = Ok (Z.sgn (value (words a) - value (words b))).
Proof.
  intros Ha Hb.
  destruct (words_of_id a Ha) as (La & Wa & _).
  destruct (words_of_id b Hb) as (Lb & Wb & _).
  rewrite (compare_lex a b (proj1 Ha) (proj1 Hb)).
  now rewrite (lex_sgn _ _ (eq_trans La (eq_sym Lb)) Wa Wb).
Qed.

(** X1.  On two 20-byte identifiers [Bucket.compare] is the order of the
    numbers they denote, most significant byte first: it returns -1, 0
    or 1 as the first is below, equal to or above the second.  It never
    throws on such input. *)
Theorem compare_is_the_numeric_order (a b : Buffer) :
  is_id a -> is_id b ->
  compare (VBuffer a) (VBuffer b) = Ok (Z.sgn (toZ a - toZ b)).
Proof.
  intros Ha Hb. rewrite (compare_value a b Ha Hb).
  now rewrite (proj2 (proj2 (words_of_id a Ha))), (proj2 (proj2 (words_of_id b Hb))).
Qed.

(** X2.  A bucket whose bounds are 20-byte identifiers contains a 20-byte
    identifier exactly when its number lies between the numbers of the
    bounds, both included. *)
Theorem contains_is_the_closed_interval (b : Bucket.t) (id : Buffer) :
  is_id (Bucket.start b) -> is_id (Bucket.end_ b) -> is_id id ->
  Bucket.contains b (VBuffer id)
  = Ok ((toZ (Bucket.start b) <=? toZ id) && (toZ id <=? toZ (Bucket.end_ b))).
Proof.
  intros Hs He Hid. unfold Bucket.contains.
  rewrite (compare_value _ _ Hs Hid). cbn [mbind result_bind].
  rewrite (compare_value _ _ Hid He).
  rewrite (proj2 (proj2 (words_of_id _ Hs))), (proj2 (proj2 (words_of_id _ He))),
          (proj2 (proj2 (words_of_id _ Hid))).
  destruct (Z.sgn (toZ (Bucket.start b) - toZ id) <=? 0) eqn:E1.
  - cbn [mbind result_bind]. f_equal.
    apply Z.leb_le in E1.
    replace (toZ (Bucket.start b) <=? toZ id) with true
      by (symmetry; apply Z.leb_le; lia).
    simpl. apply eq_true_iff_eq. rewrite !Z.leb_le. lia.
  - apply Z.leb_gt in E1.
    replace (toZ (Bucket.start b) <=? toZ id) with false
      by (symmetry; apply Z.leb_gt; lia).
    reflexivity.
Qed.

End OrderFacts.

(** * The contacts of a bucket *)

Section ObjMoreFacts.
Context {V : Type}.
Implicit Types (o : list (string * V)) (k : string) (v : V).


Lemma get_set_ne o k k' v : k <> k' -> Obj.get k' (Obj.set k v o) = Obj.get k' o.
Proof.
  intros Hne. induction o as [|[k0 v0] o IH]; simpl.
  - destruct (String.eqb k' k) eqn:E; [|reflexivity].
    apply String.eqb_eq in E. congruence.
  - destruct (String.eqb k k0) eqn:E; simpl.
    + apply String.eqb_eq in E. subst k0.
      destruct (String.eqb k' k) eqn:E'; [|reflexivity].
      apply String.eqb_eq in E'. congruence.
    + now rewrite IH.
Qed.

Lemma get_delete_ne o k k' : k <> k' -> Obj.get k' (Obj.delete k o) = Obj.get k' o.
Proof.
  intros Hne. induction o as [|[k0 v0] o IH]; simpl; [reflexivity|].
  destruct (String.eqb k k0) eqn:E; simpl.
  - apply String.eqb_eq in E. subst k0.
    destruct (String.eqb k' k) eqn:E'; [|reflexivity].
    apply String.eqb_eq in E'. congruence.
  - now rewrite IH.
Qed.

Lemma get_delete_eq o k : List.NoDup (Obj.keys o) -> Obj.get k (Obj.delete k o) = None.
Proof.
  induction o as [|[k0 v0] o IH]; simpl; [reflexivity|].
  intros Hnd. apply List.NoDup_cons_iff in Hnd as [Hni Hnd].
  destruct (String.eqb k k0) eqn:E; simpl.
  - apply String.eqb_eq in E. subst k0.
    destruct (Obj.get k o) eqn:G; [|reflexivity].
    apply get_In in G. exfalso. apply Hni. exact (List.in_map fst _ _ G).
  - rewrite E. now apply IH.
Qed.

Lemma has_keys o k : In k (Obj.keys o) -> Obj.has k o = true.
Proof.
  unfold Obj.has. intros Hin. destruct (Obj.get k o) eqn:G; [reflexivity|].
  now apply get_None_keys in G.
Qed.

Lemma length_set o k v :
  length (Obj.set k v o) = if Obj.has k o then length o else S (length o).
Proof.
  unfold Obj.has. induction o as [|[k' v'] o IH]; simpl; [reflexivity|].
  destruct (String.eqb k k'); simpl; [reflexivity|].
  rewrite IH. now destruct (Obj.get k o).
Qed.

Lemma length_delete o k :
  Obj.has k o = true -> S (length (Obj.delete k o)) = length o.
Proof.
  unfold Obj.has. induction o as [|[k' v'] o IH]; simpl; [discriminate|].
  destruct (String.eqb k k'); simpl; [reflexivity|].
  intros Hh. now rewrite IH.
Qed.

End ObjMoreFacts.

Section SortFacts.
Context {A : Type} (f : A -> Z).

Definition by_f (x y : A) : Z := f x - f y.

Lemma In_sort_insert (x z : A) (l : list A) :
  In z (sort_insert by_f x l) <-> z = x \/ In z l.
Proof.
  induction l as [|y l IH]; simpl; [intuition|].
  destruct (by_f x y <=? 0); simpl; [intuition|].
  rewrite IH. intuition.
Qed.

Lemma In_sort (z : A) (l : list A) : In z (sort by_f l) <-> In z l.
Proof.
  induction l as [|x l IH]; simpl; [reflexivity|].
  unfold sort in *. simpl. rewrite In_sort_insert, IH. intuition.
Qed.

(** The head of the sorted list is an element with the least [f]. *)
Lemma sort_head (l : list A) (h : A) (t : list A) :
  sort by_f l = h :: t -> In h l /\ forall x, In x l -> f h <= f x.
Proof.
  intros Hs. split; [apply In_sort; rewrite Hs; now left|].
  revert h t Hs. induction l as [|y l IH]; intros h t Hs x Hx; [destruct Hx|].
  unfold sort in Hs. simpl in Hs. fold (sort by_f l) in Hs.
  destruct (sort by_f l) as [|h' t'] eqn:E.
  - simpl in Hs. injection Hs as <- <-.
    destruct Hx as [<- | Hx]; [lia|].
    apply In_sort in Hx. rewrite E in Hx. destruct Hx.
  - simpl in Hs. specialize (IH h' t' eq_refl).
    destruct (by_f y h' <=? 0) eqn:C; injection Hs as <- <-.
    + apply Z.leb_le in C. unfold by_f in C.
      destruct Hx as [<- | Hx]; [lia|]. specialize (IH x Hx). lia.
    + apply Z.leb_gt in C. unfold by_f in C.
      destruct Hx as [<- | Hx]; [lia|]. exact (IH x Hx).
Qed.

End SortFacts.

Section BucketMoreFacts.
Context `{BufferToString}.
Import Bucket.


(** X3.  With a slot free, [add] of an observed contact succeeds: the
    contact can be read back under the string of its id, as a fresh good
    contact seen at the time of the call; every other key reads as
    before, one slot is used and the range is untouched. *)
Theorem add_stores_the_contact (id : Buffer) (target : rinfo) (now : Z) (b : t) :
  slots b <> 0 ->
  exists b',
    add (Observed id target) now b = (true, b')
    /\ get (toString id) b' = Some (RemoteNode.new id target now)
    /\ (forall key, key <> toString id -> get key b' = get key b)
    /\ slots b' = slots b - 1
    /\ start b' = start b /\ end_ b' = end_ b.
Proof.
  intros Hs. rewrite (add_with_room id target now b Hs).
  eexists. split; [reflexivity|]. unfold get. simpl.
  split; [apply get_set_eq|]. split; [|auto].
  intros key Hne. apply get_set_ne. congruence.
Qed.

(** X4.  [remove] of a key the bucket does not have changes nothing.
    [remove] of a stored key (keys being distinct) takes that contact out,
    frees one slot and leaves every other key as it was. *)
Theorem remove_frees_one_slot (key : string) (b : t) :
  List.NoDup (Obj.keys (nodes b)) ->
  (get key b = None -> remove key b = b)
  /\ (forall r, get key b = Some r ->
        get key (remove key b) = None
        /\ slots (remove key b) = slots b + 1
        /\ S (length (nodes (remove key b))) = length (nodes b)
        /\ forall other, other <> key -> get other (remove key b) = get other b).
Proof.
  intros Hnd. unfold remove, get, Obj.has. split.
  - intros ->. reflexivity.
  - intros r Hr. rewrite Hr. simpl. split; [now apply get_delete_eq|].
    split; [reflexivity|]. split.
    + apply length_delete. unfold Obj.has. now rewrite Hr.
    + intros other Hne. apply get_delete_ne. congruence.
Qed.

Lemma bad_keys_spec (b : t) (k : string) :
  In k (bad_keys b) <-> In k (Obj.keys (nodes b)) /\ is_bad b k = true.
Proof.
  unfold bad_keys.
  rewrite (In_sort (lastSeen_of b)). apply List.filter_In.
Qed.

(** X5.  With no slot left, [add] evicts the bad contact that was seen
    longest ago, and only a bad one: if some stored contact is bad, the
    call succeeds, the key it drops belongs to a contact that is not
    good and whose [lastSeen] is the least among the bad ones, the new
    contact is stored, and the bucket is full again. *)
Theorem add_evicts_the_oldest_bad_contact
    (id : Buffer) (target : rinfo) (now : Z) (b : t) (bad : string) :
  slots b = 0 ->
  In bad (Obj.keys (nodes b)) -> is_bad b bad = true ->
  exists oldest r b',
    add (Observed id target) now b = (true, b')
    /\ get oldest b = Some r /\ RemoteNode.good r = false
    /\ (forall k, In k (Obj.keys (nodes b)) -> is_bad b k = true ->
                  RemoteNode.lastSeen r <= lastSeen_of b k)
    /\ nodes b' = Obj.set (toString id) (RemoteNode.new id target now)
                          (Obj.delete oldest (nodes b))
    /\ slots b' = 0.
Proof.
  intros Hs Hin Hbad.
  destruct (bad_keys b) as [|oldest rest] eqn:E.
  { assert (Hb : In bad (bad_keys b)) by (apply bad_keys_spec; auto).
    rewrite E in Hb. destruct Hb. }
  assert (Ho : In oldest (bad_keys b)) by (rewrite E; now left).
  apply bad_keys_spec in Ho as [Hok Hob].
  pose proof (has_keys _ _ Hok) as Hhas.
  pose proof E as Hsort. unfold bad_keys in Hsort.
  apply (sort_head (lastSeen_of b)) in Hsort as [_ Hmin].
  assert (Hadd : add (Observed id target) now b
                 = (true, {| start := start b; end_ := end_ b; first := first b;
                             closed := closed b;
                             nodes := Obj.set (toString id) (RemoteNode.new id target now)
                                              (Obj.delete oldest (nodes b));
                             slots := 0 |})).
  { unfold add. rewrite Hs, E. cbn [Z.eqb]. unfold remove. rewrite Hhas, Hs.
    reflexivity. }
  unfold is_bad in Hob. unfold get.
  destruct (Obj.get oldest (nodes b)) as [r|] eqn:G.
  2:{ unfold Obj.has in Hhas. rewrite G in Hhas. discriminate. }
  exists oldest, r. eexists. split; [exact Hadd|].
  split; [exact G|]. split; [now destruct (RemoteNode.good r)|].
  split; [|split; reflexivity].
  intros k Hk Hkb.
  assert (E1 : RemoteNode.lastSeen r = lastSeen_of b oldest)
    by (unfold lastSeen_of; now rewrite G).
  rewrite E1. apply Hmin. apply List.filter_In. auto.
Qed.

End BucketMoreFacts.

(** * What a node keeps true of its bucket *)

Section ReachFacts.
Context `{BufferToString}.
Import Table Handlers Node.

(** How the bucket of a node can change: not at all, by an [add] of an
    observed 20-byte id that the bucket contains, or by a thank, a curse
    or a new ping timer of one contact.  One event makes a sequence of
    such moves. *)
Inductive moves (b : Bucket.t) : Bucket.t -> Prop :=
| moves_stay : moves b b
| moves_add id from now :
    length id = 20%nat -> Bucket.contains b (VBuffer id) = Ok true ->
    moves b (snd (Bucket.add (Bucket.Observed id from) now b))
| moves_touch key u : moves b (touch_bucket key u b).

Lemma moves_ok b b' : bucket_ok b -> moves b b' -> bucket_ok b'.
Proof.
  intros Hb [|id from now _ _|key u]; [exact Hb | now apply add_ok |].
  now apply touch_bucket_ok.
Qed.

Lemma observe_moves self now id from b :
  length id = 20%nat -> bucket_ok b ->
  exists b', fst (observe self now id from [SBucket b]) = [SBucket b'] /\ moves b b'.
Proof.
  intros Hlen Hb. unfold observe, observe_loop, observe_once. simpl.
  destruct (Bucket.contains b (VBuffer id)) as [[|]|e] eqn:Hc; simpl;
    try (exists b; split; [reflexivity | constructor]).
  pose proof (add_rejected (Bucket.Observed id from) now b) as Hrej.
  pose proof (moves_add b id from now Hlen Hc) as Hm.
  destruct (Bucket.add (Bucket.Observed id from) now b) as [added b1].
  simpl in Hrej, Hm. destruct added; simpl.
  - exists b1. split; [reflexivity | exact Hm].
  - destruct (Hrej eq_refl) as (-> & Hslots & _).
    assert (Hne : Bucket.nodes b <> []).
    { destruct Hb as (_ & _ & Hs). intros E. apply Hs in E. unfold K in E. lia. }
    destruct (Bucket.contains b (VBuffer self)) as [[|]|e]; simpl;
      try (exists b; split; [reflexivity | constructor]).
    rewrite (split_nonempty_throws now b) by (try apply Hb; exact Hne).
    exists b. split; [reflexivity | constructor].
Qed.

Lemma processRequest_moves self now type m from st b :
  buckets st = [SBucket b] -> bucket_ok b -> peers st = ∅ ->
  exists b', buckets (fst (fst (processRequest self now type m from st))) = [SBucket b']
             /\ moves b b'.
Proof.
  intros Hbs Hb Hp. unfold processRequest.
  destruct (negb (truthy (Wire.a m))); [exists b; split; [exact Hbs | constructor]|].
  destruct (field (Wire.a m) "id") as [[id| | |]|];
    try (exists b; split; [exact Hbs | constructor]).
  destruct (length id =? 20)%nat eqn:Hlen; simpl;
    [|exists b; split; [exact Hbs | constructor]].
  apply Nat.eqb_eq in Hlen.
  unfold mbind, mret, Js_bind, Js_ret, get_store, set_buckets, lift.
  cbn beta iota. rewrite Hbs.
  destruct (observe_moves self now id from b Hlen Hb) as (b' & Hobs & Hm).
  pose proof (observe_single self now id from [SBucket b]
                (ex_intro _ b (conj eq_refl Hb))) as Hs'.
  destruct (observe self now id from [SBucket b]) as [bs r].
  simpl in Hobs, Hs'. subst bs. cbn beta iota.
  destruct r as [[]|e]; [|exists b'; split; [reflexivity | exact Hm]].
  set (st1 := {| buckets := [SBucket b']; peers := peers st |}).
  match goal with
  | |- context [ (if String.eqb type "ping" then ?x else ?y) st1 ] =>
      set (h := (if String.eqb type "ping" then x else y) st1)
  end.
  assert (Hh : fst (fst h) = st1).
  { subst h.
    destruct (String.eqb type "ping"); [apply processPing_store|].
    destruct (String.eqb type "find_node"); [apply processFindNode_store|].
    destruct (String.eqb type "get_peers"); [apply processGetPeers_store|].
    destruct (String.eqb type "announce_peer"); [|reflexivity].
    destruct (processAnnouncePeer_absent self now m from st1 Hp) as [r ->].
    reflexivity. }
  destruct h as [[st2 out2] r2]. simpl in Hh. subst st2.
  exists b'. split; [reflexivity | exact Hm].
Qed.

Lemma send_tables globals an n : tables (fst (send globals an n)) = tables n.
Proof.
  unfold send. now destruct (resolve (send_scopes an) globals "id").
Qed.

Lemma run_listeners_tables globals ls n :
  tables (fst (run_listeners globals ls n)) = tables n.
Proof.
  revert n. induction ls as [|an ls IH]; intros n; [reflexivity|].
  simpl. pose proof (send_tables globals an (with_listeners ls n)) as Hs.
  destruct (send globals an (with_listeners ls n)) as [n' [[]|e]]; simpl in Hs.
  - now rewrite IH.
  - exact Hs.
Qed.

Lemma sendAnnouncePeer_tables globals an n :
  tables (fst (sendAnnouncePeer globals an n)) = tables n.
Proof.
  unfold sendAnnouncePeer. destruct (Node.port n =? 0); [reflexivity|].
  apply send_tables.
Qed.

Lemma touch_contact_moves i key u n b :
  buckets (tables n) = [SBucket b] ->
  exists b', buckets (tables (touch_contact i key u n)) = [SBucket b'] /\ moves b b'.
Proof.
  intros Hbs. unfold touch_contact. rewrite Hbs. destruct i as [|i]; simpl.
  - exists (touch_bucket key u b). split; [reflexivity | constructor].
  - exists b. split; [exact Hbs | constructor].
Qed.

Lemma act_moves a n b :
  buckets (tables n) = [SBucket b] ->
  exists b', buckets (tables (act n a)) = [SBucket b'] /\ moves b b'.
Proof.
  intros Hbs. destruct a as [c | globals an | i key u]; simpl.
  - exists b. split; [exact Hbs | constructor].
  - exists b. split; [|constructor]. now rewrite sendAnnouncePeer_tables.
  - now apply touch_contact_moves.
Qed.

Lemma acts_moves l n b :
  buckets (tables n) = [SBucket b] ->
  exists b', buckets (tables (foldl act n l)) = [SBucket b'] /\ rtc moves b b'.
Proof.
  revert n b. induction l as [|a l IH]; intros n b Hbs.
  - exists b. split; [exact Hbs | constructor].
  - simpl. destruct (act_moves a n b Hbs) as (b1 & Hb1 & Hm).
    destruct (IH (act n a) b1 Hb1) as (b2 & Hb2 & Hms).
    exists b2. split; [exact Hb2 | now apply rtc_l with b1].
Qed.

Lemma invoke_moves txn a k n b :
  buckets (tables n) = [SBucket b] ->
  exists b', buckets (tables (fst (invoke txn a k n))) = [SBucket b']
             /\ rtc moves b b'.
Proof. intros Hbs. unfold invoke. cbn [fst]. now apply acts_moves. Qed.

Lemma timeout_fires_moves txn k n b :
  buckets (tables n) = [SBucket b] ->
  exists b', buckets (tables (timeout_fires txn k n)) = [SBucket b']
             /\ rtc moves b b'.
Proof.
  intros Hbs. unfold timeout_fires.
  destruct (timers n !! txn) as [key|]; [|exists b; split; [exact Hbs | constructor]].
  destruct (invoke_moves txn TimedOut k
              (with_queries (queries n) (delete txn (timers n)) n) b Hbs)
    as (b' & Hb' & Hm).
  exists b'. split; [|exact Hm].
  destruct (invoke txn TimedOut k (with_queries (queries n) (delete txn (timers n)) n))
    as [n2 [[]|e]]; cbn [fst] in Hb'; [|exact Hb'].
  case_decide; exact Hb'.
Qed.

Lemma step_moves n i b :
  node_ok n -> buckets (tables n) = [SBucket b] ->
  exists b', buckets (tables (step n i)) = [SBucket b'] /\ rtc moves b b'.
Proof.
  intros (Hr & Hs & Hp) Hbs.
  assert (Hb : bucket_ok b).
  { destruct Hs as (b0 & Hb0 & Hok). rewrite Hbs in Hb0. now injection Hb0 as ->. }
  destruct i as [c | now decoded from k | txn k | infohash i
                | i key v | globals an | globals p]; simpl.
  - exists b. split; [exact Hbs | constructor].
  - unfold onmessage. destruct decoded as [m | e];
      [|exists b; split; [exact Hbs | constructor]].
    unfold dispatch. destruct (is_response m).
    + destruct (Wire.t m) as [tid|]; [|exists b; split; [exact Hbs | constructor]].
      destruct (queries n !! hex tid) as [txn|];
        [|exists b; split; [exact Hbs | constructor]].
      destruct (invoke_moves txn (Reply (Wire.r m) from) k
                  (with_queries (queries n) (delete txn (timers n)) n) b Hbs)
        as (b' & Hb' & Hm).
      exists b'. split; [|exact Hm].
      now destruct (invoke txn (Reply (Wire.r m) from) k
                      (with_queries (queries n) (delete txn (timers n)) n))
        as [n2 [[]|e]].
    + destruct (Wire.q m) as [q|]; [|exists b; split; [exact Hbs | constructor]].
      destruct (processRequest_moves (id n) now (toString q) m from (tables n) b
                  Hbs Hb Hp) as (b' & Hb' & Hm).
      destruct (processRequest (id n) now (toString q) m from (tables n))
        as [[st out] r].
      simpl in Hb'. exists b'. split; [|now apply rtc_once].
      now destruct r as [[]|e].
  - now apply timeout_fires_moves.
  - unfold peer_expires. rewrite Hp, lookup_empty.
    exists b. split; [exact Hbs | constructor].
  - destruct (touch_contact_moves i key (Judged v) n b Hbs) as (b' & Hb' & Hm).
    exists b'. split; [exact Hb' | now apply rtc_once].
  - exists b. split; [|constructor]. now rewrite sendAnnouncePeer_tables.
  - unfold listening. exists b. split; [|constructor].
    now rewrite run_listeners_tables.
Qed.

(** A property of buckets that the fresh bucket has and every move keeps
    holds of the bucket of a node, whatever happened to the node. *)
Lemma bucket_invariant (P : Bucket.t -> Prop) :
  P Bucket.new ->
  (forall b b', bucket_ok b -> P b -> moves b b' -> P b') ->
  forall self p inputs,
    exists b, buckets (tables (run (create self p) inputs)) = [SBucket b]
              /\ bucket_ok b /\ P b.
Proof.
  intros Hnew Hkeep self p inputs.
  assert (Hchain : forall b b', rtc moves b b' -> bucket_ok b -> P b ->
                                bucket_ok b' /\ P b').
  { induction 1 as [b|b b1 b2 Hm _ IH]; intros Hb HP; [now split|].
    apply IH; [exact (moves_ok b b1 Hb Hm) | exact (Hkeep b b1 Hb HP Hm)]. }
  assert (G : forall n b, node_ok n -> buckets (tables n) = [SBucket b] -> P b ->
              exists b', buckets (tables (run n inputs)) = [SBucket b']
                         /\ bucket_ok b' /\ P b').
  { induction inputs as [|i inputs IH]; intros n b Hn Hbs HP.
    - exists b. split; [exact Hbs|]. split; [|exact HP].
      destruct Hn as (_ & (b0 & Hb0 & Hok) & _). rewrite Hbs in Hb0.
      now injection Hb0 as ->.
    - simpl. destruct (step_moves n i b Hn Hbs) as (b' & Hb' & Hm).
      apply (IH (step n i) b' (step_ok n i Hn) Hb').
      apply (Hchain b b' Hm); [|exact HP].
      destruct Hn as (_ & (b0 & Hb0 & Hok) & _). rewrite Hbs in Hb0.
      now injection Hb0 as ->. }
  apply (G (create self p) Bucket.new (create_ok self p) eq_refl Hnew).
Qed.

End ReachFacts.

(** * Invariants of the bucket *)

Section BucketInvariants.
Context `{BufferToString}.
Import Table Handlers Node.

(** What [add] of an observed contact leaves in the bucket. *)
Lemma add_shape (id : Buffer) (from : rinfo) (now : Z) (b : Bucket.t) :
  let b' := snd (Bucket.add (Bucket.Observed id from) now b) in
  b' = b
  \/ (Bucket.start b' = Bucket.start b /\ Bucket.end_ b' = Bucket.end_ b
      /\ exists base,
           Bucket.nodes b'
           = Obj.set (toString id) (RemoteNode.new id from now) base
           /\ ((base = Bucket.nodes b /\ Bucket.slots b <> 0
                /\ Bucket.slots b' = Bucket.slots b - 1)
               \/ (exists oldest, Obj.has oldest (Bucket.nodes b) = true
                                  /\ base = Obj.delete oldest (Bucket.nodes b)
                                  /\ Bucket.slots b = 0 /\ Bucket.slots b' = 0))).
Proof.
  cbv zeta. unfold Bucket.add.
  destruct (Bucket.slots b =? 0) eqn:E.
  - apply Z.eqb_eq in E.
    destruct (Bucket.bad_keys b) as [|oldest rest] eqn:Eb; [now left|].
    right. assert (Ho : In oldest (Bucket.bad_keys b)) by (rewrite Eb; now left).
    apply bad_keys_spec in Ho as [Hok _]. apply has_keys in Hok.
    unfold Bucket.remove. rewrite Hok. simpl.
    split; [reflexivity|]. split; [reflexivity|].
    eexists. split; [reflexivity|]. right. exists oldest. rewrite E. auto.
  - apply Z.eqb_neq in E. right. simpl.
    split; [reflexivity|]. split; [reflexivity|].
    eexists. split; [reflexivity|]. left. auto.
Qed.

(** The count of free slots is never negative and never promises more
    room than there is. *)
Definition within_capacity (b : Bucket.t) : Prop :=
  0 <= Bucket.slots b
  /\ Z.of_nat (length (Bucket.nodes b)) + Bucket.slots b <= K.

Lemma moves_within_capacity b b' :
  within_capacity b -> moves b b' -> within_capacity b'.
Proof.
  intros [H0 Hk] Hm. destruct Hm as [|id from now Hlen Hc|key u]; [now split| |].
  - destruct (add_shape id from now b) as [-> | (_ & _ & base & Hn & Hcase)];
      [now split|].
    unfold within_capacity. rewrite Hn, length_set.
    destruct Hcase as [(-> & Hs & ->) | (oldest & Hhas & -> & Hs & ->)].
    + destruct (Obj.has _ _); lia.
    + apply length_delete in Hhas. destruct (Obj.has _ _); lia.
  - unfold touch_bucket. destruct (Obj.get key (Bucket.nodes b)) eqn:G; [|now split].
    unfold within_capacity. simpl. rewrite length_set. unfold Obj.has. rewrite G.
    now split.
Qed.

(** X6.  Whatever happens to a node, its bucket never holds more than
    [K] = 8 contacts, and its count of free slots stays between 0 and
    [K] and never exceeds [K] minus the number of contacts stored. *)
Theorem bucket_never_exceeds_K self p inputs :
  exists b,
    buckets (tables (run (create self p) inputs)) = [SBucket b]
    /\ 0 <= Bucket.slots b <= K
    /\ Z.of_nat (length (Bucket.nodes b)) <= K - Bucket.slots b
    /\ Z.of_nat (length (Bucket.getNodes b)) <= K.
Proof.
  destruct (bucket_invariant within_capacity) with (self := self) (p := p)
    (inputs := inputs) as (b & Hbs & Hok & H0 & Hk).
  - unfold within_capacity. simpl. unfold K. lia.
  - intros b b' _. apply moves_within_capacity.
  - exists b. split; [exact Hbs|].
    unfold Bucket.getNodes. rewrite (values_NoDup _ (proj1 (proj1 (proj2 Hok)))).
    rewrite length_map. lia.
Qed.

(** A contact is good exactly while it has failed at most twice in a
    row. *)
Definition lively (r : RemoteNode.t) : Prop :=
  RemoteNode.good r = (RemoteNode.bads r <=? 2) /\ 0 <= RemoteNode.bads r.

Lemma judge_lively v r : lively r -> lively (judge v r).
Proof.
  intros [Hg Hb]. destruct v as [now|]; unfold lively; simpl; [split; [reflexivity | lia]|].
  split; [|lia]. rewrite Hg.
  destruct (RemoteNode.bads r + 1 >? 2) eqn:E.
  - rewrite Z.gtb_ltb in E. apply Z.ltb_lt in E. symmetry. apply Z.leb_gt. lia.
  - rewrite Z.gtb_ltb in E. apply Z.ltb_ge in E.
    replace (RemoteNode.bads r <=? 2) with true by (symmetry; apply Z.leb_le; lia).
    symmetry. apply Z.leb_le. lia.
Qed.

Lemma touched_lively u r : lively r -> lively (touched u r).
Proof. destruct u as [v | now]; [apply judge_lively | exact (fun Hr => Hr)]. Qed.

Lemma moves_forall (Q : RemoteNode.t -> Prop) b b' :
  (forall id from now, length id = 20%nat ->
     Bucket.contains b (VBuffer id) = Ok true -> Q (RemoteNode.new id from now)) ->
  (forall u r, Q r -> Q (touched u r)) ->
  Forall (fun x => Q (snd x)) (Bucket.nodes b) -> moves b b' ->
  Forall (fun x => Q (snd x)) (Bucket.nodes b').
Proof.
  intros Hnew Hjudge HQ Hm.
  destruct Hm as [|id from now Hlen Hc|key u]; [exact HQ| |].
  - destruct (add_shape id from now b) as [-> | (_ & _ & base & Hn & Hcase)];
      [exact HQ|].
    rewrite Hn. apply List.Forall_forall. intros x Hx.
    apply In_set in Hx as [-> | Hx]; [simpl; now apply Hnew|].
    rewrite List.Forall_forall in HQ. apply HQ.
    destruct Hcase as [(-> & _) | (oldest & _ & -> & _)]; [exact Hx|].
    now apply In_delete in Hx.
  - unfold touch_bucket. destruct (Obj.get key (Bucket.nodes b)) as [r|] eqn:G;
      [|exact HQ].
    simpl. apply List.Forall_forall. intros x Hx.
    rewrite List.Forall_forall in HQ.
    apply In_set in Hx as [-> | Hx]; [|now apply HQ].
    simpl. apply Hjudge. apply get_In in G. exact (HQ _ G).
Qed.

(** X7.  Every contact a node stores is good exactly when its count of
    consecutive failures is at most 2: a new contact starts good with no
    failure, the third failure in a row makes it bad, and any success
    makes it good again with the count back at 0. *)
Theorem stored_contacts_are_good_iff_few_failures self p inputs :
  exists b,
    buckets (tables (run (create self p) inputs)) = [SBucket b]
    /\ forall r, In r (Bucket.getNodes b) ->
         RemoteNode.good r = (RemoteNode.bads r <=? 2) /\ 0 <= RemoteNode.bads r.
Proof.
  destruct (bucket_invariant
              (fun b => Forall (fun x => lively (snd x)) (Bucket.nodes b)))
    with (self := self) (p := p) (inputs := inputs) as (b & Hbs & Hok & HQ).
  - constructor.
  - intros b b' _ HQ Hm. revert HQ Hm. apply moves_forall.
    + intros id from now _ _. split; [reflexivity | simpl; lia].
    + apply touched_lively.
  - exists b. split; [exact Hbs|]. intros r Hr.
    unfold Bucket.getNodes in Hr.
    rewrite (values_NoDup _ (proj1 (proj1 (proj2 Hok)))) in Hr.
    apply List.in_map_iff in Hr as (x & <- & Hx).
    rewrite List.Forall_forall in HQ. exact (HQ x Hx).
Qed.

Lemma contains_ext (b b' : Bucket.t) (x : jsval) :
  Bucket.start b' = Bucket.start b -> Bucket.end_ b' = Bucket.end_ b ->
  Bucket.contains b' x = Bucket.contains b x.
Proof. intros Hs He. unfold Bucket.contains. now rewrite Hs, He. Qed.

(** X8.  Every contact a node stores has a 20-byte id that lies in the
    range of the bucket holding it, and is stored under the string of
    that id: no query with a malformed id ever reaches the table. *)
Theorem stored_contacts_have_valid_ids self p inputs :
  exists b,
    buckets (tables (run (create self p) inputs)) = [SBucket b]
    /\ forall key r, Bucket.get key b = Some r ->
         length (RemoteNode.id r) = 20%nat
         /\ Bucket.contains b (VBuffer (RemoteNode.id r)) = Ok true
         /\ key = toString (RemoteNode.id r).
Proof.
  set (Q := fun r => length (RemoteNode.id r) = 20%nat
                     /\ Bucket.contains Bucket.new (VBuffer (RemoteNode.id r)) = Ok true).
  destruct (bucket_invariant
              (fun b => Forall (fun x => Q (snd x)) (Bucket.nodes b)))
    with (self := self) (p := p) (inputs := inputs) as (b & Hbs & Hok & HQ).
  - constructor.
  - intros b b' Hb HQ Hm. revert HQ Hm. apply moves_forall.
    + intros id from now Hlen Hc. split; [exact Hlen|]. simpl.
      rewrite <- Hc. apply contains_ext; symmetry; apply Hb.
    + intros u r [Hl Hc]. split; destruct u as [[now|]|now]; assumption.
  - exists b. split; [exact Hbs|]. intros key r Hg.
    unfold Bucket.get in Hg. apply get_In in Hg.
    rewrite List.Forall_forall in HQ. destruct (HQ _ Hg) as [Hl Hc].
    split; [exact Hl|]. split.
    + rewrite <- Hc. apply contains_ext; apply Hok.
    + destruct Hok as (_ & (_ & Hk) & _). rewrite List.Forall_forall in Hk.
      exact (Hk _ Hg).
Qed.

End BucketInvariants.

(** * What a query does to the responder *)

Section QueryFacts.
Context `{BufferToString}.
Import Table Handlers Node.


(** A query is malformed for [processRequest] when it has no arguments
    or its [a.id] is not a 20-byte string. *)
Definition malformed (m : msg) : Prop :=
  truthy (Wire.a m) = false
  \/ match field (Wire.a m) "id" with
     | Some (BBuf id) => length id <> 20%nat
     | _ => True
     end.

(** X9.  A query without arguments, or whose [a.id] is missing, is not a
    byte string or does not have 20 bytes, is ignored altogether: the
    node is left exactly as it was, with no contact stored, no reply and
    no event, whatever the method. *)
Theorem malformed_query_is_ignored now m q from cs n :
  is_response m = false -> Wire.q m = Some q -> malformed m ->
  onmessage now (Ok m) from cs n = n.
Proof.
  intros Hresp Hq Hbad. unfold onmessage, dispatch. rewrite Hresp, Hq.
  assert (E : processRequest (id n) now (toString q) m from (tables n)
              = (tables n, [], Ok tt)).
  { unfold processRequest. destruct Hbad as [-> | Hid]; [reflexivity|].
    destruct (negb (truthy (Wire.a m))); [reflexivity|].
    destruct (field (Wire.a m) "id") as [[id| | |]|]; try reflexivity.
    apply Nat.eqb_neq in Hid. now rewrite Hid. }
  rewrite E. destruct n. unfold log, with_tables. simpl. now rewrite app_nil_r.
Qed.

(** A reply to [m]: a response that goes to the sender, echoes [msg.t]
    and carries the id of the node. *)
Definition is_reply (self : Buffer) (m : msg) (from : rinfo) (o : output) : Prop :=
  exists args, o = Sent from (Response (Wire.t m) args)
               /\ Obj.get "id" args = Some (RBuf self).

Lemma respond_is_reply self m from args st :
  exists o, respond self from m args st = (st, [o], Ok tt) /\ is_reply self m from o.
Proof.
  eexists. split; [reflexivity|]. eexists. split; [reflexivity|]. apply get_set_eq.
Qed.

(** X10.  A query is answered with at most one datagram, and that
    datagram is a response addressed to the sender of the query, echoing
    its transaction id and carrying the id of the node; the only other
    output a query can cause is one ['peer:new'] event, emitted before
    the reply.  No handler ever sends a query or an error message. *)
Theorem a_query_gets_at_most_one_reply self now type m from st :
  let out := snd (fst (processRequest self now type m from st)) in
  out = []
  \/ (exists o, out = [o] /\ is_reply self m from o)
  \/ (exists infohash p o,
        out = [Emitted (PeerNew infohash p); o] /\ is_reply self m from o).
Proof.
  cbv zeta.
  destruct (truthy (Wire.a m)) eqn:Ha;
    [|left; unfold processRequest; now rewrite Ha].
  destruct (field (Wire.a m) "id") as [[id| | |]|] eqn:Hid;
    try (left; unfold processRequest; now rewrite Ha, Hid).
  destruct (length id =? 20)%nat eqn:Hlen;
    [|left; unfold processRequest; now rewrite Ha, Hid, Hlen].
  apply Nat.eqb_eq in Hlen.
  rewrite (processRequest_valid self now type m from st id Ha Hid Hlen).
  destruct (observe self now id from (buckets st)) as [bs [[]|e]]; [|now left].
  set (st1 := {| buckets := bs; peers := peers st |}). clearbody st1.
  unfold handler.
  match goal with
  | |- context [ (if String.eqb type "ping" then ?x else ?y) st1 ] =>
      set (h := (if String.eqb type "ping" then x else y) st1)
  end.
  assert (Hh : snd (fst h) = []
               \/ (exists o, snd (fst h) = [o] /\ is_reply self m from o)
               \/ (exists infohash p o,
                     snd (fst h) = [Emitted (PeerNew infohash p); o]
                     /\ is_reply self m from o)).
  { subst h. destruct (String.eqb type "ping").
    { right. left. unfold processPing.
      destruct (respond_is_reply self m from [] st1) as (o & -> & Ho). eauto. }
    destruct (String.eqb type "find_node").
    { unfold processFindNode, mbind, Js_bind, get_store, lift. cbn beta iota.
      destruct (findKClosest id (buckets st1)) as [nodes|e]; [|now left].
      right. left.
      destruct (respond_is_reply self m from [("nodes", RNodes nodes)] st1)
        as (o & -> & Ho). eauto. }
    destruct (String.eqb type "get_peers").
    { unfold processGetPeers.
      destruct (field (Wire.a m) "info_hash") as [[ih| | |]|]; try (now left).
      destruct (negb (length ih =? 20)%nat); [now left|].
      unfold mbind, Js_bind, get_store, lift. cbn beta iota.
      destruct (peers st1 !! hex ih) as [ps|].
      - right. left.
        destruct (respond_is_reply self m from
                    [("token", RBuf issueToken); ("values", RPeers ps)] st1)
          as (o & -> & Ho). eauto.
      - destruct (findKClosest ih (buckets st1)) as [nodes|e]; [|now left].
        right. left.
        destruct (respond_is_reply self m from
                    [("token", RBuf issueToken); ("nodes", RNodes nodes)] st1)
          as (o & -> & Ho). eauto. }
    destruct (String.eqb type "announce_peer"); [|now left].
    unfold processAnnouncePeer.
    destruct (field (Wire.a m) "token") as [[tok| | |]|]; try (now left).
    destruct (field (Wire.a m) "info_hash") as [[ih| | |]|]; try (now left).
    destruct (negb (verifyToken tok) || negb (length ih =? 20)%nat); [now left|].
    unfold mbind, mret, Js_bind, Js_ret, throw, tell, get_store, set_peers.
    cbn beta iota.
    destruct (peers st1 !! hex ih) as [ps|]; [|now left].
    destruct (find_existing (Rinfo.address from) ps 0); cbn beta iota.
    - right. left. eexists. split; [reflexivity|].
      eexists. split; [reflexivity | apply get_set_eq].
    - right. right. eexists _, _, _. split; [reflexivity|].
      eexists. split; [reflexivity | apply get_set_eq]. }
  destruct h as [[st2 out2] r2]. exact Hh.
Qed.

End QueryFacts.

(** * The replies of a node *)

Section ReplyFacts.
Context `{BufferToString}.
Import Table Handlers Node.


(** On a bucket that respects its capacity the lookup returns every
    contact of the bucket. *)
Lemma closest_all (b : Bucket.t) (x : Buffer) :
  bucket_ok b -> within_capacity b -> is_id x ->
  findKClosest x [SBucket b] = Ok (Bucket.getNodes b).
Proof.
  intros Hok [H0 Hk] Hx. unfold findKClosest. simpl.
  rewrite (contains_whole b x (proj1 Hok) Hx). simpl.
  assert (Hlen : (length (Bucket.getNodes b) <= 8)%nat).
  { unfold Bucket.getNodes. rewrite (values_NoDup _ (proj1 (proj1 (proj2 Hok)))).
    rewrite length_map. unfold K in Hk. lia. }
  destruct (Z.of_nat (length (Bucket.getNodes b)) <? K); simpl;
    now rewrite take_ge by exact Hlen.
Qed.

(** X11.  A ping with a 20-byte id that reaches a bucket with a free slot
    is answered with [{id: self}] under the transaction id of the query,
    and its sender is then stored in the table as a fresh good contact,
    under the string of its id. *)
Theorem ping_with_room_is_answered self now m from st b id :
  buckets st = [SBucket b] -> whole b -> Bucket.slots b <> 0 ->
  truthy (Wire.a m) = true -> field (Wire.a m) "id" = Some (BBuf id) -> is_id id ->
  let b' := snd (Bucket.add (Bucket.Observed id from) now b) in
  processRequest self now "ping" m from st
  = ({| buckets := [SBucket b']; peers := peers st |}, [plain_reply self m from], Ok tt)
  /\ Bucket.get (toString id) b' = Some (RemoteNode.new id from now).
Proof.
  intros Hbs Hw Hs Ha Hf Hid.
  pose proof (add_with_room id from now b Hs) as Hadd.
  cbv zeta. split; [|rewrite Hadd; apply get_set_eq].
  rewrite (processRequest_valid self now "ping" m from st id Ha Hf (proj1 Hid)).
  rewrite Hbs, (observe_stores self now id from b Hw Hid) by now rewrite Hadd.
  reflexivity.
Qed.

Lemma all_good_no_bad_key (b : Bucket.t) :
  (forall r, In r (Bucket.getNodes b) -> RemoteNode.good r = true) ->
  Bucket.bad_keys b = [].
Proof.
  intros Hgood. destruct (Bucket.bad_keys b) as [|k rest] eqn:E; [reflexivity|].
  assert (Hk : In k (Bucket.bad_keys b)) by (rewrite E; now left).
  apply bad_keys_spec in Hk as [Hin Hbad]. exfalso.
  unfold Bucket.is_bad in Hbad.
  destruct (Obj.get k (Bucket.nodes b)) as [r|] eqn:G.
  - rewrite (Hgood r) in Hbad; [discriminate|].
    unfold Bucket.getNodes, Obj.values.
    generalize (Obj.keys (Bucket.nodes b)) Hin. intros l.
    induction l as [|k' l IH]; simpl; [tauto|].
    intros [-> | Hl].
    + rewrite G. now left.
    + destruct (Obj.get k' (Bucket.nodes b)); [right|]; auto.
  - now apply get_None_keys in G.
Qed.

(** X12.  Once the bucket of a node has no slot left and holds only good
    contacts, the node answers no query at all: every query with a
    20-byte id, whatever its method and whether or not its sender is
    already stored, ends in [TypeError] with the store unchanged and
    nothing sent. *)
Theorem full_node_answers_no_query self p inputs b me now type m from id :
  buckets (tables (run (create self p) inputs)) = [SBucket b] ->
  Bucket.slots b = 0 ->
  (forall r, In r (Bucket.getNodes b) -> RemoteNode.good r = true) ->
  truthy (Wire.a m) = true -> field (Wire.a m) "id" = Some (BBuf id) ->
  is_id id -> is_id me ->
  processRequest me now type m from (tables (run (create self p) inputs))
  = (tables (run (create self p) inputs), [], Throw TypeError).
Proof.
  intros Hbs Hs Hgood Ha Hf Hid Hme.
  destruct (run_ok (create self p) inputs (create_ok self p)) as (_ & Hsingle & _).
  destruct Hsingle as (b0 & Hb0 & Hok). rewrite Hbs in Hb0. injection Hb0 as <-.
  rewrite (processRequest_valid me now type m from _ id Ha Hf (proj1 Hid)).
  rewrite Hbs. unfold observe, observe_loop, observe_once. simpl.
  rewrite (contains_whole b id (proj1 Hok) Hid). simpl.
  assert (Hadd : Bucket.add (Bucket.Observed id from) now b = (false, b)).
  { unfold Bucket.add. rewrite Hs, (all_good_no_bad_key b Hgood). reflexivity. }
  rewrite Hadd. rewrite (contains_whole b me (proj1 Hok) Hme).
  rewrite (split_nonempty_throws now b (proj1 Hok)).
  - destruct (tables (run (create self p) inputs)) as [bs ps].
    simpl in Hbs. subst bs. reflexivity.
  - destruct Hok as (_ & _ & Hempty). intros E. apply Hempty in E.
    unfold K in E. lia.
Qed.

(** What the store is after the sender of a query was observed. *)
Lemma observed_bucket self p inputs b id from now :
  buckets (tables (run (create self p) inputs)) = [SBucket b] ->
  is_id id -> Bucket.slots b <> 0 ->
  let b' := snd (Bucket.add (Bucket.Observed id from) now b) in
  whole b /\ peers (tables (run (create self p) inputs)) = ∅
  /\ fst (Bucket.add (Bucket.Observed id from) now b) = true
  /\ bucket_ok b' /\ within_capacity b'
  /\ In (RemoteNode.new id from now) (Bucket.getNodes b').
Proof.
  intros Hbs Hid Hs. cbv zeta.
  destruct (run_ok (create self p) inputs (create_ok self p)) as (_ & _ & Hp).
  destruct (bucket_invariant within_capacity) with (self := self) (p := p)
    (inputs := inputs) as (b0 & Hb0 & Hok & Hcap).
  { unfold within_capacity. simpl. unfold K. lia. }
  { intros x x' _. apply moves_within_capacity. }
  rewrite Hbs in Hb0. injection Hb0 as <-.
  pose proof (add_ok (Bucket.Observed id from) now b Hok) as Hok'.
  pose proof (moves_within_capacity b _ Hcap
                (moves_add b id from now (proj1 Hid)
                   (contains_whole b id (proj1 Hok) Hid))) as Hcap'.
  pose proof (add_with_room id from now b Hs) as Hadd.
  rewrite Hadd in *. cbn [fst snd] in *.
  split; [apply Hok|]. split; [exact Hp|]. split; [reflexivity|].
  split; [exact Hok'|]. split; [exact Hcap'|].
  unfold Bucket.getNodes. rewrite (values_NoDup _ (proj1 (proj1 (proj2 Hok')))).
  cbn [Bucket.nodes].
  exact (List.in_map snd _ _
           (get_In _ _ _ (get_set_eq (Bucket.nodes b) (toString id)
                                     (RemoteNode.new id from now)))).
Qed.

(** X13.  The answer of a node to [find_node] does not depend on the
    target asked for: with a slot free for the sender, the reply lists
    every contact the node has stored, the sender of the query
    included. *)
Theorem find_node_returns_every_contact self p inputs b me now m from id :
  buckets (tables (run (create self p) inputs)) = [SBucket b] ->
  Bucket.slots b <> 0 ->
  truthy (Wire.a m) = true -> field (Wire.a m) "id" = Some (BBuf id) -> is_id id ->
  let b' := snd (Bucket.add (Bucket.Observed id from) now b) in
  processRequest me now "find_node" m from (tables (run (create self p) inputs))
  = ({| buckets := [SBucket b']; peers := ∅ |},
     [Sent from (Response (Wire.t m)
                   [("nodes", RNodes (Bucket.getNodes b')); ("id", RBuf me)])],
     Ok tt)
  /\ In (RemoteNode.new id from now) (Bucket.getNodes b').
Proof.
  intros Hbs Hs Ha Hf Hid.
  destruct (observed_bucket self p inputs b id from now Hbs Hid Hs)
    as (Hw & Hp & Hadd & Hok' & Hcap' & Hin).
  cbv zeta. split; [|exact Hin].
  rewrite (processRequest_valid me now "find_node" m from _ id Ha Hf (proj1 Hid)).
  rewrite Hbs, (observe_stores me now id from b Hw Hid Hadd), Hp.
  change (handler me now "find_node" id m from) with (processFindNode me id m from).
  unfold processFindNode, mbind, Js_bind, get_store, lift. cbn beta iota. simpl buckets.
  rewrite (closest_all _ id Hok' Hcap' Hid). reflexivity.
Qed.

(** X14.  [get_peers] is answered with contacts, not with peers: with a
    slot free for the sender and a 20-byte [info_hash], the reply
    carries the token and, under [nodes], every contact the node has
    stored, the sender included. *)
Theorem get_peers_returns_token_and_contacts
    self p inputs b me now m from id ih :
  buckets (tables (run (create self p) inputs)) = [SBucket b] ->
  Bucket.slots b <> 0 ->
  truthy (Wire.a m) = true -> field (Wire.a m) "id" = Some (BBuf id) -> is_id id ->
  field (Wire.a m) "info_hash" = Some (BBuf ih) -> is_id ih ->
  let b' := snd (Bucket.add (Bucket.Observed id from) now b) in
  processRequest me now "get_peers" m from (tables (run (create self p) inputs))
  = ({| buckets := [SBucket b']; peers := ∅ |},
     [Sent from (Response (Wire.t m)
                   [("token", RBuf (alloc 4)); ("nodes", RNodes (Bucket.getNodes b'));
                    ("id", RBuf me)])],
     Ok tt)
  /\ In (RemoteNode.new id from now) (Bucket.getNodes b').
Proof.
  intros Hbs Hs Ha Hf Hid Hih Hihid.
  destruct (observed_bucket self p inputs b id from now Hbs Hid Hs)
    as (Hw & Hp & Hadd & Hok' & Hcap' & Hin).
  cbv zeta. split; [|exact Hin].
  rewrite (processRequest_valid me now "get_peers" m from _ id Ha Hf (proj1 Hid)).
  rewrite Hbs, (observe_stores me now id from b Hw Hid Hadd), Hp.
  change (handler me now "get_peers" id m from) with (processGetPeers me m from).
  unfold processGetPeers. rewrite Hih, (proj1 Hihid).
  change (negb (20 =? 20)%nat) with false. cbn iota.
  unfold mbind, Js_bind, get_store, lift. cbn beta iota. cbn [peers buckets].
  rewrite lookup_empty.
  rewrite (closest_all _ ih Hok' Hcap' Hihid). reflexivity.
Qed.

(** A touch changes no key and no count of free slots. *)
Lemma touch_bucket_occupancy key u b :
  Obj.keys (Bucket.nodes (touch_bucket key u b)) = Obj.keys (Bucket.nodes b)
  /\ Bucket.slots (touch_bucket key u b) = Bucket.slots b.
Proof.
  unfold touch_bucket. destruct (Obj.get key (Bucket.nodes b)) as [r|] eqn:G;
    [|now split].
  simpl. split; [|reflexivity]. rewrite keys_set. unfold Obj.has. now rewrite G.
Qed.

Lemma omap_insert_cons {A B : Type} (f : A -> option B) (s x : A) (bs : list A)
    (i : nat) :
  omap f (<[i := x]> bs) = omap f bs ->
  omap f (<[S i := x]> (s :: bs)) = omap f (s :: bs).
Proof.
  intros IH. change (<[S i := x]> (s :: bs)) with (s :: <[i := x]> bs).
  change (omap f (s :: <[i := x]> bs))
    with (match f s with
          | Some y => y :: omap f (<[i := x]> bs)
          | None => omap f (<[i := x]> bs)
          end).
  now rewrite IH.
Qed.

Lemma insert_occupancy (bs : list slot) (i : nat) (b b' : Bucket.t) :
  bs !! i = Some (SBucket b) ->
  Obj.keys (Bucket.nodes b') = Obj.keys (Bucket.nodes b) ->
  Bucket.slots b' = Bucket.slots b ->
  Runs.occupancy (<[i := SBucket b']> bs) = Runs.occupancy bs.
Proof.
  intros Hi Hk Hs. revert i Hi. induction bs as [|s bs IH]; intros [|i] Hi;
    try discriminate.
  - simpl in Hi. injection Hi as ->. simpl. now rewrite Hk, Hs.
  - simpl in Hi. apply omap_insert_cons. exact (IH i Hi).
Qed.

Lemma act_occupancy a n :
  Runs.occupancy (buckets (tables (act n a))) = Runs.occupancy (buckets (tables n))
  /\ peers (tables (act n a)) = peers (tables n).
Proof.
  destruct a as [c | globals an | i key u]; simpl.
  - now split.
  - now rewrite sendAnnouncePeer_tables.
  - unfold touch_contact.
    destruct (buckets (tables n) !! i) as [[b|l]|] eqn:Hi; try now split.
    simpl. split; [|reflexivity].
    destruct (touch_bucket_occupancy key u b) as [Hk Hs].
    exact (insert_occupancy _ i b _ Hi Hk Hs).
Qed.

Lemma acts_occupancy l n :
  Runs.occupancy (buckets (tables (foldl act n l)))
  = Runs.occupancy (buckets (tables n))
  /\ peers (tables (foldl act n l)) = peers (tables n).
Proof.
  revert n. induction l as [|a l IH]; intros n; [now split|].
  simpl. destruct (IH (act n a)) as [E1 E2]. destruct (act_occupancy a n) as [E3 E4].
  split; congruence.
Qed.

(** An action that is a touch of a contact. *)
Definition is_touch (a : action) : Prop :=
  match a with
  | Touches _ _ _ => True
  | _ => False
  end.

(** What is not a touch leaves the tables as they are. *)
Lemma acts_tables l n :
  Forall (fun a => ~ is_touch a) l -> tables (foldl act n l) = tables n.
Proof.
  intros Hl. revert n. induction Hl as [|a l Ha _ IH]; intros n; [reflexivity|].
  simpl. rewrite IH. destruct a as [c | globals an | i key u]; simpl.
  - reflexivity.
  - apply sendAnnouncePeer_tables.
  - now contradiction Ha.
Qed.

(** X15.  A response never stores, removes or replaces a contact: its
    sender is not observed, and whatever the continuation does, every
    bucket has the keys and the free slots it had, and the peer store is
    as it was.  The tables change only where the continuation touches a
    contact, as the wrapper of [_wrapCallback] does.  A response whose
    transaction id is not registered leaves the whole node exactly as
    it was. *)
Theorem responses_store_no_contact now m from k n :
  is_response m = true ->
  Runs.occupancy (buckets (tables (onmessage now (Ok m) from k n)))
  = Runs.occupancy (buckets (tables n))
  /\ peers (tables (onmessage now (Ok m) from k n)) = peers (tables n)
  /\ (Forall (fun a => ~ is_touch a) (does k) ->
        tables (onmessage now (Ok m) from k n) = tables n)
  /\ (forall tid, Wire.t m = Some tid -> queries n !! hex tid = None ->
        onmessage now (Ok m) from k n = n).
Proof.
  intros Hresp.
  assert (E : tables (onmessage now (Ok m) from k n) = tables n
              \/ exists txn,
                   tables (onmessage now (Ok m) from k n)
                   = tables (foldl act
                       (log [Called txn (Reply (Wire.r m) from)]
                            (with_queries (queries n) (delete txn (timers n)) n))
                       (does k))).
  { unfold onmessage, dispatch, invoke. rewrite Hresp.
    destruct (Wire.t m) as [tid|]; [|now left].
    destruct (queries n !! hex tid) as [txn|]; [|now left].
    right. exists txn. now destruct (ends k). }
  split; [|split; [|split]].
  - destruct E as [-> | (txn & ->)]; [reflexivity|].
    now rewrite (proj1 (acts_occupancy _ _)).
  - destruct E as [-> | (txn & ->)]; [reflexivity|].
    now rewrite (proj2 (acts_occupancy _ _)).
  - intros Hk. destruct E as [-> | (txn & ->)]; [reflexivity|].
    now rewrite acts_tables.
  - intros tid Ht Hq. unfold onmessage, dispatch. now rewrite Hresp, Ht, Hq.
Qed.

End ReplyFacts.

(** * Requests, responses and time-outs *)

Section TransactionFacts.
Context `{BufferToString}.
Import Table Handlers Node.

(** In a node that was run from its creation the next transaction has no
    timer yet. *)
Lemma next_txn_has_no_timer self p inputs :
  timers (run (create self p) inputs) !! next_txn (run (create self p) inputs) = None.
Proof.
  destruct (run_ok (create self p) inputs (create_ok self p)) as ((Ht & _) & _).
  destruct (timers _ !! next_txn _) as [k|] eqn:E; [|reflexivity].
  apply Ht in E as [Hlt _]. lia.
Qed.


(** A continuation that only touches contacts leaves the registry, the
    timers and the history as they are, and what it leaves in the tables
    depends on the tables alone. *)
Lemma touches_registry l n :
  Forall is_touch l ->
  queries (foldl act n l) = queries n /\ timers (foldl act n l) = timers n
  /\ next_txn (foldl act n l) = next_txn n /\ trace (foldl act n l) = trace n.
Proof.
  intros Hl. revert n. induction Hl as [|a l Ha _ IH]; intros n; [repeat split|].
  simpl. destruct a as [c | globals an | i key u]; try contradiction.
  destruct (IH (act n (Touches i key u))) as (E1 & E2 & E3 & E4).
  destruct (touch_contact_registry i key u n) as (F1 & F2 & F3 & F4).
  simpl in *. repeat split; congruence.
Qed.

Lemma touches_tables l n1 n2 :
  Forall is_touch l -> tables n1 = tables n2 ->
  tables (foldl act n1 l) = tables (foldl act n2 l).
Proof.
  intros Hl. revert n1 n2. induction Hl as [|a l Ha _ IH]; intros n1 n2 E; [exact E|].
  simpl. apply IH. destruct a as [c | globals an | i key u]; try contradiction.
  simpl. unfold touch_contact. rewrite E.
  now destruct (buckets (tables n2) !! i) as [[b|l']|].
Qed.

Lemma request_calls x c n : calls x (trace (request c n)) = calls x (trace n).
Proof. unfold request. simpl. apply calls_sent. Qed.

Lemma calls_invoked x txn a q t n l :
  calls x (trace (foldl act (log [Called txn a] (with_queries q t n)) l))
  = (calls x (trace n) + if Nat.eqb txn x then 1 else 0)%nat.
Proof. rewrite acts_calls. simpl. apply calls_called. Qed.

Lemma calls_logged x e n :
  called x e = false -> calls x (trace (log [e] n)) = calls x (trace n).
Proof.
  intros He. simpl. rewrite calls_app. unfold calls at 2. simpl. rewrite He.
  simpl. lia.
Qed.

(** What [onmessage] does with a response whose id is registered. *)
Lemma onmessage_response now m from k n tid txn :
  is_response m = true -> Wire.t m = Some tid ->
  queries n !! hex tid = Some txn ->
  onmessage now (Ok m) from k n
  = let n2 := foldl act
                (log [Called txn (Reply (Wire.r m) from)]
                     (with_queries (queries n) (delete txn (timers n)) n))
                (does k) in
    match ends k with
    | Returns => with_queries (delete (hex tid) (queries n2)) (timers n2) n2
    | Throws e => log [Out (Emitted (Error e))] n2
    end.
Proof.
  intros Hresp Ht Hq. unfold onmessage, dispatch, invoke. rewrite Hresp, Ht, Hq.
  now destruct (ends k).
Qed.

(** What the timer of a transaction does when it is armed. *)
Lemma timeout_fires_armed txn key k n :
  timers n !! txn = Some key ->
  timeout_fires txn k n
  = let n2 := foldl act
                (log [Called txn TimedOut]
                     (with_queries (queries n) (delete txn (timers n)) n))
                (does k) in
    match ends k with
    | Returns =>
        if decide (queries n2 !! key = Some txn)
        then with_queries (delete key (queries n2)) (timers n2) n2
        else n2
    | Throws e => log [Uncaught e] n2
    end.
Proof.
  intros Ht. unfold timeout_fires, invoke. rewrite Ht. now destruct (ends k).
Qed.

(** X17.  A request whose transaction id is free, answered by a response
    with that id, with a continuation that returns and does no more to
    the node than touch contacts: one datagram is sent, the continuation
    is called once with the response and its sender, the registry and
    the timers are back to what they were, the tables are what the
    continuation made of them, and the timer of the request no longer
    fires. *)
Theorem answered_request_is_settled self p inputs c now m from k :
  let n := run (create self p) inputs in
  let tid := [rnd1 c; rnd2 c] in
  queries n !! hex tid = None ->
  is_response m = true -> Wire.t m = Some tid ->
  ends k = Returns -> Forall is_touch (does k) ->
  let n' := onmessage now (Ok m) from k (request c n) in
  trace n' = (trace n ++ [Out (Sent (target c) (Query tid (type c) (args c)));
                          Called (next_txn n) (Reply (Wire.r m) from)])%list
  /\ queries n' = queries n /\ timers n' = timers n
  /\ tables n' = tables (foldl act n (does k))
  /\ forall k', timeout_fires (next_txn n) k' n' = n'.
Proof.
  intros n tid Hfree Hresp Ht Hk Hl.
  pose proof (next_txn_has_no_timer self p inputs) as Hnt. fold n in Hnt.
  cbv zeta.
  rewrite (onmessage_response now m from k (request c n) tid (next_txn n) Hresp Ht)
    by apply lookup_insert_eq.
  cbv zeta. rewrite Hk.
  match goal with
  | |- context [foldl act ?n0 (does k)] =>
      destruct (touches_registry (does k) n0 Hl) as (E1 & E2 & E3 & E4);
      pose proof (touches_tables (does k) n0 n Hl eq_refl) as E5;
      set (n2 := foldl act n0 (does k)) in *
  end.
  assert (Hq2 : queries n2 = <[hex tid := next_txn n]> (queries n))
    by (rewrite E1; reflexivity).
  assert (Ht2 : timers n2 = timers n).
  { rewrite E2. simpl. now rewrite delete_insert_eq, (delete_id _ _ Hnt). }
  assert (Htr : trace n2
                = (trace n ++ [Out (Sent (target c) (Query tid (type c) (args c)));
                               Called (next_txn n) (Reply (Wire.r m) from)])%list).
  { rewrite E4. simpl. now rewrite <- app_assoc. }
  clearbody n2. unfold with_queries. cbn [trace queries timers tables].
  split; [exact Htr|].
  split; [now rewrite Hq2, delete_insert_eq, (delete_id _ _ Hfree)|].
  split; [exact Ht2|]. split; [exact E5|].
  intros k'. unfold timeout_fires. cbn [timers]. now rewrite Ht2, Hnt.
Qed.

(** X25.  A continuation that throws when the response arrives stays
    registered: [onmessage] has cleared its timer and called it, the
    exception is reported as an ['error'] event, and the entry is not
    deleted.  Its timer never fires, and the next response with that id
    calls the continuation a second time. *)
Theorem throwing_continuation_stays_registered self p inputs c now m from k e :
  let n := run (create self p) inputs in
  let tid := [rnd1 c; rnd2 c] in
  queries n !! hex tid = None ->
  is_response m = true -> Wire.t m = Some tid ->
  ends k = Throws e -> Forall is_touch (does k) ->
  let n' := onmessage now (Ok m) from k (request c n) in
  trace n' = (trace n ++ [Out (Sent (target c) (Query tid (type c) (args c)));
                          Called (next_txn n) (Reply (Wire.r m) from);
                          Out (Emitted (Error e))])%list
  /\ queries n' !! hex tid = Some (next_txn n)
  /\ timers n' !! next_txn n = None
  /\ (forall k', timeout_fires (next_txn n) k' n' = n')
  /\ (forall now' m' from' k',
        is_response m' = true -> Wire.t m' = Some tid ->
        calls (next_txn n) (trace (onmessage now' (Ok m') from' k' n')) = 2%nat).
Proof.
  intros n tid Hfree Hresp Ht Hk Hl.
  pose proof (next_txn_has_no_timer self p inputs) as Hnt. fold n in Hnt.
  assert (Hzero : calls (next_txn n) (trace n) = 0%nat).
  { destruct (run_ok (create self p) inputs (create_ok self p)) as ((_ & _ & P3) & _).
    now apply P3. }
  cbv zeta.
  rewrite (onmessage_response now m from k (request c n) tid (next_txn n) Hresp Ht)
    by apply lookup_insert_eq.
  cbv zeta. rewrite Hk.
  match goal with
  | |- context [foldl act ?n0 (does k)] =>
      destruct (touches_registry (does k) n0 Hl) as (E1 & E2 & E3 & E4);
      set (n2 := foldl act n0 (does k)) in *
  end.
  assert (Htr : trace (log [Out (Emitted (Error e))] n2)
                = (trace n ++ [Out (Sent (target c) (Query tid (type c) (args c)));
                               Called (next_txn n) (Reply (Wire.r m) from);
                               Out (Emitted (Error e))])%list).
  { simpl. rewrite E4. simpl. now rewrite <- !app_assoc. }
  assert (Hq : queries (log [Out (Emitted (Error e))] n2) !! hex tid
               = Some (next_txn n)).
  { simpl. rewrite E1. simpl. apply lookup_insert_eq. }
  assert (Htm : timers (log [Out (Emitted (Error e))] n2) !! next_txn n = None).
  { simpl. rewrite E2. simpl. apply lookup_delete_eq. }
  assert (Hc1 : calls (next_txn n) (trace (log [Out (Emitted (Error e))] n2)) = 1%nat).
  { rewrite calls_logged by reflexivity. unfold n2.
    rewrite calls_invoked, request_calls, Nat.eqb_refl, Hzero. reflexivity. }
  split; [exact Htr|]. split; [exact Hq|]. split; [exact Htm|]. split.
  - intros k'. unfold timeout_fires. now rewrite Htm.
  - intros now' m' from' k' Hresp' Ht'.
    rewrite (onmessage_response now' m' from' k' _ tid (next_txn n) Hresp' Ht' Hq).
    cbv zeta. destruct (ends k') as [|e'].
    + unfold with_queries at 1. cbn [trace].
      rewrite calls_invoked, Nat.eqb_refl, Hc1. reflexivity.
    + rewrite calls_logged by reflexivity.
      rewrite calls_invoked, Nat.eqb_refl, Hc1. reflexivity.
Qed.


(** X19.  Two requests that draw the same transaction id: the later one
    takes the entry of the registry.  A response with that id is given
    to the later request only (its continuation doing no more to the
    node than touch contacts); the entry is cleared if that continuation
    returns and stays with the later request if it throws.  The earlier
    request keeps its timer and is told nothing but its time-out. *)
Theorem colliding_ids_orphan_the_earlier_request c c' now m from k n :
  rnd1 c' = rnd1 c -> rnd2 c' = rnd2 c ->
  is_response m = true -> Wire.t m = Some [rnd1 c; rnd2 c] ->
  Forall is_touch (does k) ->
  let tid := [rnd1 c; rnd2 c] in
  let n2 := request c' (request c n) in
  let n3 := onmessage now (Ok m) from k n2 in
  trace n3 = (trace n2 ++ Called (S (next_txn n)) (Reply (Wire.r m) from)
                          :: match ends k with
                             | Returns => []
                             | Throws e => [Out (Emitted (Error e))]
                             end)%list
  /\ queries n3 !! hex tid = match ends k with
                             | Returns => None
                             | Throws _ => Some (S (next_txn n))
                             end
  /\ timers n3 !! next_txn n = Some (hex tid)
  /\ trace (timeout_fires (next_txn n) idle n3)
     = (trace n3 ++ [Called (next_txn n) TimedOut])%list.
Proof.
  intros H1 H2 Hresp Ht Hl. cbv zeta.
  assert (Hq : queries (request c' (request c n)) !! hex [rnd1 c; rnd2 c]
               = Some (S (next_txn n))).
  { unfold request at 1. cbn [queries]. rewrite H1, H2. apply lookup_insert_eq. }
  rewrite (onmessage_response now m from k _ _ (S (next_txn n)) Hresp Ht Hq).
  cbv zeta.
  match goal with
  | |- context [foldl act ?n0 (does k)] =>
      destruct (touches_registry (does k) n0 Hl) as (E1 & E2 & E3 & E4);
      set (n2 := foldl act n0 (does k)) in *
  end.
  assert (Htimer : timers n2 !! next_txn n = Some (hex [rnd1 c; rnd2 c])).
  { rewrite E2. unfold request. cbn [with_queries log timers next_txn].
    rewrite lookup_delete_ne by lia. rewrite lookup_insert_ne by lia.
    apply lookup_insert_eq. }
  assert (Hfinal : forall n3,
            timers n3 = timers n2 ->
            trace (timeout_fires (next_txn n) idle n3)
            = (trace n3 ++ [Called (next_txn n) TimedOut])%list).
  { intros n3 Ht3.
    rewrite (timeout_fires_armed (next_txn n) (hex [rnd1 c; rnd2 c]) idle n3)
      by (rewrite Ht3; exact Htimer).
    simpl. case_decide; reflexivity. }
  destruct (ends k) as [|e].
  - split; [simpl; now rewrite E4|]. split; [apply lookup_delete_eq|].
    split; [exact Htimer|]. now apply Hfinal.
  - split; [simpl; rewrite E4; simpl; now rewrite <- app_assoc|].
    split; [simpl; rewrite E1; exact Hq|].
    split; [exact Htimer|]. now apply Hfinal.
Qed.

End TransactionFacts.

(** * The peer store, and the loop of [processRequest] *)

Section PeerFacts.
Context `{BufferToString}.
Import Table Handlers Node.

(** The two events of the peer store. *)
Definition peer_event (e : effect) : bool :=
  match e with
  | Out (Emitted (PeerNew _ _)) | Out (Emitted (PeerDelete _ _)) => true
  | _ => false
  end.

Definition quiet (n : Node.t) : Prop :=
  Forall (fun e => peer_event e = false) (trace n).

Lemma quiet_log es n :
  Forall (fun e => peer_event e = false) es -> quiet n -> quiet (log es n).
Proof. intros Hes Hn. unfold quiet, log. simpl. apply Forall_app. now split. Qed.

Lemma request_quiet c n : quiet n -> quiet (request c n).
Proof.
  intros Hn. unfold quiet, request. simpl. apply Forall_app. split; [exact Hn|].
  now repeat constructor.
Qed.

Lemma sendAnnouncePeer_quiet globals an n :
  quiet n -> quiet (fst (sendAnnouncePeer globals an n)).
Proof.
  intros Hn. unfold sendAnnouncePeer, send. destruct (Node.port n =? 0); [exact Hn|].
  destruct (resolve (send_scopes an) globals "id"); [|exact Hn].
  now apply request_quiet.
Qed.

Lemma act_quiet a n : quiet n -> quiet (act n a).
Proof.
  intros Hn. destruct a as [c | globals an | i key u]; simpl.
  - now apply request_quiet.
  - now apply sendAnnouncePeer_quiet.
  - unfold quiet. now rewrite (proj2 (proj2 (proj2 (touch_contact_registry i key u n)))).
Qed.

Lemma acts_quiet l n : quiet n -> quiet (foldl act n l).
Proof.
  revert n. induction l as [|a l IH]; intros n Hn; [exact Hn|].
  simpl. apply IH, act_quiet, Hn.
Qed.

Lemma invoke_quiet txn a k n : quiet n -> quiet (fst (invoke txn a k n)).
Proof.
  intros Hn. unfold invoke. cbn [fst]. apply acts_quiet, quiet_log; [|exact Hn].
  now repeat constructor.
Qed.

Lemma timeout_fires_quiet txn k n : quiet n -> quiet (timeout_fires txn k n).
Proof.
  intros Hn. unfold timeout_fires. destruct (timers n !! txn); [|exact Hn].
  pose proof (invoke_quiet txn TimedOut k
                (with_queries (queries n) (delete txn (timers n)) n) Hn) as Hi.
  destruct (invoke txn TimedOut k (with_queries (queries n) (delete txn (timers n)) n))
    as [n2 [[]|e]]; cbn [fst] in Hi.
  - case_decide; exact Hi.
  - apply quiet_log; [now repeat constructor | exact Hi].
Qed.

(** With an empty peer store a query makes the node send at most
    datagrams: no event leaves [processRequest]. *)
Lemma processRequest_sends self now type m from st :
  peers st = ∅ ->
  Forall (fun o => peer_event (Out o) = false)
         (snd (fst (processRequest self now type m from st))).
Proof.
  intros Hp. unfold processRequest.
  destruct (negb (truthy (Wire.a m))); [constructor|].
  destruct (field (Wire.a m) "id") as [[id| | |]|]; try constructor.
  destruct (negb (length id =? 20)%nat); [constructor|].
  unfold mbind, mret, Js_bind, Js_ret, get_store, set_buckets, lift.
  cbn beta iota.
  destruct (observe self now id from (buckets st)) as [bs r].
  cbn beta iota.
  destruct r as [[]|e]; [|constructor].
  set (st1 := {| buckets := bs; peers := peers st |}).
  assert (Hst1 : peers st1 = ∅) by exact Hp.
  clearbody st1.
  match goal with
  | |- context [ (if String.eqb type "ping" then ?x else ?y) st1 ] =>
      set (h := (if String.eqb type "ping" then x else y) st1)
  end.
  assert (Hh : Forall (fun o => peer_event (Out o) = false) (snd (fst h))).
  { subst h.
    destruct (String.eqb type "ping"); [now repeat constructor|].
    destruct (String.eqb type "find_node").
    { unfold processFindNode, mbind, Js_bind, get_store, lift. cbn beta iota.
      destruct (findKClosest id (buckets st1)); now repeat constructor. }
    destruct (String.eqb type "get_peers").
    { unfold processGetPeers.
      destruct (field (Wire.a m) "info_hash") as [[ih| | |]|]; try constructor.
      destruct (negb (length ih =? 20)%nat); [constructor|].
      unfold mbind, Js_bind, get_store, lift. cbn beta iota.
      rewrite Hst1, lookup_empty.
      destruct (findKClosest ih (buckets st1)); now repeat constructor. }
    destruct (String.eqb type "announce_peer"); [|constructor].
    destruct (processAnnouncePeer_absent self now m from st1 Hst1) as [r ->].
    constructor. }
  destruct h as [[st2 out2] r2]. exact Hh.
Qed.

Lemma onmessage_quiet now decoded from k n :
  peers (tables n) = ∅ -> quiet n -> quiet (onmessage now decoded from k n).
Proof.
  intros Hp Hn. unfold onmessage.
  destruct decoded as [m|e]; [|apply quiet_log; [now repeat constructor | exact Hn]].
  assert (Hd : quiet (fst (dispatch now m from k n))).
  { unfold dispatch. destruct (is_response m).
    - destruct (Wire.t m) as [tid|]; [|exact Hn].
      destruct (queries n !! hex tid) as [txn|]; [|exact Hn].
      pose proof (invoke_quiet txn (Reply (Wire.r m) from) k
                    (with_queries (queries n) (delete txn (timers n)) n) Hn) as Hi.
      now destruct (invoke txn (Reply (Wire.r m) from) k
                      (with_queries (queries n) (delete txn (timers n)) n))
        as [n2 [[]|e]].
    - destruct (Wire.q m) as [q|]; [|exact Hn].
      pose proof (processRequest_sends (id n) now (toString q) m from (tables n) Hp)
        as Hout.
      destruct (processRequest (id n) now (toString q) m from (tables n))
        as [[st out] r].
      simpl in *. apply quiet_log; [|exact Hn].
      apply List.Forall_forall. intros e He. apply in_map_iff in He as (o & <- & Ho).
      revert o Ho. now apply List.Forall_forall. }
  destruct (dispatch now m from k n) as [n' [[]|e]]; [exact Hd|].
  apply quiet_log; [now repeat constructor | exact Hd].
Qed.

Lemma send_quiet globals an n : quiet n -> quiet (fst (send globals an n)).
Proof.
  intros Hn. unfold send.
  destruct (resolve (send_scopes an) globals "id"); [|exact Hn].
  now apply request_quiet.
Qed.

Lemma run_listeners_quiet globals ls n :
  quiet n -> quiet (fst (run_listeners globals ls n)).
Proof.
  revert n. induction ls as [|an ls IH]; intros n Hn; [exact Hn|].
  simpl. pose proof (send_quiet globals an (with_listeners ls n) Hn) as Hs.
  destruct (send globals an (with_listeners ls n)) as [n' [[]|e]];
    [apply IH|]; exact Hs.
Qed.

Lemma step_quiet n i : node_ok n -> quiet n -> quiet (step n i).
Proof.
  intros (_ & _ & Hp) Hn. destruct i as [c|now d from cs|txn cs|ih i|i key v|g an|g p];
    simpl.
  - now apply request_quiet.
  - now apply onmessage_quiet.
  - now apply timeout_fires_quiet.
  - unfold peer_expires. now rewrite Hp, lookup_empty.
  - unfold judge_contact. destruct (buckets (tables n) !! i) as [[b|l]|]; exact Hn.
  - unfold sendAnnouncePeer. destruct (Node.port n =? 0); [exact Hn|].
    now apply send_quiet.
  - unfold listening. apply run_listeners_quiet, quiet_log; [|exact Hn].
    now repeat constructor.
Qed.

(** X20.  A node never records a peer: whatever it is sent and whatever
    it is asked to do, its peer store stays empty, and it emits neither
    ['peer:new'] nor ['peer:delete']. *)
Theorem no_peer_is_ever_recorded self p inputs infohash pr :
  peers (tables (run (create self p) inputs)) = ∅
  /\ ~ In (Out (Emitted (PeerNew infohash pr))) (trace (run (create self p) inputs))
  /\ ~ In (Out (Emitted (PeerDelete infohash pr))) (trace (run (create self p) inputs)).
Proof.
  assert (G : forall n, node_ok n -> quiet n -> quiet (run n inputs)).
  { induction inputs as [|i inputs IH]; intros n Hok Hq; [exact Hq|].
    simpl. apply IH; [now apply step_ok | now apply step_quiet]. }
  pose proof (G (create self p) (create_ok self p) (List.Forall_nil _)) as Hq.
  destruct (run_ok (create self p) inputs (create_ok self p)) as (_ & _ & Hp).
  split; [exact Hp|].
  unfold quiet in Hq. rewrite List.Forall_forall in Hq.
  split; intros Hin; apply Hq in Hin; discriminate.
Qed.

(** The records of a list have pairwise different addresses. *)
Definition one_per_address (ps : list peer) : Prop :=
  List.NoDup (map Wire.address ps).

Lemma find_existing_none address ps i0 :
  find_existing address ps i0 = None -> ~ In address (map Wire.address ps).
Proof.
  revert i0. induction ps as [|q ps IH]; intros i0; simpl; [tauto|].
  unfold same_peer. rewrite Z.eqb_refl. simpl.
  destruct (String.eqb (Wire.address q) address) eqn:E; simpl; [discriminate|].
  apply String.eqb_neq in E. intros Hf [Heq | Hin]; [contradiction|].
  exact (IH _ Hf Hin).
Qed.

Lemma find_existing_some address ps i0 i :
  find_existing address ps i0 = Some i -> In address (map Wire.address ps).
Proof.
  revert i0. induction ps as [|q ps IH]; intros i0; simpl; [discriminate|].
  unfold same_peer. rewrite Z.eqb_refl. simpl.
  destruct (String.eqb (Wire.address q) address) eqn:E; simpl.
  - apply String.eqb_eq in E. now left.
  - intros Hf. right. exact (IH _ Hf).
Qed.

Lemma renew_addresses now i ps :
  map Wire.address (alter (renew now) i ps) = map Wire.address ps.
Proof.
  revert i. induction ps as [|q ps IH]; intros [|i]; simpl; try reflexivity.
  f_equal. apply IH.
Qed.

(** X21.  [processAnnouncePeer] keeps one record per address: on a list
    whose records have pairwise different addresses, an accepted
    announce leaves a list of the same kind that holds the address of
    the announcer, and that is at most one record longer, whatever port
    the announce names. *)
Theorem announce_keeps_one_record_per_address self now m from st tok ih ps :
  field (Wire.a m) "token" = Some (BBuf tok) ->
  field (Wire.a m) "info_hash" = Some (BBuf ih) ->
  length ih = 20%nat ->
  peers st !! hex ih = Some ps ->
  one_per_address ps ->
  exists ps',
    peers (fst (fst (processAnnouncePeer self now m from st))) !! hex ih = Some ps'
    /\ one_per_address ps'
    /\ In (Rinfo.address from) (map Wire.address ps')
    /\ (length ps <= length ps' <= S (length ps))%nat
    /\ (In (Rinfo.address from) (map Wire.address ps) -> length ps' = length ps).
Proof.
  intros Htok Hih Hlen Hps Hone.
  rewrite (processAnnouncePeer_listed self now m from st tok ih ps Htok Hih Hlen Hps).
  destruct (find_existing (Rinfo.address from) ps 0) as [i|] eqn:E; cbn [fst snd peers].
  - exists (alter (renew now) i ps). rewrite lookup_insert_eq.
    split; [reflexivity|]. unfold one_per_address. rewrite renew_addresses.
    split; [exact Hone|]. split; [exact (find_existing_some _ _ _ _ E)|].
    rewrite length_alter. split; [lia | reflexivity].
  - exists (ps ++ [{| Wire.address := Rinfo.address from;
                      Wire.port := match field (Wire.a m) "port" with
                                   | Some (BInt n) => n
                                   | _ => Rinfo.port from
                                   end;
                      Wire.timeout := Some (now + peer_timeout) |}])%list.
    rewrite lookup_insert_eq. split; [reflexivity|].
    pose proof (find_existing_none _ _ _ E) as Hni.
    unfold one_per_address. rewrite map_app, length_app. simpl.
    split; [|split; [|split]].
    + apply List.NoDup_app; [exact Hone | |].
      * constructor; [intros [] | constructor].
      * intros x Hx [<- | []]. exact (Hni Hx).
    + apply in_or_app. right. now left.
    + lia.
    + intros Hin. contradiction.
Qed.

(** X22.  The [while (true)] loop of [processRequest] ends within two
    rounds on every table: more rounds change nothing.  A round that
    does not end the loop has replaced a bucket by the array of its two
    halves, and the next round throws on that array. *)
Theorem routing_loop_ends_within_two_rounds fuel self now id from bs :
  (2 <= fuel)%nat ->
  observe_loop fuel self now id from bs
  = (fst (observe self now id from bs), Some (snd (observe self now id from bs)))
  /\ (forall bs1, observe_once self now id from bs = (bs1, Ok Continue) ->
        exists e, observe self now id from bs = (bs1, Throw e)).
Proof.
  intros Hf. destruct (observe_loop_total fuel self now id from bs Hf) as [E Hn].
  split.
  - rewrite E. unfold observe.
    destruct (observe_loop 2 self now id from bs) as [bs' [r|]]; [reflexivity|].
    now contradiction Hn.
  - intros bs1 E1. unfold observe. simpl. rewrite E1.
    apply observe_once_continue in E1.
    destruct (filter_contains_array bs1 id 0 E1) as [e He].
    unfold observe_once. rewrite He. now exists e.
Qed.

End PeerFacts.

(** * The identifier a bucket looks up to renew itself *)

(** [Bucket.prototype.renew] builds an identifier and hands it to
    [node.findNodes], whose body is empty: nothing else happens, and the
    continuation that would arm the next renewal is never called. *)
Module Renewal.

(** [src.copy(dst, at)]: the bytes of [src] over those of [dst] from [at]
    on, as far as [dst] reaches. *)
Definition copy (src dst : Buffer) (at_ : nat) : Buffer :=
  take (length dst) (take at_ dst ++ src ++ drop (at_ + length src) dst)%list.

(** The loop of [renew] over the offsets [offs]: a word on which [start]
    and [end] agree is copied; at the first on which they differ the
    word [drawn], which is
    [~~(sword + Math.random() * (eword - sword))], is written and the
    loop is left.  The result is the buffer with the value of [i] after
    the loop, [after] when the loop was not left. *)
Fixpoint renew_words (start end_ : Buffer) (drawn : Z) (offs : list Z) (after : Z)
    (id : Buffer) : result (Buffer * Z) :=
  match offs with
  | [] => Ok (id, after)
  | i :: rest =>
      sword ← readUInt16BE start i;
      eword ← readUInt16BE end_ i;
      if negb (sword =? eword) then Ok (writeUInt16BE id drawn i, i)
      else renew_words start end_ drawn rest after (writeUInt16BE id sword i)
  end.

(** The identifier [renew] passes to [findNodes];
    [randomBytes n] is what [crypto.randomBytes(n)] returns. *)
Definition renew_id (start end_ : Buffer) (drawn : Z) (randomBytes : nat -> Buffer)
    : result Buffer :=
  let n := length start in
  '(id, i) ← renew_words start end_ drawn (offsets_up n)
                         (2 * Z.of_nat (Nat.div2 (S n))) (alloc n);
  Ok (copy (randomBytes (n - Z.to_nat i)%nat) id (Z.to_nat i)).

End Renewal.

Section RenewalFacts.
Import Renewal.

Lemma word_bytes (x y : Z) :
  0 <= x < 256 -> 0 <= y < 256 ->
  Z.shiftr (x * 256 + y) 8 = x /\ Z.land (x * 256 + y) 255 = y.
Proof.
  intros Hx Hy. split.
  - rewrite Z.shiftr_div_pow2 by lia. change (2 ^ 8) with 256.
    rewrite Z.div_add_l by lia. rewrite Z.div_small by lia. lia.
  - change 255 with (Z.ones 8). rewrite Z.land_ones by lia. change (2 ^ 8) with 256.
    rewrite Z.add_comm, Z.mod_add by lia. apply Z.mod_small. lia.
Qed.

Lemma nth_write (b : Buffer) (v i : Z) (p : nat) :
  0 <= i -> p <> Z.to_nat i -> p <> Z.to_nat (i + 1) ->
  nth p (writeUInt16BE b v i) 0 = nth p b 0.
Proof.
  intros Hi H1 H2. unfold writeUInt16BE, set_byte, Buffer in *.
  rewrite !nth_lookup, !list_lookup_insert_ne by lia. reflexivity.
Qed.

Lemma length_write (b : Buffer) (v i : Z) : length (writeUInt16BE b v i) = length b.
Proof. unfold writeUInt16BE, set_byte, Buffer in *. now rewrite !length_insert. Qed.

Lemma nth_write_hi (b : Buffer) (v : Z) (j : nat) :
  (2 * j + 1 < length b)%nat ->
  nth (2 * j) (writeUInt16BE b v (2 * Z.of_nat j)) 0 = Z.shiftr v 8.
Proof.
  intros Hj. unfold writeUInt16BE, set_byte, Buffer in *.
  replace (Z.to_nat (2 * Z.of_nat j)) with (2 * j)%nat by lia.
  replace (Z.to_nat (2 * Z.of_nat j + 1)) with (2 * j + 1)%nat by lia.
  rewrite nth_lookup, list_lookup_insert_ne by lia.
  rewrite list_lookup_insert_eq by lia. reflexivity.
Qed.

Lemma nth_write_lo (b : Buffer) (v : Z) (j : nat) :
  (2 * j + 1 < length b)%nat ->
  nth (2 * j + 1) (writeUInt16BE b v (2 * Z.of_nat j)) 0 = Z.land v 255.
Proof.
  intros Hj. unfold writeUInt16BE, set_byte, Buffer in *.
  replace (Z.to_nat (2 * Z.of_nat j)) with (2 * j)%nat by lia.
  replace (Z.to_nat (2 * Z.of_nat j + 1)) with (2 * j + 1)%nat by lia.
  rewrite nth_lookup, list_lookup_insert_eq by (rewrite length_insert; lia).
  reflexivity.
Qed.

Lemma read_word (b : Buffer) (j : nat) :
  (2 * j + 1 < length b)%nat ->
  readUInt16BE b (2 * Z.of_nat j)
  = Ok (nth (2 * j) b 0 * 256 + nth (2 * j + 1) b 0).
Proof.
  intros Hj. unfold readUInt16BE, len, byte_at.
  replace (Z.to_nat (2 * Z.of_nat j)) with (2 * j)%nat by lia.
  replace (Z.to_nat (2 * Z.of_nat j + 1)) with (2 * j + 1)%nat by lia.
  replace ((0 <=? 2 * Z.of_nat j) && (2 * Z.of_nat j + 1 <? Z.of_nat (length b)))
    with true; [reflexivity|].
  symmetry. apply andb_true_iff. split; [apply Z.leb_le | apply Z.ltb_lt]; lia.
Qed.

Lemma nth_byte (b : Buffer) (p : nat) : is_bytes b -> 0 <= nth p b 0 < 256.
Proof.
  intros Hb. destruct (Nat.lt_ge_cases p (length b)) as [Hp | Hp].
  - unfold is_bytes in Hb. rewrite List.Forall_forall in Hb. apply Hb, nth_In, Hp.
  - rewrite nth_overflow by exact Hp. lia.
Qed.

(** The loop over the words [j], ..., [j + n - 1]: it stops at the first
    word [j'] on which the bounds differ, having copied the words before
    it. *)
Lemma renew_words_spec (start end_ : Buffer) (drawn : Z) (n : nat) :
  is_bytes start -> is_bytes end_ ->
  forall (j : nat) (id : Buffer),
    length end_ = length start -> length id = length start ->
    (2 * (j + n) <= length start)%nat ->
    exists id' j',
      renew_words start end_ drawn (map (fun k => 2 * Z.of_nat k) (seq j n))
                  (2 * Z.of_nat (j + n)) id
      = Ok (id', 2 * Z.of_nat j')
      /\ length id' = length start /\ (j <= j' <= j + n)%nat
      /\ (forall p, (p < 2 * j)%nat -> nth p id' 0 = nth p id 0)
      /\ (forall p, (2 * j <= p < 2 * j')%nat ->
            nth p id' 0 = nth p start 0 /\ nth p end_ 0 = nth p start 0)
      /\ ((j' < j + n)%nat ->
            readUInt16BE start (2 * Z.of_nat j') <> readUInt16BE end_ (2 * Z.of_nat j')).
Proof.
  intros Hs He. induction n as [|n IH]; intros j id Hle Hli Hn.
  - exists id, j. simpl. rewrite Nat.add_0_r.
    split; [reflexivity|]. split; [exact Hli|]. split; [lia|].
    split; [reflexivity|]. split; intros; exfalso; lia.
  - cbn [seq map renew_words].
    rewrite (read_word start j), (read_word end_ j) by lia.
    cbn [mbind result_bind].
    set (s0 := nth (2 * j) start 0). set (s1 := nth (2 * j + 1) start 0).
    set (e0 := nth (2 * j) end_ 0). set (e1 := nth (2 * j + 1) end_ 0).
    pose proof (nth_byte start (2 * j) Hs) as Bs0. fold s0 in Bs0.
    pose proof (nth_byte start (2 * j + 1) Hs) as Bs1. fold s1 in Bs1.
    pose proof (nth_byte end_ (2 * j) He) as Be0. fold e0 in Be0.
    pose proof (nth_byte end_ (2 * j + 1) He) as Be1. fold e1 in Be1.
    destruct (s0 * 256 + s1 =? e0 * 256 + e1) eqn:E; cbn [negb].
    + apply Z.eqb_eq in E.
      assert (E0 : e0 = s0) by lia. assert (E1 : e1 = s1) by lia.
      destruct (IH (S j) (writeUInt16BE id (s0 * 256 + s1) (2 * Z.of_nat j)))
        as (id' & j' & Hr & Hl & Hj & Hlow & Hmid & Hdiff);
        [exact Hle | now rewrite length_write | lia |].
      exists id', j'.
      replace (j + S n)%nat with (S j + n)%nat by lia. rewrite Hr.
      split; [reflexivity|]. split; [exact Hl|]. split; [lia|].
      split; [|split].
      * intros p Hp. rewrite Hlow by lia. apply nth_write; lia.
      * intros p Hp.
        destruct (Nat.lt_ge_cases p (2 * S j)) as [Hlt | Hge]; [|apply Hmid; lia].
        split.
        -- rewrite Hlow by exact Hlt.
           destruct (Nat.eq_dec p (2 * j)%nat) as [-> | Hne].
           ++ rewrite nth_write_hi by lia.
              exact (proj1 (word_bytes s0 s1 Bs0 Bs1)).
           ++ replace p with (2 * j + 1)%nat by lia.
              rewrite nth_write_lo by lia.
              exact (proj2 (word_bytes s0 s1 Bs0 Bs1)).
        -- destruct (Nat.eq_dec p (2 * j)%nat) as [-> | Hne]; [exact E0|].
           replace p with (2 * j + 1)%nat by lia. exact E1.
      * intros Hlt. apply Hdiff. lia.
    + apply Z.eqb_neq in E. exists (writeUInt16BE id drawn (2 * Z.of_nat j)), j.
      split; [reflexivity|]. split; [now rewrite length_write|]. split; [lia|].
      split; [|split].
      * intros p Hp. apply nth_write; lia.
      * intros p Hp. exfalso. lia.
      * intros _. rewrite (read_word start j), (read_word end_ j) by lia.
        fold s0 s1 e0 e1. congruence.
Qed.

(** [renew_id] in terms of the number [j] of leading words on which the
    bounds agree. *)
Lemma renew_id_spec start end_ drawn randomBytes :
  is_id start -> is_id end_ -> (forall k, length (randomBytes k) = k) ->
  exists j : nat,
    renew_id start end_ drawn randomBytes
    = Ok (take (2 * j) start ++ randomBytes (20 - 2 * j)%nat)%list
    /\ (j <= 10)%nat
    /\ take (2 * j) end_ = take (2 * j) start
    /\ ((j < 10)%nat ->
          readUInt16BE start (2 * Z.of_nat j) <> readUInt16BE end_ (2 * Z.of_nat j)).
Proof.
  intros [Ls Bs] [Le Be] Hrnd.
  destruct (renew_words_spec start end_ drawn 10 Bs Be 0 (alloc (length start)))
    as (id' & j' & Hr & Hl & Hj & _ & Hmid & Hdiff).
  { congruence. } { unfold alloc. apply repeat_length. } { rewrite Ls. lia. }
  exists j'. unfold renew_id. rewrite Ls.
  change (offsets_up 20) with (map (fun k => 2 * Z.of_nat k) (seq 0 10)).
  change (2 * Z.of_nat (Nat.div2 21)) with (2 * Z.of_nat (0 + 10)).
  rewrite Ls in Hr. rewrite Hr. cbn [mbind result_bind].
  replace (Z.to_nat (2 * Z.of_nat j')) with (2 * j')%nat by lia.
  rewrite Ls in Hl.
  assert (Hpre : forall b : Buffer, length b = 20%nat ->
            (forall p, (p < 2 * j')%nat -> nth p b 0 = nth p start 0) ->
            take (2 * j') b = take (2 * j') start).
  { intros b Lb Hb. apply (nth_ext _ _ 0 0).
    - rewrite !length_take. lia.
    - intros p Hp. rewrite length_take in Hp.
      rewrite !nth_lookup, !lookup_take_lt, <- !nth_lookup by lia. apply Hb. lia. }
  split; [|split; [|split]].
  - f_equal. unfold copy. rewrite Hrnd, Hl.
    replace (2 * j' + (20 - 2 * j'))%nat with 20%nat by lia.
    rewrite drop_ge by lia. rewrite app_nil_r.
    rewrite take_ge by (rewrite length_app, length_take, Hrnd; lia).
    f_equal. apply Hpre; [exact Hl|]. intros p Hp. apply Hmid. lia.
  - lia.
  - apply Hpre; [exact Le|]. intros p Hp. apply Hmid. lia.
  - intros Hlt. apply Hdiff. lia.
Qed.

(** X23.  The identifier [renew] looks up keeps the words on which the
    two bounds of the bucket agree and is random from the first word on
    which they differ: the word that the loop draws between the two
    bounds is overwritten by [randomBytes].  [renew] never throws on a
    bucket whose bounds are identifiers. *)
Theorem renew_keeps_only_the_common_prefix start end_ drawn randomBytes :
  is_id start -> is_id end_ -> (forall k, length (randomBytes k) = k) ->
  exists i : nat,
    renew_id start end_ drawn randomBytes
    = Ok (take i start ++ randomBytes (20 - i)%nat)%list
    /\ Nat.Even i /\ (i <= 20)%nat
    /\ take i end_ = take i start
    /\ ((i < 20)%nat ->
          readUInt16BE start (Z.of_nat i) <> readUInt16BE end_ (Z.of_nat i)).
Proof.
  intros Hs He Hrnd.
  destruct (renew_id_spec start end_ drawn randomBytes Hs He Hrnd)
    as (j & Hr & Hj & Ht & Hd).
  exists (2 * j)%nat. split; [exact Hr|]. split; [now exists j|].
  split; [lia|]. split; [exact Ht|].
  intros Hlt. rewrite Nat2Z.inj_mul. apply Hd. lia.
Qed.

Lemma words_app (j : nat) (a b : Buffer) :
  length a = (2 * j)%nat -> words (a ++ b)%list = (words a ++ words b)%list.
Proof.
  revert a. induction j as [|j IH]; intros a Ha.
  - destruct a; [reflexivity | discriminate].
  - destruct a as [|x [|y a]]; try (simpl in Ha; lia).
    simpl. f_equal. apply IH. simpl in Ha. lia.
Qed.

Lemma lex_app (w u v : list Z) : lex (w ++ u)%list (w ++ v)%list = lex u v.
Proof. induction w as [|x w IH]; [reflexivity|]. simpl. now rewrite Z.eqb_refl. Qed.

Lemma drop_word (b : Buffer) (i : nat) :
  (i + 1 < length b)%nat ->
  exists rest, drop i b = nth i b 0 :: nth (i + 1) b 0 :: rest.
Proof.
  revert b. induction i as [|i IH]; intros b Hi.
  - destruct b as [|x [|y b]]; try (simpl in Hi; lia). now exists b.
  - destruct b as [|x b]; [simpl in Hi; lia|]. simpl. apply IH. simpl in Hi. lia.
Qed.

Lemma take_nth (a b : Buffer) (k p : nat) :
  take k a = take k b -> (p < k)%nat -> nth p a 0 = nth p b 0.
Proof.
  intros Ht Hp. rewrite !nth_lookup.
  rewrite <- (lookup_take_lt a k p), <- (lookup_take_lt b k p) by exact Hp.
  now rewrite Ht.
Qed.

(** X24.  The identifier that [renew] looks up can lie outside the
    bucket: whenever the first random word exceeds the word of the upper
    bound at the first offset on which the two bounds differ, the bucket
    does not contain the identifier. *)
Theorem renew_can_miss_the_bucket (b : Bucket.t) drawn randomBytes (i : nat) ew rw :
  is_id (Bucket.start b) -> is_id (Bucket.end_ b) ->
  (forall k, length (randomBytes k) = k) ->
  Nat.Even i -> (i < 20)%nat ->
  take i (Bucket.end_ b) = take i (Bucket.start b) ->
  readUInt16BE (Bucket.end_ b) (Z.of_nat i) = Ok ew ->
  readUInt16BE (Bucket.start b) (Z.of_nat i) <> Ok ew ->
  readUInt16BE (randomBytes (20 - i)%nat) 0 = Ok rw ->
  ew < rw ->
  exists id,
    renew_id (Bucket.start b) (Bucket.end_ b) drawn randomBytes = Ok id
    /\ id = (take i (Bucket.start b) ++ randomBytes (20 - i)%nat)%list
    /\ Bucket.contains b (VBuffer id) = Ok false.
Proof.
  intros Hs He Hrnd [k ->] Hi Ht Hew Hsw Hrw Hlt.
  set (start := Bucket.start b) in *. set (end_ := Bucket.end_ b) in *.
  destruct Hs as [Ls Bs]. destruct He as [Le Be].
  rewrite Nat2Z.inj_mul in Hew, Hsw. change (Z.of_nat 2) with 2 in Hew, Hsw.
  destruct (renew_id_spec start end_ drawn randomBytes (conj Ls Bs) (conj Le Be) Hrnd)
    as (j & Hr & Hj & Htj & Hd).
  assert (Hjk : j = k).
  { destruct (Nat.lt_trichotomy j k) as [Hlt' | [-> | Hgt]]; [|reflexivity|]; exfalso.
    - apply Hd; [lia|].
      rewrite (read_word start j), (read_word end_ j) by lia.
      now rewrite (take_nth end_ start (2 * k) (2 * j) Ht),
                  (take_nth end_ start (2 * k) (2 * j + 1) Ht) by lia.
    - apply Hsw. rewrite <- Hew.
      rewrite (read_word start k), (read_word end_ k) by lia.
      now rewrite (take_nth end_ start (2 * j) (2 * k) Htj),
                  (take_nth end_ start (2 * j) (2 * k + 1) Htj) by lia. }
  subst j. eexists. split; [exact Hr|]. split; [reflexivity|].
  set (rnd := randomBytes (20 - 2 * k)%nat) in *.
  assert (Lr : length rnd = (20 - 2 * k)%nat) by apply Hrnd.
  assert (Lid : length (take (2 * k) start ++ rnd)%list = 20%nat).
  { rewrite length_app, length_take, Lr. lia. }
  assert (Hhi : compare (VBuffer (take (2 * k) start ++ rnd)%list) (VBuffer end_)
                = Ok 1).
  { rewrite (compare_lex _ _ Lid Le).
    rewrite <- (take_drop (2 * k) end_) at 1. rewrite Ht.
    rewrite !(words_app k) by (rewrite length_take; lia).
    rewrite lex_app.
    destruct (drop_word end_ (2 * k)) as [rest Hdrop]; [lia|].
    rewrite Hdrop. rewrite (read_word end_ k) in Hew by lia.
    injection Hew as Hew.
    assert (Hrw' : readUInt16BE rnd (2 * Z.of_nat 0) = Ok rw) by exact Hrw.
    rewrite (read_word rnd 0) in Hrw' by lia. injection Hrw' as Hrw'.
    destruct rnd as [|x [|y rnd']]; try (simpl in Lr; lia).
    simpl in Hrw'. simpl. rewrite Hew, Hrw'.
    replace (rw =? ew) with false by (symmetry; apply Z.eqb_neq; lia).
    replace (rw >? ew) with true by (symmetry; apply Z.gtb_lt; lia).
    reflexivity. }
  unfold Bucket.contains. fold start end_.
  rewrite (compare_lex start _ Ls Lid). cbn [mbind result_bind].
  rewrite Hhi. cbn [mbind result_bind].
  now destruct (lex (words start) (words (take (2 * k) start ++ rnd)%list) <=? 0).
Qed.

End RenewalFacts.

(** * Further runs on concrete input *)

Module MoreRuns.
Import Table Handlers Node Runs.

(** The one bucket of a table, the initial bucket when there is not
    exactly one. *)
Definition the_bucket (n : Node.t) : Bucket.t :=
  match buckets (tables n) with
  | [SBucket b] => b
  | _ => Bucket.new
  end.

(** The bucket after the first eight contacts pinged the node. *)
Definition full_bucket : Bucket.t := the_bucket after_eight_pings.

(** The same node after three queries to the first contact timed out. *)
Definition after_three_failures : Node.t :=
  run (H := ascii_toString) after_eight_pings
      (repeat (Liveness 0 (toString (BufferToString := ascii_toString) (contact 0)) Curse) 3).

Definition find_node : Buffer := [102; 105; 110; 100; 95; 110; 111; 100; 101].
Definition get_peers : Buffer := [103; 101; 116; 95; 112; 101; 101; 114; 115].

(** A query without arguments. *)
Definition bare_ping : msg :=
  {| Wire.t := Some [48; 49]; Wire.y := Some [113]; Wire.q := Some ping;
     Wire.a := None; Wire.r := None |}.

(** The lower half of the identifier space, as the first split would
    bound it. *)
Definition lower_half : Bucket.t :=
  Bucket.new_range (repeat 0 20) (127 :: repeat 255 19).

(** The continuation that [_wrapCallback] makes for a query sent through
    the first contact, as it runs on a response at time 3000 and on a
    time-out: the contact is thanked or cursed; the continuation of
    [schedulePing] inside it arms the next ping. *)
Definition thanks : behaviour :=
  {| does := [Touches 0 (toString (BufferToString := ascii_toString) (contact 0))
                      (Judged (Thank 3000));
              Touches 0 (toString (BufferToString := ascii_toString) (contact 0))
                      (Rescheduled 3000)];
     ends := Returns |}.


(** The node with eight contacts, after a ping with id [0x0707] to the
    first of them. *)
Definition asked : Node.t :=
  request (TransactionRuns.ask 7 7) after_eight_pings.

Lemma is_id_zeros : is_id (repeat 0 20).
Proof. split; [reflexivity|]. unfold is_bytes. simpl. repeat constructor; lia. Qed.

Lemma is_id_ones : is_id (repeat 255 20).
Proof. split; [reflexivity|]. unfold is_bytes. simpl. repeat constructor; lia. Qed.

Lemma is_id_half : is_id (127 :: repeat 255 19).
Proof. split; [reflexivity|]. unfold is_bytes. simpl. repeat constructor; lia. Qed.

End MoreRuns.

Lemma compare_is_the_numeric_order_witness :
  compare (VBuffer Runs.me) (VBuffer Runs.id_a)
  = Ok (Z.sgn (toZ Runs.me - toZ Runs.id_a)).
Proof.
  apply (compare_is_the_numeric_order Runs.me Runs.id_a).
  - exact Runs.is_id_me.
  - exact Runs.is_id_a.
Defined.

Lemma contains_is_the_closed_interval_witness :
  Bucket.contains MoreRuns.lower_half (VBuffer Runs.id_a)
  = Ok ((toZ (Bucket.start MoreRuns.lower_half) <=? toZ Runs.id_a)
        && (toZ Runs.id_a <=? toZ (Bucket.end_ MoreRuns.lower_half))).
Proof.
  apply (contains_is_the_closed_interval MoreRuns.lower_half Runs.id_a).
  - exact MoreRuns.is_id_zeros.
  - exact MoreRuns.is_id_half.
  - exact Runs.is_id_a.
Defined.

Lemma add_stores_the_contact_witness :
  exists b',
    Bucket.add (H := ascii_toString) (Bucket.Observed Runs.id_a Runs.sender) 1000
               Bucket.new = (true, b')
    /\ Bucket.get (toString (BufferToString := ascii_toString) Runs.id_a) b'
       = Some (RemoteNode.new Runs.id_a Runs.sender 1000)
    /\ (forall key, key <> toString (BufferToString := ascii_toString) Runs.id_a ->
          Bucket.get key b' = Bucket.get key Bucket.new)
    /\ Bucket.slots b' = Bucket.slots Bucket.new - 1
    /\ Bucket.start b' = Bucket.start Bucket.new
    /\ Bucket.end_ b' = Bucket.end_ Bucket.new.
Proof.
  apply (add_stores_the_contact (H := ascii_toString) Runs.id_a Runs.sender 1000
           Bucket.new).
  simpl. unfold K. lia.
Defined.

Lemma remove_frees_one_slot_witness :
  let key := toString (BufferToString := ascii_toString) (Runs.contact 3) in
  let b := MoreRuns.full_bucket in
  (Bucket.get key b = None -> Bucket.remove key b = b)
  /\ (forall r, Bucket.get key b = Some r ->
        Bucket.get key (Bucket.remove key b) = None
        /\ Bucket.slots (Bucket.remove key b) = Bucket.slots b + 1
        /\ S (length (Bucket.nodes (Bucket.remove key b))) = length (Bucket.nodes b)
        /\ forall other, other <> key ->
             Bucket.get other (Bucket.remove key b) = Bucket.get other b).
Proof.
  apply (remove_frees_one_slot
           (toString (BufferToString := ascii_toString) (Runs.contact 3))
           MoreRuns.full_bucket).
  vm_compute. repeat (constructor; [simpl; intuition discriminate|]). constructor.
Defined.

Lemma add_evicts_the_oldest_bad_contact_witness :
  let b := MoreRuns.the_bucket MoreRuns.after_three_failures in
  exists oldest r b',
    Bucket.add (H := ascii_toString) (Bucket.Observed (Runs.contact 8) Runs.sender)
               2000 b = (true, b')
    /\ Bucket.get oldest b = Some r /\ RemoteNode.good r = false
    /\ (forall k, In k (Obj.keys (Bucket.nodes b)) -> Bucket.is_bad b k = true ->
                  RemoteNode.lastSeen r <= Bucket.lastSeen_of b k)
    /\ Bucket.nodes b'
       = Obj.set (toString (BufferToString := ascii_toString) (Runs.contact 8))
                 (RemoteNode.new (Runs.contact 8) Runs.sender 2000)
                 (Obj.delete oldest (Bucket.nodes b))
    /\ Bucket.slots b' = 0.
Proof.
  apply (add_evicts_the_oldest_bad_contact (H := ascii_toString)
           (Runs.contact 8) Runs.sender 2000
           (MoreRuns.the_bucket MoreRuns.after_three_failures)
           (toString (BufferToString := ascii_toString) (Runs.contact 0))).
  - vm_compute. reflexivity.
  - vm_compute. left. reflexivity.
  - vm_compute. reflexivity.
Defined.

Lemma malformed_query_is_ignored_witness :
  Node.onmessage (H := ascii_toString) 1000 (Ok MoreRuns.bare_ping) Runs.sender
                 Node.idle Runs.after_eight_pings
  = Runs.after_eight_pings.
Proof.
  apply (malformed_query_is_ignored (H := ascii_toString) 1000 MoreRuns.bare_ping
           Runs.ping Runs.sender Node.idle Runs.after_eight_pings).
  - reflexivity.
  - reflexivity.
  - left. reflexivity.
Defined.

Lemma ping_with_room_is_answered_witness :
  let m := Runs.query Runs.ping Runs.id_a [] in
  let st := Node.tables (Node.create Runs.me 6881) in
  let b' := snd (Bucket.add (H := ascii_toString)
                   (Bucket.Observed Runs.id_a Runs.sender) 1000 Bucket.new) in
  Handlers.processRequest (H := ascii_toString) Runs.me 1000 "ping" m Runs.sender st
  = ({| Handlers.buckets := [Table.SBucket b']; Handlers.peers := Handlers.peers st |},
     [plain_reply Runs.me m Runs.sender], Ok tt)
  /\ Bucket.get (toString (BufferToString := ascii_toString) Runs.id_a) b'
     = Some (RemoteNode.new Runs.id_a Runs.sender 1000).
Proof.
  apply (ping_with_room_is_answered (H := ascii_toString) Runs.me 1000
           (Runs.query Runs.ping Runs.id_a []) Runs.sender
           (Node.tables (Node.create Runs.me 6881)) Bucket.new Runs.id_a).
  - reflexivity.
  - split; reflexivity.
  - simpl. unfold K. lia.
  - reflexivity.
  - reflexivity.
  - exact Runs.is_id_a.
Defined.

Lemma full_node_answers_no_query_witness :
  Handlers.processRequest (H := ascii_toString) Runs.me 2000 "find_node"
    (Runs.query MoreRuns.find_node (Runs.contact 8) []) Runs.sender
    (Node.tables (Node.run (H := ascii_toString) (Node.create Runs.me 6881)
                           Runs.eight_pings))
  = (Node.tables (Node.run (H := ascii_toString) (Node.create Runs.me 6881)
                           Runs.eight_pings),
     [], Throw TypeError).
Proof.
  apply (full_node_answers_no_query (H := ascii_toString) Runs.me 6881
           Runs.eight_pings MoreRuns.full_bucket Runs.me 2000 "find_node"
           (Runs.query MoreRuns.find_node (Runs.contact 8) []) Runs.sender
           (Runs.contact 8)).
  - vm_compute. reflexivity.
  - vm_compute. reflexivity.
  - intros r Hin. vm_compute in Hin.
    repeat (destruct Hin as [<- | Hin]; [reflexivity|]). destruct Hin.
  - reflexivity.
  - reflexivity.
  - exact Runs.is_id_ninth.
  - exact Runs.is_id_me.
Defined.

Lemma find_node_returns_every_contact_witness :
  let m := Runs.query MoreRuns.find_node Runs.id_a [("target", BBuf Runs.me)] in
  let b' := snd (Bucket.add (H := ascii_toString)
                   (Bucket.Observed Runs.id_a Runs.sender) 1000 Bucket.new) in
  Handlers.processRequest (H := ascii_toString) Runs.me 1000 "find_node" m Runs.sender
    (Node.tables (Node.run (H := ascii_toString) (Node.create Runs.me 6881) []))
  = ({| Handlers.buckets := [Table.SBucket b']; Handlers.peers := ∅ |},
     [Sent Runs.sender
        (Response (Wire.t m)
           [("nodes", RNodes (Bucket.getNodes b')); ("id", RBuf Runs.me)])],
     Ok tt)
  /\ In (RemoteNode.new Runs.id_a Runs.sender 1000) (Bucket.getNodes b').
Proof.
  apply (find_node_returns_every_contact (H := ascii_toString) Runs.me 6881 []
           Bucket.new Runs.me 1000
           (Runs.query MoreRuns.find_node Runs.id_a [("target", BBuf Runs.me)])
           Runs.sender Runs.id_a).
  - reflexivity.
  - simpl. unfold K. lia.
  - reflexivity.
  - reflexivity.
  - exact Runs.is_id_a.
Defined.

Lemma get_peers_returns_token_and_contacts_witness :
  let m := Runs.query MoreRuns.get_peers Runs.id_a
             [("info_hash", BBuf AnnounceRuns.infohash)] in
  let b' := snd (Bucket.add (H := ascii_toString)
                   (Bucket.Observed Runs.id_a Runs.sender) 1000 Bucket.new) in
  Handlers.processRequest (H := ascii_toString) Runs.me 1000 "get_peers" m Runs.sender
    (Node.tables (Node.run (H := ascii_toString) (Node.create Runs.me 6881) []))
  = ({| Handlers.buckets := [Table.SBucket b']; Handlers.peers := ∅ |},
     [Sent Runs.sender
        (Response (Wire.t m)
           [("token", RBuf (alloc 4)); ("nodes", RNodes (Bucket.getNodes b'));
            ("id", RBuf Runs.me)])],
     Ok tt)
  /\ In (RemoteNode.new Runs.id_a Runs.sender 1000) (Bucket.getNodes b').
Proof.
  apply (get_peers_returns_token_and_contacts (H := ascii_toString) Runs.me 6881 []
           Bucket.new Runs.me 1000
           (Runs.query MoreRuns.get_peers Runs.id_a
              [("info_hash", BBuf AnnounceRuns.infohash)])
           Runs.sender Runs.id_a AnnounceRuns.infohash).
  - reflexivity.
  - simpl. unfold K. lia.
  - reflexivity.
  - reflexivity.
  - exact Runs.is_id_a.
  - reflexivity.
  - split; [reflexivity|]. unfold is_bytes, AnnounceRuns.infohash. simpl.
    repeat constructor; lia.
Defined.

Lemma responses_store_no_contact_witness :
  let m := TransactionRuns.reply [7; 7] in
  let k := MoreRuns.thanks in
  let n := MoreRuns.asked in
  Runs.occupancy (Handlers.buckets (Node.tables
      (Node.onmessage (H := ascii_toString) 3000 (Ok m) Runs.sender k n)))
  = Runs.occupancy (Handlers.buckets (Node.tables n))
  /\ Handlers.peers (Node.tables
        (Node.onmessage (H := ascii_toString) 3000 (Ok m) Runs.sender k n))
     = Handlers.peers (Node.tables n)
  /\ (Forall (fun a => ~ is_touch a) (Node.does k) ->
        Node.tables (Node.onmessage (H := ascii_toString) 3000 (Ok m) Runs.sender k n)
        = Node.tables n)
  /\ (forall tid, Wire.t m = Some tid -> Node.queries n !! hex tid = None ->
        Node.onmessage (H := ascii_toString) 3000 (Ok m) Runs.sender k n = n).
Proof.
  apply (responses_store_no_contact (H := ascii_toString) 3000
           (TransactionRuns.reply [7; 7]) Runs.sender MoreRuns.thanks MoreRuns.asked).
  reflexivity.
Defined.


Lemma answered_request_is_settled_witness :
  let n := Node.run (H := ascii_toString) (Node.create Runs.me 6881)
             Runs.eight_pings in
  let c := TransactionRuns.ask 7 7 in
  let m := TransactionRuns.reply [7; 7] in
  let k := MoreRuns.thanks in
  let n' := Node.onmessage (H := ascii_toString) 3000 (Ok m) Runs.sender k
              (Node.request c n) in
  Node.trace n'
  = (Node.trace n ++ [Node.Out (Sent (Node.target c)
                                  (Query [7; 7] (Node.type c) (Node.args c)));
                      Node.Called (Node.next_txn n) (Node.Reply (Wire.r m) Runs.sender)])%list
  /\ Node.queries n' = Node.queries n /\ Node.timers n' = Node.timers n
  /\ Node.tables n' = Node.tables (foldl Node.act n (Node.does k))
  /\ forall k', Node.timeout_fires (Node.next_txn n) k' n' = n'.
Proof.
  apply (answered_request_is_settled (H := ascii_toString) Runs.me 6881
           Runs.eight_pings (TransactionRuns.ask 7 7) 3000
           (TransactionRuns.reply [7; 7]) Runs.sender MoreRuns.thanks).
  - vm_compute. reflexivity.
  - reflexivity.
  - reflexivity.
  - reflexivity.
  - repeat constructor.
Defined.

Lemma throwing_continuation_stays_registered_witness :
  let n := Node.run (H := ascii_toString) (Node.create Runs.me 6881) [] in
  let c := TransactionRuns.ask 7 7 in
  let m := TransactionRuns.reply [7; 7] in
  let n' := Node.onmessage (H := ascii_toString) 100 (Ok m) Runs.sender
              TransactionRuns.throwing (Node.request c n) in
  Node.trace n'
  = (Node.trace n ++ [Node.Out (Sent (Node.target c)
                                  (Query [7; 7] (Node.type c) (Node.args c)));
                      Node.Called (Node.next_txn n) (Node.Reply (Wire.r m) Runs.sender);
                      Node.Out (Emitted (Error (Thrown "no reply expected")))])%list
  /\ Node.queries n' !! hex [7; 7] = Some (Node.next_txn n)
  /\ Node.timers n' !! Node.next_txn n = None
  /\ (forall k', Node.timeout_fires (Node.next_txn n) k' n' = n')
  /\ (forall now' m' from' k',
        Node.is_response m' = true -> Wire.t m' = Some [7; 7] ->
        calls (Node.next_txn n)
              (Node.trace (Node.onmessage (H := ascii_toString) now' (Ok m') from' k' n'))
        = 2%nat).
Proof.
  apply (throwing_continuation_stays_registered (H := ascii_toString) Runs.me 6881 []
           (TransactionRuns.ask 7 7) 100 (TransactionRuns.reply [7; 7]) Runs.sender
           TransactionRuns.throwing (Thrown "no reply expected")).
  - apply lookup_empty.
  - reflexivity.
  - reflexivity.
  - reflexivity.
  - constructor.
Defined.


Lemma colliding_ids_orphan_the_earlier_request_witness :
  let n := Node.create Runs.me 6881 in
  let c := TransactionRuns.ask 7 7 in
  let m := TransactionRuns.reply [7; 7] in
  let k := TransactionRuns.throwing in
  let n2 := Node.request c (Node.request c n) in
  let n3 := Node.onmessage (H := ascii_toString) 100 (Ok m) Runs.sender k n2 in
  Node.trace n3
  = (Node.trace n2 ++ Node.Called (S (Node.next_txn n))
                                  (Node.Reply (Wire.r m) Runs.sender)
                      :: match Node.ends k with
                         | Node.Returns => []
                         | Node.Throws e => [Node.Out (Emitted (Error e))]
                         end)%list
  /\ Node.queries n3 !! hex [7; 7] = match Node.ends k with
                                     | Node.Returns => None
                                     | Node.Throws _ => Some (S (Node.next_txn n))
                                     end
  /\ Node.timers n3 !! Node.next_txn n = Some (hex [7; 7])
  /\ Node.trace (Node.timeout_fires (Node.next_txn n) Node.idle n3)
     = (Node.trace n3 ++ [Node.Called (Node.next_txn n) Node.TimedOut])%list.
Proof.
  apply (colliding_ids_orphan_the_earlier_request (H := ascii_toString)
           (TransactionRuns.ask 7 7) (TransactionRuns.ask 7 7) 100
           (TransactionRuns.reply [7; 7]) Runs.sender TransactionRuns.throwing
           (Node.create Runs.me 6881)).
  - reflexivity.
  - reflexivity.
  - reflexivity.
  - reflexivity.
  - constructor.
Defined.

Lemma announce_keeps_one_record_per_address_witness :
  let m := AnnounceRuns.announce_msg [0; 0; 0; 0] in
  exists ps',
    Handlers.peers
      (fst (fst (Handlers.processAnnouncePeer Runs.me 9000 m AnnounceRuns.stranger
                   AnnounceRuns.listed)))
      !! hex AnnounceRuns.infohash = Some ps'
    /\ one_per_address ps'
    /\ In (Rinfo.address AnnounceRuns.stranger) (map Wire.address ps')
    /\ (length [AnnounceRuns.known] <= length ps' <= S (length [AnnounceRuns.known]))%nat
    /\ (In (Rinfo.address AnnounceRuns.stranger) (map Wire.address [AnnounceRuns.known]) ->
        length ps' = length [AnnounceRuns.known]).
Proof.
  apply (announce_keeps_one_record_per_address Runs.me 9000
           (AnnounceRuns.announce_msg [0; 0; 0; 0]) AnnounceRuns.stranger
           AnnounceRuns.listed [0; 0; 0; 0] AnnounceRuns.infohash
           [AnnounceRuns.known]).
  - reflexivity.
  - reflexivity.
  - reflexivity.
  - vm_compute. reflexivity.
  - unfold one_per_address. simpl. constructor; [intros [] | constructor].
Defined.

Lemma routing_loop_ends_within_two_rounds_witness :
  let bs := Handlers.buckets (Node.tables Runs.after_eight_pings) in
  Table.observe_loop (H := ascii_toString) 5 Runs.me 2000 (Runs.contact 8)
                     Runs.sender bs
  = (fst (Table.observe (H := ascii_toString) Runs.me 2000 (Runs.contact 8)
                        Runs.sender bs),
     Some (snd (Table.observe (H := ascii_toString) Runs.me 2000 (Runs.contact 8)
                              Runs.sender bs)))
  /\ (forall bs1,
        Table.observe_once (H := ascii_toString) Runs.me 2000 (Runs.contact 8)
                           Runs.sender bs = (bs1, Ok Table.Continue) ->
        exists e, Table.observe (H := ascii_toString) Runs.me 2000 (Runs.contact 8)
                                Runs.sender bs = (bs1, Throw e)).
Proof.
  apply (routing_loop_ends_within_two_rounds (H := ascii_toString) 5 Runs.me 2000
           (Runs.contact 8) Runs.sender
           (Handlers.buckets (Node.tables Runs.after_eight_pings))).
  lia.
Defined.

Lemma renew_keeps_only_the_common_prefix_witness :
  let b := MoreRuns.lower_half in
  exists i : nat,
    Renewal.renew_id (Bucket.start b) (Bucket.end_ b) 5 (fun k => repeat 255 k)
    = Ok (take i (Bucket.start b) ++ repeat 255 (20 - i)%nat)%list
    /\ Nat.Even i /\ (i <= 20)%nat
    /\ take i (Bucket.end_ b) = take i (Bucket.start b)
    /\ ((i < 20)%nat ->
          readUInt16BE (Bucket.start b) (Z.of_nat i)
          <> readUInt16BE (Bucket.end_ b) (Z.of_nat i)).
Proof.
  apply (renew_keeps_only_the_common_prefix
           (Bucket.start MoreRuns.lower_half) (Bucket.end_ MoreRuns.lower_half)
           5 (fun k => repeat 255 k)).
  - exact MoreRuns.is_id_zeros.
  - exact MoreRuns.is_id_half.
  - intros k. apply repeat_length.
Defined.

Lemma renew_can_miss_the_bucket_witness :
  let b := MoreRuns.lower_half in
  exists id,
    Renewal.renew_id (Bucket.start b) (Bucket.end_ b) 5 (fun k => repeat 255 k) = Ok id
    /\ id = (take 0 (Bucket.start b) ++ repeat 255 (20 - 0)%nat)%list
    /\ Bucket.contains b (VBuffer id) = Ok false.
Proof.
  apply (renew_can_miss_the_bucket MoreRuns.lower_half 5 (fun k => repeat 255 k)
           0%nat 32767 65535).
  - exact MoreRuns.is_id_zeros.
  - exact MoreRuns.is_id_half.
  - intros k. apply repeat_length.
  - exists 0%nat. reflexivity.
  - lia.
  - reflexivity.
  - reflexivity.
  - vm_compute. discriminate.
  - reflexivity.
  - lia.
Defined.
